(** * hetzner: the node reconciler of [getHetznerData] and the API client

    A shallow embedding of [hetzner.go] (package [main]) and of the [api]
    package it uses.  The reconciler builds a table [map[string]*Node] in
    five passes; the table holds pointers, and the auxiliary slice of
    subnets aliases the same objects, so the embedding keeps an explicit
    heap of [Node] cells.  A [panic] of the source and a nil dereference
    are distinct outcomes of the [result] type. *)

From Stdlib Require Import ZArith NArith List String Ascii Strings.Byte Lia.
From Stdlib Require Import Sorting.Sorted Sorting.Permutation.
From stdpp Require Import base option list strings gmap sorting.

Local Open Scope string_scope.
Local Open Scope Z_scope.

(** ** Outcomes of a Go computation that may panic *)

Inductive result (A : Type) : Type :=
  | Ok (a : A)
  | Panic (msg : string)
  | NilDeref.
Arguments Ok {A} a.
Arguments Panic {A} msg.
Arguments NilDeref {A}.

Definition rbind {A B} (r : result A) (k : A -> result B) : result B :=
  match r with
  | Ok a => k a
  | Panic m => Panic m
  | NilDeref => NilDeref
  end.

#[global] Instance result_ret : MRet result := fun A a => Ok a.
#[global] Instance result_bind : MBind result := fun A B k r => rbind r k.

Definition is_Ok {A} (r : result A) : bool :=
  match r with Ok _ => true | _ => false end.

(** [for _, e := range l { s = f(s, e) }] with early exit on a panic. *)
Fixpoint forM {S A} (f : S -> A -> result S) (l : list A) (s : S) : result S :=
  match l with
  | [] => Ok s
  | e :: l' => s' ← f s e; forM f l' s'
  end.

(** ** Package [net]: the part of the Go library the reconciler calls *)

Module net.

Definition IPv4len : Z := 4.
Definition IPv6len : Z := 16.

(** [type IP []byte]; the nil slice is the empty list. *)
Definition IP := list byte.
Definition IPMask := list byte.

Definition b0 : byte := x00.
Definition bff : byte := xff.

Definition len {A} (l : list A) : Z := Z.of_nat (length l).

Definition at_ (p : list byte) (i : Z) : N :=
  Byte.to_N (nth (Z.to_nat i) p b0).

Definition byte_eqb (a b : byte) : bool := Byte.eqb a b.

Fixpoint bytes_eqb (a b : list byte) : bool :=
  match a, b with
  | [], [] => true
  | x :: a', y :: b' => byte_eqb x y && bytes_eqb a' b'
  | _, _ => false
  end.

Definition isZeros (p : list byte) : bool := forallb (byte_eqb b0) p.

Definition v4InV6Prefix : list byte :=
  [b0; b0; b0; b0; b0; b0; b0; b0; b0; b0; bff; bff].

(** [net.IPv4(a, b, c, d)]: the 16-byte form, which is also what
    [net.ParseIP] returns for a dotted address. *)
Definition IPv4 (a b c d : byte) : IP := (v4InV6Prefix ++ [a; b; c; d])%list.

(** [func (ip IP) To4() IP]; nil when [ip] is not an IPv4 address. *)
Definition To4 (ip : IP) : IP :=
  if len ip =? IPv4len then ip
  else if (len ip =? IPv6len) && isZeros (firstn 10 ip)
          && (at_ ip 10 =? 255)%N && (at_ ip 11 =? 255)%N
       then skipn 12 ip
       else [].

(** [func (ip IP) Equal(x IP) bool] *)
Definition Equal (ip x : IP) : bool :=
  if len ip =? len x then bytes_eqb ip x
  else if (len ip =? IPv4len) && (len x =? IPv6len)
       then bytes_eqb (firstn 12 x) v4InV6Prefix && bytes_eqb ip (skipn 12 x)
  else if (len ip =? IPv6len) && (len x =? IPv4len)
       then bytes_eqb (firstn 12 ip) v4InV6Prefix && bytes_eqb (skipn 12 ip) x
  else false.

(** Decimal and hexadecimal rendering without leading zeros. *)
Definition digit_of (d : N) : ascii :=
  ascii_of_N (if (d <? 10)%N then 48 + d else 87 + d).

Fixpoint utoa_go (fuel : nat) (base n : N) (acc : string) : string :=
  match fuel with
  | O => acc
  | S f =>
      let acc' := String (digit_of (n mod base)) acc in
      if (n / base =? 0)%N then acc' else utoa_go f base (n / base) acc'
  end.

Definition uitoa (n : N) : string := utoa_go (S (N.size_nat n)) 10 n "".
Definition appendHex (n : N) : string := utoa_go (S (N.size_nat n)) 16 n "".

Fixpoint hexString (p : list byte) : string :=
  match p with
  | [] => ""
  | x :: p' =>
      String (digit_of (Byte.to_N x / 16)) (String (digit_of (Byte.to_N x mod 16)) (hexString p'))
  end.

(** The search for the longest run of zero 16-bit groups in [IP.String]:
    [run_end] is the inner loop, [find_run] the outer one. *)
Fixpoint run_end (fuel : nat) (p : IP) (j : Z) : Z :=
  match fuel with
  | O => j
  | S f =>
      if (j <? IPv6len) && (at_ p j =? 0)%N && (at_ p (j + 1) =? 0)%N
      then run_end f p (j + 2) else j
  end.

Fixpoint find_run (fuel : nat) (p : IP) (i e0 e1 : Z) : Z * Z :=
  match fuel with
  | O => (e0, e1)
  | S f =>
      if i <? IPv6len then
        let j := run_end 8 p i in
        if (j >? i) && (j - i >? e1 - e0)
        then find_run f p (j + 2) i j
        else find_run f p (i + 2) e0 e1
      else (e0, e1)
  end.

Definition group (p : IP) (i : Z) : N := (at_ p i * 256 + at_ p (i + 1))%N.

Fixpoint print6 (fuel : nat) (p : IP) (e0 e1 i : Z) (b : string) : string :=
  match fuel with
  | O => b
  | S f =>
      if i <? IPv6len then
        if i =? e0 then
          let b := b ++ "::" in
          let i := e1 in
          if i >=? IPv6len then b
          else print6 f p e0 e1 (i + 2) (b ++ appendHex (group p i))
        else
          let b := if i >? 0 then b ++ ":" else b in
          print6 f p e0 e1 (i + 2) (b ++ appendHex (group p i))
      else b
  end.

(** [func (ip IP) String() string] *)
Definition IP_String (ip : IP) : string :=
  if len ip =? 0 then "<nil>"
  else
    let p4 := To4 ip in
    if len p4 =? IPv4len then
      uitoa (at_ p4 0) ++ "." ++ uitoa (at_ p4 1) ++ "." ++
      uitoa (at_ p4 2) ++ "." ++ uitoa (at_ p4 3)
    else if negb (len ip =? IPv6len) then "?" ++ hexString ip
    else
      let '(e0, e1) := find_run 8 ip 0 (-1) (-1) in
      let '(e0, e1) := if e1 - e0 <=? 2 then (-1, -1) else (e0, e1) in
      print6 8 ip e0 e1 0 "".

(** [func CIDRMask(ones, bits int) IPMask]; nil for an impossible length. *)
Fixpoint mask_bytes (l : nat) (n : Z) : list byte :=
  match l with
  | O => []
  | S l' =>
      if n >=? 8 then bff :: mask_bytes l' (n - 8)
      else
        match Byte.of_N (N.lxor 255 (N.shiftr 255 (Z.to_N n))) with
        | Some b => b :: mask_bytes l' 0
        | None => b0 :: mask_bytes l' 0
        end
  end.

Definition CIDRMask (ones bits : Z) : IPMask :=
  if negb (bits =? 8 * IPv4len) && negb (bits =? 8 * IPv6len) then []
  else if (ones <? 0) || (ones >? bits) then []
  else mask_bytes (Z.to_nat (bits / 8)) ones.

(** [type IPNet struct { IP IP; Mask IPMask }] *)
Record IPNet : Type := mkIPNet { IP_of : IP; Mask_of : IPMask }.

(** [networkNumberAndMask]: [None] stands for the pair [(nil, nil)]. *)
Definition networkNumberAndMask (n : IPNet) : option (IP * IPMask) :=
  let ip4 := To4 (IP_of n) in
  let ipo := if len ip4 =? 0
             then (if len (IP_of n) =? IPv6len then Some (IP_of n) else None)
             else Some ip4 in
  match ipo with
  | None => None
  | Some ip =>
      let m := Mask_of n in
      if len m =? IPv4len then
        if len ip =? IPv4len then Some (ip, m) else None
      else if len m =? IPv6len then
        if len ip =? IPv4len then Some (ip, skipn 12 m) else Some (ip, m)
      else None
  end.

Fixpoint masked_eqb (nn m ip : list byte) : bool :=
  match nn, ip with
  | x :: nn', y :: ip' =>
      let mi := Byte.to_N (hd b0 m) in
      (N.land (Byte.to_N x) mi =? N.land (Byte.to_N y) mi)%N
      && masked_eqb nn' (tl m) ip'
  | _, _ => true
  end.

(** [func (n *IPNet) Contains(ip IP) bool] *)
Definition Contains (n : IPNet) (ip : IP) : bool :=
  let '(nn, m) := match networkNumberAndMask n with
                  | Some nm => nm
                  | None => ([], [])
                  end in
  let ip := if len (To4 ip) =? 0 then ip else To4 ip in
  if negb (len ip =? len nn) then false
  else masked_eqb nn m ip.

(** [simpleMaskLength]: the number of leading ones of a canonical mask,
    [-1] when the mask is not of that form. *)
Fixpoint leading_ones (fuel : nat) (c : N) : Z :=
  match fuel with
  | O => 0
  | S f => if N.testbit c 7 then 1 + leading_ones f ((c * 2) mod 256)%N else 0
  end.

Fixpoint simpleMaskLength (m : list byte) : Z :=
  match m with
  | [] => 0
  | x :: m' =>
      if byte_eqb x bff then
        let r := simpleMaskLength m' in
        if r =? -1 then -1 else 8 + r
      else
        let c := Byte.to_N x in
        let n := leading_ones 8 c in
        if negb ((c * 2 ^ Z.to_N n) mod 256 =? 0)%N then -1
        else if isZeros m' then n else -1
  end.

(** [func (n *IPNet) String() string] for a non-nil receiver. *)
Definition IPNet_String (n : IPNet) : string :=
  match networkNumberAndMask n with
  | None => "<nil>"
  | Some (nn, m) =>
      let l := simpleMaskLength m in
      if l =? -1 then IP_String nn ++ "/" ++ hexString m
      else IP_String nn ++ "/" ++ uitoa (Z.to_N l)
  end.

End net.

(** ** Package [time]: [time.Parse] at the layout [paidTimeFormat] *)

Module time.

(** A calendar date; the clock part of a [time.Time] parsed with the
    layout ["2006-01-02"] is always midnight UTC. *)
Record Time : Type := mkTime { Year : Z; Month : Z; Day : Z }.

(** [time.Time{}], January 1 of year 1. *)
Definition zero : Time := mkTime 1 1 1.

Definition isDigit (c : ascii) : bool :=
  let n := N_of_ascii c in ((48 <=? n) && (n <=? 57))%N.

Definition digit_val (c : ascii) : Z := Z.of_N (N_of_ascii c) - 48.

Definition isLeap (y : Z) : bool :=
  (y mod 4 =? 0) && (negb (y mod 100 =? 0) || (y mod 400 =? 0)).

Definition daysIn (m y : Z) : Z :=
  if m =? 2 then (if isLeap y then 29 else 28)
  else if (m =? 4) || (m =? 6) || (m =? 9) || (m =? 11) then 30
  else 31.

(** [time.Parse("2006-01-02", value)]: four digits, a dash, two digits, a
    dash, two digits and nothing else; month and day in range.  On an error
    the returned time is [Time{}]. *)
Definition Parse_date (value : string) : Time * option string :=
  match list_ascii_of_string value with
  | [y1; y2; y3; y4; d1; m1; m2; d2; a1; a2] =>
      if isDigit y1 && isDigit y2 && isDigit y3 && isDigit y4
         && Ascii.eqb d1 "-" && isDigit m1 && isDigit m2
         && Ascii.eqb d2 "-" && isDigit a1 && isDigit a2
      then
        let y := 1000 * digit_val y1 + 100 * digit_val y2
                 + 10 * digit_val y3 + digit_val y4 in
        let m := 10 * digit_val m1 + digit_val m2 in
        let d := 10 * digit_val a1 + digit_val a2 in
        if (1 <=? m) && (m <=? 12) && (1 <=? d) && (d <=? daysIn m y)
        then (mkTime y m d, None)
        else (zero, Some ("parsing time " ++ value ++ ": out of range"))
      else (zero, Some ("parsing time " ++ value))
  | _ => (zero, Some ("parsing time " ++ value))
  end.

End time.

(** ** Package [api]: the raw records *)

Module api.

Definition IP := net.IP.

Definition IP_String (a : IP) : string := net.IP_String a.

Record Server : Type := mkServer {
  Server_ip : IP;
  Server_number : Z;
  Server_name : string;
  Product : string;
  Dc : string;
  Traffic : string;
  Flatrate : bool;
  Status : string;
  Throttled : bool;
  Cancelled : bool;
  Paid_until : string
}.

Record Ip : Type := mkIp {
  Ip_Ip : IP;
  Ip_Server_ip : IP;
  Ip_Server_number : Z;
  Ip_Locked : bool;
  Ip_Separate_mac : string;
  Ip_Traffic_warnings : bool;
  Ip_Traffic_hourly : Z;
  Ip_Traffic_daily : Z;
  Ip_Traffic_monthly : Z
}.

Record Subnet : Type := mkSubnet {
  Subnet_Ip : IP;
  Subnet_Mask : Z;
  Subnet_Gateway : IP;
  Subnet_Server_ip : IP;
  Subnet_Server_number : Z;
  Subnet_Failover : bool;
  Subnet_Locked : bool;
  Subnet_Traffic_warnings : bool;
  Subnet_Traffic_hourly : Z;
  Subnet_Traffic_daily : Z;
  Subnet_Traffic_monthly : Z
}.

Record Rdns : Type := mkRdns {
  Rdns_Ip : IP;
  Rdns_Ptr : string
}.

Record Failover : Type := mkFailover {
  Failover_Ip : IP;
  Failover_Netmask : string;
  Failover_Server_ip : IP;
  Failover_Server_number : Z;
  Failover_Active_server_ip : IP
}.

End api.

(** ** Package [main]: kinds and nodes *)

Definition paidTimeFormat : string := "2006-01-02".

(** [type Kind byte] with the constants [KindNil = iota], ... *)
Inductive Kind : Type :=
  | KindNil
  | KindHost
  | KindManagement
  | KindNetwork
  | KindVirtual
  | KindFailover.

(** The numeric value of a kind constant. *)
Definition Kind_val (k : Kind) : Z :=
  match k with
  | KindNil => 0
  | KindHost => 1
  | KindManagement => 2
  | KindNetwork => 3
  | KindVirtual => 4
  | KindFailover => 5
  end.

Definition Kind_eqb (a b : Kind) : bool := Kind_val a =? Kind_val b.

#[global] Instance Kind_eq_dec : EqDecision Kind.
Proof. solve_decision. Defined.

(** [net.HardwareAddr]: nil, or the address [net.ParseMAC] returns for a
    string (nil when the string does not parse).  No pass looks inside the
    address, so it is kept as the call that produced it. *)
Inductive HardwareAddr : Type :=
  | HardwareAddr_nil
  | ParseMAC (s : string).

Record Node : Type := mkNode {
  Ip : net.IP;
  Ptr : string;
  Separate_mac : HardwareAddr;
  Server_ip : net.IP;
  Subnet : option net.IPNet;
  Gateway : net.IP;
  Dc : string;
  Product : string;
  Server_name : string;
  Server_number : Z;
  Throttled : bool;
  Status : string;
  Cancelled : bool;
  Failover : bool;
  Flatrate : bool;
  Locked : bool;
  Paid_until : time.Time;
  Traffic_warnings : bool;
  Traffic : string;
  Traffic_daily : Z;
  Traffic_hourly : Z;
  Traffic_monthly : Z;
  Active_server_ip : net.IP;
  Kind_of : Kind
}.

(** [func (n *Node) Clone() *Node]: a fresh cell with every field copied. *)
Definition Clone (n : Node) : Node :=
  {| Ip := Ip n;
     Ptr := Ptr n;
     Separate_mac := Separate_mac n;
     Server_ip := Server_ip n;
     Subnet := Subnet n;
     Gateway := Gateway n;
     Dc := Dc n;
     Product := Product n;
     Server_name := Server_name n;
     Server_number := Server_number n;
     Throttled := Throttled n;
     Status := Status n;
     Cancelled := Cancelled n;
     Failover := Failover n;
     Flatrate := Flatrate n;
     Locked := Locked n;
     Paid_until := Paid_until n;
     Traffic := Traffic n;
     Traffic_daily := Traffic_daily n;
     Traffic_hourly := Traffic_hourly n;
     Traffic_monthly := Traffic_monthly n;
     Traffic_warnings := Traffic_warnings n;
     Active_server_ip := Active_server_ip n;
     Kind_of := Kind_of n |}.

(** Field assignments [n.F = v]. *)
Definition set_Ip (v : net.IP) (n : Node) : Node :=
  mkNode v (Ptr n) (Separate_mac n) (Server_ip n) (Subnet n) (Gateway n) (Dc n)
    (Product n) (Server_name n) (Server_number n) (Throttled n) (Status n)
    (Cancelled n) (Failover n) (Flatrate n) (Locked n) (Paid_until n)
    (Traffic_warnings n) (Traffic n) (Traffic_daily n) (Traffic_hourly n)
    (Traffic_monthly n) (Active_server_ip n) (Kind_of n).

Definition set_Ptr (v : string) (n : Node) : Node :=
  mkNode (Ip n) v (Separate_mac n) (Server_ip n) (Subnet n) (Gateway n) (Dc n)
    (Product n) (Server_name n) (Server_number n) (Throttled n) (Status n)
    (Cancelled n) (Failover n) (Flatrate n) (Locked n) (Paid_until n)
    (Traffic_warnings n) (Traffic n) (Traffic_daily n) (Traffic_hourly n)
    (Traffic_monthly n) (Active_server_ip n) (Kind_of n).

Definition set_Separate_mac (v : HardwareAddr) (n : Node) : Node :=
  mkNode (Ip n) (Ptr n) v (Server_ip n) (Subnet n) (Gateway n) (Dc n)
    (Product n) (Server_name n) (Server_number n) (Throttled n) (Status n)
    (Cancelled n) (Failover n) (Flatrate n) (Locked n) (Paid_until n)
    (Traffic_warnings n) (Traffic n) (Traffic_daily n) (Traffic_hourly n)
    (Traffic_monthly n) (Active_server_ip n) (Kind_of n).

Definition set_Subnet (v : option net.IPNet) (n : Node) : Node :=
  mkNode (Ip n) (Ptr n) (Separate_mac n) (Server_ip n) v (Gateway n) (Dc n)
    (Product n) (Server_name n) (Server_number n) (Throttled n) (Status n)
    (Cancelled n) (Failover n) (Flatrate n) (Locked n) (Paid_until n)
    (Traffic_warnings n) (Traffic n) (Traffic_daily n) (Traffic_hourly n)
    (Traffic_monthly n) (Active_server_ip n) (Kind_of n).

Definition set_Gateway (v : net.IP) (n : Node) : Node :=
  mkNode (Ip n) (Ptr n) (Separate_mac n) (Server_ip n) (Subnet n) v (Dc n)
    (Product n) (Server_name n) (Server_number n) (Throttled n) (Status n)
    (Cancelled n) (Failover n) (Flatrate n) (Locked n) (Paid_until n)
    (Traffic_warnings n) (Traffic n) (Traffic_daily n) (Traffic_hourly n)
    (Traffic_monthly n) (Active_server_ip n) (Kind_of n).

Definition set_Failover (v : bool) (n : Node) : Node :=
  mkNode (Ip n) (Ptr n) (Separate_mac n) (Server_ip n) (Subnet n) (Gateway n)
    (Dc n) (Product n) (Server_name n) (Server_number n) (Throttled n)
    (Status n) (Cancelled n) v (Flatrate n) (Locked n) (Paid_until n)
    (Traffic_warnings n) (Traffic n) (Traffic_daily n) (Traffic_hourly n)
    (Traffic_monthly n) (Active_server_ip n) (Kind_of n).

Definition set_Locked (v : bool) (n : Node) : Node :=
  mkNode (Ip n) (Ptr n) (Separate_mac n) (Server_ip n) (Subnet n) (Gateway n)
    (Dc n) (Product n) (Server_name n) (Server_number n) (Throttled n)
    (Status n) (Cancelled n) (Failover n) (Flatrate n) v (Paid_until n)
    (Traffic_warnings n) (Traffic n) (Traffic_daily n) (Traffic_hourly n)
    (Traffic_monthly n) (Active_server_ip n) (Kind_of n).

Definition set_Traffic_warnings (v : bool) (n : Node) : Node :=
  mkNode (Ip n) (Ptr n) (Separate_mac n) (Server_ip n) (Subnet n) (Gateway n)
    (Dc n) (Product n) (Server_name n) (Server_number n) (Throttled n)
    (Status n) (Cancelled n) (Failover n) (Flatrate n) (Locked n)
    (Paid_until n) v (Traffic n) (Traffic_daily n) (Traffic_hourly n)
    (Traffic_monthly n) (Active_server_ip n) (Kind_of n).

Definition set_Traffic_daily (v : Z) (n : Node) : Node :=
  mkNode (Ip n) (Ptr n) (Separate_mac n) (Server_ip n) (Subnet n) (Gateway n)
    (Dc n) (Product n) (Server_name n) (Server_number n) (Throttled n)
    (Status n) (Cancelled n) (Failover n) (Flatrate n) (Locked n)
    (Paid_until n) (Traffic_warnings n) (Traffic n) v (Traffic_hourly n)
    (Traffic_monthly n) (Active_server_ip n) (Kind_of n).

Definition set_Traffic_hourly (v : Z) (n : Node) : Node :=
  mkNode (Ip n) (Ptr n) (Separate_mac n) (Server_ip n) (Subnet n) (Gateway n)
    (Dc n) (Product n) (Server_name n) (Server_number n) (Throttled n)
    (Status n) (Cancelled n) (Failover n) (Flatrate n) (Locked n)
    (Paid_until n) (Traffic_warnings n) (Traffic n) (Traffic_daily n) v
    (Traffic_monthly n) (Active_server_ip n) (Kind_of n).

Definition set_Traffic_monthly (v : Z) (n : Node) : Node :=
  mkNode (Ip n) (Ptr n) (Separate_mac n) (Server_ip n) (Subnet n) (Gateway n)
    (Dc n) (Product n) (Server_name n) (Server_number n) (Throttled n)
    (Status n) (Cancelled n) (Failover n) (Flatrate n) (Locked n)
    (Paid_until n) (Traffic_warnings n) (Traffic n) (Traffic_daily n)
    (Traffic_hourly n) v (Active_server_ip n) (Kind_of n).

Definition set_Active_server_ip (v : net.IP) (n : Node) : Node :=
  mkNode (Ip n) (Ptr n) (Separate_mac n) (Server_ip n) (Subnet n) (Gateway n)
    (Dc n) (Product n) (Server_name n) (Server_number n) (Throttled n)
    (Status n) (Cancelled n) (Failover n) (Flatrate n) (Locked n)
    (Paid_until n) (Traffic_warnings n) (Traffic n) (Traffic_daily n)
    (Traffic_hourly n) (Traffic_monthly n) v (Kind_of n).

Definition set_Kind (v : Kind) (n : Node) : Node :=
  mkNode (Ip n) (Ptr n) (Separate_mac n) (Server_ip n) (Subnet n) (Gateway n)
    (Dc n) (Product n) (Server_name n) (Server_number n) (Throttled n)
    (Status n) (Cancelled n) (Failover n) (Flatrate n) (Locked n)
    (Paid_until n) (Traffic_warnings n) (Traffic n) (Traffic_daily n)
    (Traffic_hourly n) (Traffic_monthly n) (Active_server_ip n) v.

(** ** [type Nodes []*Node] and its [sort.Interface] *)

(** [func (n Nodes) Less(i, j int) bool], on the two nodes [n[i]], [n[j]]. *)
Definition Less (a b : Node) : bool :=
  if Server_number a =? Server_number b
  then Kind_val (Kind_of a) <? Kind_val (Kind_of b)
  else Server_number a <? Server_number b.

(** ** [getHetznerData]: the five passes over the node table *)

(** The five collections [api.Get] has filled in when every request
    succeeded. *)
Record RawData : Type := mkRawData {
  rservers : list api.Server;
  rips : list api.Ip;
  rsubnets : list api.Subnet;
  rrdns : list api.Rdns;
  rfailover : list api.Failover
}.

(** A [*Node] is an index into the heap.  [nodes] is the table
    [map[string]*Node] keyed by [Ip.String()], [subnets] the slice
    [[]*Node] of the subnet pass; both point into [heap]. *)
Record state : Type := mkState {
  heap : list Node;
  nodes : gmap string nat;
  subnets : list nat
}.

Definition empty_state : state := mkState [] ∅ [].

(** Reading through a pointer; a pointer outside the heap behaves as nil. *)
Definition deref (st : state) (p : nat) : result Node :=
  match heap st !! p with
  | Some n => Ok n
  | None => NilDeref
  end.

(** [&Node{...}]: a fresh cell. *)
Definition alloc (st : state) (n : Node) : state * nat :=
  (mkState (heap st ++ [n])%list (nodes st) (subnets st), length (heap st)).

(** [nodes[k] = p] *)
Definition store (k : string) (p : nat) (st : state) : state :=
  mkState (heap st) (<[k := p]> (nodes st)) (subnets st).

(** Assignments through the pointer [p]. *)
Definition modify (p : nat) (f : Node -> Node) (st : state) : state :=
  match heap st !! p with
  | Some n => mkState (<[p := f n]> (heap st)) (nodes st) (subnets st)
  | None => st
  end.

Definition push_subnet (p : nat) (st : state) : state :=
  mkState (heap st) (nodes st) (subnets st ++ [p])%list.

(** [nodes[n.Ip.String()] = n] for a node [n] in a fresh cell. *)
Definition insert_node_st (st : state) (n : Node) : state :=
  store (net.IP_String (Ip n)) (alloc st n).2 (alloc st n).1.

(** *** Pass 1: hosts (lines 180-200) *)

Definition host_node (e : api.Server) : Node :=
  let paid_until := fst (time.Parse_date (api.Paid_until e)) in
  {| Ip := api.Server_ip e;
     Server_number := api.Server_number e;
     Server_name := api.Server_name e;
     Product := api.Product e;
     Dc := api.Dc e;
     Traffic := api.Traffic e;
     Flatrate := api.Flatrate e;
     Status := api.Status e;
     Throttled := api.Throttled e;
     Cancelled := api.Cancelled e;
     Paid_until := paid_until;
     Server_ip := api.Server_ip e;
     Kind_of := KindHost;
     (* the fields the literal leaves out are zero *)
     Ptr := "";
     Separate_mac := HardwareAddr_nil;
     Subnet := None;
     Gateway := [];
     Failover := false;
     Locked := false;
     Traffic_warnings := false;
     Traffic_daily := 0;
     Traffic_hourly := 0;
     Traffic_monthly := 0;
     Active_server_ip := [] |}.

Definition host_step (st : state) (e : api.Server) : result state :=
  Ok (insert_node_st st (host_node e)).

(** *** Pass 2: single addresses (lines 202-225) *)

Definition ip_fields (e : api.Ip) (n : Node) : Node :=
  set_Traffic_monthly (api.Ip_Traffic_monthly e)
    (set_Traffic_daily (api.Ip_Traffic_daily e)
      (set_Traffic_hourly (api.Ip_Traffic_hourly e)
        (set_Traffic_warnings (api.Ip_Traffic_warnings e)
          (set_Separate_mac (ParseMAC (api.Ip_Separate_mac e))
            (set_Locked (api.Ip_Locked e) n))))).

Definition management_node (e : api.Ip) (host : Node) : Node :=
  set_Kind KindManagement (set_Ip (api.Ip_Ip e) (Clone host)).

Definition ip_step (st : state) (e : api.Ip) : result state :=
  '(st1, p) ←
    match nodes st !! api.IP_String (api.Ip_Ip e) with
    | Some p => Ok (st, p)
    | None =>
        match nodes st !! api.IP_String (api.Ip_Server_ip e) with
        | Some hp =>
            host ← deref st hp;
            if negb (net.Equal (Ip host) (api.Ip_Ip e)) then
              let n := management_node e host in
              Ok (insert_node_st st n, (alloc st n).2)
            else Ok (st, hp)
        | None => Panic ("no host found for " ++ api.IP_String (api.Ip_Ip e))
        end
    end;
  _ ← deref st1 p;
  Ok (modify p (ip_fields e) st1).

(** *** Pass 3: subnets (lines 227-251) *)

Definition subnet_node (e : api.Subnet) (server : Node) : Node :=
  let n := set_Traffic_monthly (api.Subnet_Traffic_monthly e)
    (set_Traffic_daily (api.Subnet_Traffic_daily e)
      (set_Traffic_hourly (api.Subnet_Traffic_hourly e)
        (set_Traffic_warnings (api.Subnet_Traffic_warnings e)
          (set_Locked (api.Subnet_Locked e)
            (set_Failover (api.Subnet_Failover e)
              (set_Gateway (api.Subnet_Gateway e)
                (set_Kind KindNetwork
                  (set_Ip (api.Subnet_Ip e) (Clone server))))))))) in
  let bits := if net.len (net.To4 (Ip n)) =? 0
              then 8 * net.IPv6len else 8 * net.IPv4len in
  set_Subnet (Some (net.mkIPNet (Ip n) (net.CIDRMask (api.Subnet_Mask e) bits))) n.

Definition subnet_step (st : state) (e : api.Subnet) : result state :=
  match nodes st !! api.IP_String (api.Subnet_Ip e) with
  | Some _ =>
      Panic ("subnet conflicted with node " ++ api.IP_String (api.Subnet_Ip e))
  | None =>
      (* [server := nodes[...]] is nil when the key is absent, and
         [server.Clone()] then reads through nil *)
      server ← match nodes st !! api.IP_String (api.Subnet_Server_ip e) with
               | Some sp => deref st sp
               | None => NilDeref
               end;
      let n := subnet_node e server in
      Ok (push_subnet (alloc st n).2 (insert_node_st st n))
  end.

(** *** Pass 4: reverse DNS (lines 253-273) *)

Definition virtual_node (ip : net.IP) (ptr : string) (host : Node) : Node :=
  set_Kind KindVirtual (set_Ptr ptr (set_Ip ip (Clone host))).

Definition loosen_msg (ip : net.IP) (ptr : string) : string :=
  "should not reach that point: loosen record " ++ net.IP_String ip
  ++ " PTR " ++ ptr.

(** The inner loop [for _, s := range subnets]. *)
Fixpoint scan_subnets (st : state) (ip : net.IP) (ptr : string)
    (ss : list nat) : result state :=
  match ss with
  | [] => Panic (loosen_msg ip ptr)
  | sp :: ss' =>
      s ← deref st sp;
      subnet ← match Subnet s with Some sn => Ok sn | None => NilDeref end;
      if net.Contains subnet ip then
        host ← match nodes st !! net.IP_String (Server_ip s) with
               | Some hp => deref st hp
               | None => NilDeref
               end;
        Ok (insert_node_st st (virtual_node ip ptr host))
      else scan_subnets st ip ptr ss'
  end.

Definition rdns_step (st : state) (e : api.Rdns) : result state :=
  let ip := api.Rdns_Ip e in
  let ptr := api.Rdns_Ptr e in
  match nodes st !! net.IP_String ip with
  | Some p => _ ← deref st p; Ok (modify p (set_Ptr ptr) st)
  | None => scan_subnets st ip ptr (subnets st)
  end.

(** *** Pass 5: failover addresses (lines 275-283) *)

Definition failover_msg (e : api.Failover) : string :=
  "no subnet for failover " ++ api.IP_String (api.Failover_Ip e).

Definition failover_fields (e : api.Failover) (n : Node) : Node :=
  set_Active_server_ip (api.Failover_Active_server_ip e) (set_Kind KindFailover n).

Definition failover_step (st : state) (e : api.Failover) : result state :=
  match nodes st !! api.IP_String (api.Failover_Ip e) with
  | None => Panic (failover_msg e)
  | Some p =>
      n ← deref st p;
      if negb (Kind_eqb (Kind_of n) KindNetwork && Bool.eqb (Failover n) true)
      then Panic (failover_msg e)
      else Ok (modify p (failover_fields e) st)
  end.

(** *** The passes in sequence *)

Definition host_pass := forM host_step.
Definition ip_pass := forM ip_step.
Definition subnet_pass := forM subnet_step.
Definition rdns_pass := forM rdns_step.
Definition failover_pass := forM failover_step.

Definition build_nodes (raw : RawData) : result state :=
  st1 ← host_pass (rservers raw) empty_state;
  st2 ← ip_pass (rips raw) st1;
  st3 ← subnet_pass (rsubnets raw) st2;
  st4 ← rdns_pass (rrdns raw) st3;
  failover_pass (rfailover raw) st4.

(** *** From the table to the sorted list (lines 285-291) *)

(** The nodes the table points to, in the order [map_to_list] happens to
    enumerate the keys. *)
Definition table_nodes (st : state) : list Node :=
  omap (fun kp => heap st !! kp.2) (map_to_list (nodes st)).

(** [sorted l]: what [sort.Sort] guarantees of its result, no element is
    [Less] than one before it. *)
Definition sorted (l : list Node) : Prop :=
  StronglySorted (fun a b => Less b a = false) l.

(** [sort.Sort(l)] as its contract: some sorted rearrangement. *)
Definition sort_Sort (l l' : list Node) : Prop :=
  Permutation l l' /\ sorted l'.

(** One sorting function that meets the contract: stable insertion. *)
Fixpoint insert_node (a : Node) (l : list Node) : list Node :=
  match l with
  | [] => [a]
  | b :: l' => if Less b a then b :: insert_node a l' else a :: b :: l'
  end.

Fixpoint insertion_sort (l : list Node) : list Node :=
  match l with
  | [] => []
  | a :: l' => insert_node a (insertion_sort l')
  end.

(** [getHetznerData] after a successful fetch: [l] is a list the function
    may return.  The range over a Go map visits the entries in an
    unspecified order and [sort.Sort] is not stable, so the result is
    determined up to the order of nodes that [Less] does not separate. *)
Definition getHetznerData (raw : RawData) (l : list Node) : Prop :=
  exists st, build_nodes raw = Ok st /\ sort_Sort (table_nodes st) l.

(** An executable instance. *)
Definition getHetznerData_run (raw : RawData) : result (list Node) :=
  st ← build_nodes raw;
  Ok (insertion_sort (table_nodes st)).

(** ** Ancestry *)

(** The fields a derived node inherits from its host. *)
Record Ancestry : Type := mkAncestry {
  a_product : string;
  a_dc : string;
  a_server_name : string;
  a_server_number : Z;
  a_status : string;
  a_cancelled : bool;
  a_flatrate : bool;
  a_throttled : bool;
  a_paid_until : time.Time;
  a_traffic : string
}.

Definition ancestry (n : Node) : Ancestry :=
  mkAncestry (Product n) (Dc n) (Server_name n) (Server_number n) (Status n)
    (Cancelled n) (Flatrate n) (Throttled n) (Paid_until n) (Traffic n).

(** [in_table st n]: the table of [st] points to the node [n]. *)
Definition in_table (st : state) (n : Node) : Prop :=
  exists k p, nodes st !! k = Some p /\ heap st !! p = Some n.

(** [host_of st n h]: [h] is the Host-kind node stored under the key of
    [n]'s server address, and carries the same ancestry. *)
Definition host_of (st : state) (n h : Node) : Prop :=
  exists hp, nodes st !! net.IP_String (Server_ip n) = Some hp
             /\ heap st !! hp = Some h
             /\ Kind_of h = KindHost
             /\ ancestry h = ancestry n.

(** The table during the host pass: hosts only, each under its own key. *)
Definition hosts_only (st : state) : Prop :=
  subnets st = []
  /\ forall k p, nodes st !! k = Some p ->
       exists n, heap st !! p = Some n /\ net.IP_String (Ip n) = k
                 /\ Kind_of n = KindHost /\ Server_ip n = Ip n
                 /\ Subnet n = None.

(** The invariant of the table between two loop iterations. *)
Record wf (st : state) : Prop := mkWf {
  wf_key : forall k p, nodes st !! k = Some p ->
             exists n, heap st !! p = Some n /\ net.IP_String (Ip n) = k;
  wf_host : forall n, in_table st n -> exists h, host_of st n h;
  wf_net : forall n, in_table st n -> Kind_of n = KindNetwork ->
             exists mask, Subnet n = Some (net.mkIPNet (Ip n) mask);
  wf_subnets : forall sp, sp ∈ subnets st ->
                 exists s sn, heap st !! sp = Some s /\ Subnet s = Some sn
                              /\ nodes st !! net.IP_String (Ip s) = Some sp
}.

(** A change of a cell that the invariant tolerates. *)
Definition frame_ok (n n' : Node) : Prop :=
  Ip n' = Ip n /\ Server_ip n' = Server_ip n /\ ancestry n' = ancestry n
  /\ Subnet n' = Subnet n
  /\ (Kind_of n = KindHost -> Kind_of n' = KindHost)
  /\ (Kind_of n' = KindNetwork -> Kind_of n = KindNetwork).

(** [preserved st st']: every cell of [st] is still there in [st'], with
    its address, server address, ancestry and subnet as they were. *)
Definition preserved (st st' : state) : Prop :=
  forall p n, heap st !! p = Some n ->
    exists n', heap st' !! p = Some n' /\ frame_ok n n'.

(** ** The table at the moment a record is processed *)

(** The state in which the IP pass meets the record that follows [pre]. *)
Definition reach_ip (raw : RawData) (pre : list api.Ip) : result state :=
  st1 ← host_pass (rservers raw) empty_state;
  ip_pass pre st1.

Definition reach_subnet (raw : RawData) (pre : list api.Subnet) : result state :=
  st2 ← reach_ip raw (rips raw);
  subnet_pass pre st2.

Definition reach_rdns (raw : RawData) (pre : list api.Rdns) : result state :=
  st3 ← reach_subnet raw (rsubnets raw);
  rdns_pass pre st3.

Definition reach_failover (raw : RawData) (pre : list api.Failover) : result state :=
  st4 ← reach_rdns raw (rrdns raw);
  failover_pass pre st4.

(** [reached raw st]: the run on [raw] passes through [st] between two
    iterations of one of the five loops. *)
Definition reached (raw : RawData) (st : state) : Prop :=
  (exists pre post, rservers raw = (pre ++ post)%list
                    /\ host_pass pre empty_state = Ok st)
  \/ (exists pre post, rips raw = (pre ++ post)%list /\ reach_ip raw pre = Ok st)
  \/ (exists pre post, rsubnets raw = (pre ++ post)%list
                       /\ reach_subnet raw pre = Ok st)
  \/ (exists pre post, rrdns raw = (pre ++ post)%list /\ reach_rdns raw pre = Ok st)
  \/ (exists pre post, rfailover raw = (pre ++ post)%list
                       /\ reach_failover raw pre = Ok st).

(** Some node, of whatever kind, is stored under the key of [ip]. *)
Definition node_at (st : state) (ip : net.IP) : Prop :=
  is_Some (nodes st !! net.IP_String ip).

(** A Host-kind node is stored under the key of [ip]. *)
Definition host_at (st : state) (ip : net.IP) : Prop :=
  exists p h, nodes st !! net.IP_String ip = Some p
              /\ heap st !! p = Some h /\ Kind_of h = KindHost.

(** Whether the subnet node behind the pointer [sp] contains [ip]. *)
Definition subnet_contains (st : state) (ip : net.IP) (sp : nat) : bool :=
  match heap st !! sp with
  | Some s => match Subnet s with
              | Some sn => net.Contains sn ip
              | None => false
              end
  | None => false
  end.

(** The subnet node behind [sp] is there and does not contain [ip]. *)
Definition subnet_misses (st : state) (ip : net.IP) (sp : nat) : Prop :=
  exists s sn, heap st !! sp = Some s /\ Subnet s = Some sn
               /\ net.Contains sn ip = false.

(** The addresses of the subnet nodes, in the order of the slice. *)
Definition subnet_ips (st : state) : list (option net.IP) :=
  map (fun sp => Ip <$> heap st !! sp) (subnets st).

(** ** Ordering *)

Definition sort_key (n : Node) : Z * Z := (Server_number n, Kind_val (Kind_of n)).

(** Lexicographic comparison of two keys. *)
Definition lex_lt (a b : Z * Z) : Prop :=
  a.1 < b.1 \/ (a.1 = b.1 /\ a.2 < b.2).

Definition lex_le (a b : Z * Z) : Prop :=
  a.1 < b.1 \/ (a.1 = b.1 /\ a.2 <= b.2).

(** A strict total order on the members of a list. *)
Definition strict_total_order_on (l : list Node) (R : Node -> Node -> Prop) : Prop :=
  (forall a, a ∈ l -> ~ R a a)
  /\ (forall a b c, a ∈ l -> b ∈ l -> c ∈ l -> R a b -> R b c -> R a c)
  /\ (forall a b, a ∈ l -> b ∈ l -> a <> b -> R a b \/ R b a).

(** ** Identity *)

(** The table key of a node. *)
Definition node_key (n : Node) : string := net.IP_String (Ip n).

(** The identity that reads a Network-kind node by its CIDR string
    (the [String] method of [IPNet], ["<nil>"] for a nil pointer). *)
Definition identity (n : Node) : string :=
  match Kind_of n with
  | KindNetwork =>
      match Subnet n with
      | Some sn => net.IPNet_String sn
      | None => "<nil>"
      end
  | _ => net.IP_String (Ip n)
  end.

Definition has_slash (s : string) : bool :=
  existsb (Ascii.eqb "/") (list_ascii_of_string s).

(** ** The paid-until date *)

Definition set_Paid_until (v : time.Time) (n : Node) : Node :=
  mkNode (Ip n) (Ptr n) (Separate_mac n) (Server_ip n) (Subnet n) (Gateway n)
    (Dc n) (Product n) (Server_name n) (Server_number n) (Throttled n)
    (Status n) (Cancelled n) (Failover n) (Flatrate n) (Locked n)
    v (Traffic_warnings n) (Traffic n) (Traffic_daily n)
    (Traffic_hourly n) (Traffic_monthly n) (Active_server_ip n) (Kind_of n).

(** The record [e] with another paid-until string. *)
Definition with_Paid_until (s : string) (e : api.Server) : api.Server :=
  api.mkServer (api.Server_ip e) (api.Server_number e) (api.Server_name e)
    (api.Product e) (api.Dc e) (api.Traffic e) (api.Flatrate e) (api.Status e)
    (api.Throttled e) (api.Cancelled e) s.

Definition parses (s : string) : bool :=
  match snd (time.Parse_date s) with None => true | Some _ => false end.

Local Abbreviation zp := (set_Paid_until time.zero).

(** Forgetting every paid-until date of a state. *)
Definition erase_paid (st : state) : state :=
  mkState (zp <$> heap st) (nodes st) (subnets st).

Definition rmap {A B} (f : A -> B) (r : result A) : result B :=
  match r with
  | Ok a => Ok (f a)
  | Panic m => Panic m
  | NilDeref => NilDeref
  end.

(** Two server records that differ at most in the paid-until string. *)
Definition same_but_paid (e e' : api.Server) : Prop :=
  e' = with_Paid_until (api.Paid_until e') e.

(** ** Sample data *)

Module sample.

Definition ip_10_0_0_1 : net.IP := net.IPv4 x0a x00 x00 x01.
Definition ip_10_0_0_2 : net.IP := net.IPv4 x0a x00 x00 x02.
Definition ip_10_0_0_3 : net.IP := net.IPv4 x0a x00 x00 x03.
Definition net_10_1_0_0 : net.IP := net.IPv4 x0a x01 x00 x00.
Definition net_10_2_0_0 : net.IP := net.IPv4 x0a x02 x00 x00.
Definition ip_10_1_0_5 : net.IP := net.IPv4 x0a x01 x00 x05.

(** One server, number 100, main address 10.0.0.1. *)
Definition server : api.Server :=
  api.mkServer ip_10_0_0_1 100 "web1" "EX40" "FSN1-DC5" "20 TB" true "ready"
    false false "2014-03-01".

(** The address [a], assigned to the server whose main address is [owner]. *)
Definition single (a owner : net.IP) : api.Ip :=
  api.mkIp a owner 100 false "" true 0 0 0.

(** The subnet [a/mask] routed to [owner]. *)
Definition routed (a : net.IP) (mask : Z) (owner : net.IP) (failover : bool)
    : api.Subnet :=
  api.mkSubnet a mask [] owner 100 failover false true 0 0 0.

(** A host and one further address. *)
Definition host_and_ip : RawData :=
  mkRawData [server] [single ip_10_0_0_2 ip_10_0_0_1] [] [] [].

(** A host and two further addresses, the second one assigned to the
    first one instead of the host. *)
Definition chained_ips : RawData :=
  mkRawData [server]
    [single ip_10_0_0_2 ip_10_0_0_1; single ip_10_0_0_3 ip_10_0_0_2] [] [] [].

(** A host and two further addresses of its own. *)
Definition two_ips : RawData :=
  mkRawData [server]
    [single ip_10_0_0_2 ip_10_0_0_1; single ip_10_0_0_3 ip_10_0_0_1] [] [] [].

(** A subnet routed to a further address of the host. *)
Definition subnet_of_ip : RawData :=
  mkRawData [server] [single ip_10_0_0_2 ip_10_0_0_1]
    [routed net_10_1_0_0 24 ip_10_0_0_2 false] [] [].

(** A subnet routed to an address the table does not know. *)
Definition orphan_subnet : RawData :=
  mkRawData [server] []
    [routed net_10_1_0_0 24 ip_10_0_0_2 false] [] [].

(** Two subnets with a prefix length no IPv4 mask has. *)
Definition bad_masks : RawData :=
  mkRawData [server] []
    [routed net_10_1_0_0 33 ip_10_0_0_1 false;
     routed net_10_2_0_0 33 ip_10_0_0_1 false] [] [].

(** A host, a routed subnet with a reverse DNS entry inside it, and a
    failover subnet with its failover record. *)
Definition full : RawData :=
  mkRawData [server] [single ip_10_0_0_2 ip_10_0_0_1]
    [routed net_10_1_0_0 24 ip_10_0_0_1 false;
     routed net_10_2_0_0 32 ip_10_0_0_1 true]
    [api.mkRdns ip_10_1_0_5 "x.example.com"]
    [api.mkFailover net_10_2_0_0 "255.255.255.255" ip_10_0_0_1 100 ip_10_0_0_1].

(** The host with a paid-until string that is no date, and one further
    address. *)
Definition undated : RawData :=
  mkRawData [with_Paid_until "unknown" server]
    [single ip_10_0_0_2 ip_10_0_0_1] [] [] [].

(** Three nodes made from them. *)
Definition host_n : Node := host_node server.
Definition management_n : Node :=
  ip_fields (single ip_10_0_0_2 ip_10_0_0_1)
    (management_node (single ip_10_0_0_2 ip_10_0_0_1) host_n).
Definition virtual_n : Node := virtual_node ip_10_1_0_5 "x.example.com" host_n.

End sample.

(** ** The claims read with "Host node" as a node of kind Host *)

(** The IP pass aborts at every record whose address is free and whose
    owner's key holds no Host-kind node. *)
Definition ip_pass_aborts_without_Host : Prop :=
  forall raw pre e post st,
    rips raw = (pre ++ e :: post)%list ->
    reach_ip raw pre = Ok st ->
    ~ node_at st (api.Ip_Ip e) ->
    ~ host_at st (api.Ip_Server_ip e) ->
    is_Ok (build_nodes raw) = false.

(** The subnet pass reads through nil at every record whose owner's
    key holds no Host-kind node. *)
Definition subnet_pass_needs_Host : Prop :=
  forall raw pre e post st,
    rsubnets raw = (pre ++ e :: post)%list ->
    reach_subnet raw pre = Ok st ->
    ~ host_at st (api.Subnet_Server_ip e) ->
    is_Ok (build_nodes raw) = false.

(** [Less] is a strict total order on every list [getHetznerData] returns. *)
Definition Less_strict_total_on_output : Prop :=
  forall raw l, getHetznerData raw l ->
    strict_total_order_on l (fun a b => Less a b = true).

(** The identities of every returned list are pairwise distinct. *)
Definition identities_distinct : Prop :=
  forall raw l, getHetznerData raw l -> NoDup (map identity l).

(** ** Package [api]: unwrapping the envelopes in [decodeResponse] *)

Module decode.

Definition zero_value_msg : string :=
  "reflect: call of reflect.Value.Set on zero Value".

Section Unwrap.

Context {T : Type}.

(** [MapIndex(key)] followed by [reflect.Append] or [Set]: a map without
    the key yields the zero [Value], which neither accepts. *)
Definition unwrap_one (key : string) (m : gmap string T) : result T :=
  match m !! key with
  | Some v => Ok v
  | None => Panic zero_value_msg
  end.

(** The loop over [wSlice] (lines 557-566): the unwrapped slice. *)
Fixpoint unwrap_slice (key : string) (wSlice : list (gmap string T))
    : result (list T) :=
  match wSlice with
  | [] => Ok []
  | m :: wSlice' =>
      v ← unwrap_one key m;
      (* the rest of the loop appends behind [v] *)
      uSlice ← unwrap_slice key wSlice';
      Ok (v :: uSlice)
  end.

End Unwrap.

End decode.

(** ** Package [api]: [decodeResponse] and [Client.do] *)

Module client.

Definition StatusOK : Z := 200.

(** [api.Error], the error record the provider sends. *)
Record Error : Type := mkError {
  Status : Z;
  Code : string;
  Message : string
}.

(** The values of the interface [error] that [do] handles. *)
Inductive error : Type :=
  | TransportError (msg : string)
  | DecodeError (msg : string)
  | ApiError (e : Error)
  | RequestError (HttpReq HttpMethod : string) (HttpStatusCode : Z)
      (RootCause : error).

(** The fields of [*http.Request] and [*http.Response] that [do] reads. *)
Record Request : Type := mkRequest { Method : string; URL_Path : string }.
Record Response : Type := mkResponse { StatusCode : Z; Body : string }.

(** What the argument [v] of [decodeResponse] is: a nil pointer, a
    pointer to a value of the element type, or a pointer to a slice. *)
Inductive pointer : Type :=
  | NilPtr
  | PtrValue
  | PtrSlice.

(** What [decodeResponse] has stored through [v] when it returns nil. *)
Inductive stored (T : Type) : Type :=
  | StoredValue (t : T)
  | StoredSlice (ts : list T).

Arguments StoredValue {T} t.
Arguments StoredSlice {T} ts.

Definition nil_msg : string := "v is nil".

(** [decodeResponse] for a pointer to a value (lines 549-551 and 567-569):
    [json] is [dec.Decode] into a fresh [map[string]A]; its error is
    returned, its map is unwrapped with [MapIndex] and [Set]. *)
Definition decode_value {A : Type} (json : Response -> gmap string A + error)
    (key : string) (r : Response) : result (A + error) :=
  match json r with
  | inr err => Ok (inr err)
  | inl m => a ← decode.unwrap_one key m; Ok (inl a)
  end.

(** [decodeResponse] for a pointer to a slice (lines 549-551 and
    555-566): [json] is [dec.Decode] into a fresh [[]map[string]A]. *)
Definition decode_slice {A : Type}
    (json : Response -> list (gmap string A) + error)
    (key : string) (r : Response) : result (list A + error) :=
  match json r with
  | inr err => Ok (inr err)
  | inl ms => l ← decode.unwrap_slice key ms; Ok (inl l)
  end.

Section Do.

(** The element type of what [v] points to. *)
Context {T : Type}.

(** [c.http.Do]: the response pointer, nil as [None], and the error. *)
Variable http_Do : Request -> option Response * option error.

(** [json.NewDecoder(res.Body).Decode] into the envelope of an [Error],
    of a [T] and of a slice of [T]. *)
Variable json_error : Response -> gmap string Error + error.
Variable json_value : Response -> gmap string T + error.
Variable json_slice : Response -> list (gmap string T) + error.

(** [strings.ToLower(vtyp.Name())] for the type [T]. *)
Variable key : string.

(** [func decodeResponse(res, v) error] for a [v] of pointer type: the
    nil check comes before any decoding; [inl s] is a nil error with
    [s] stored through [v], [inr e] the decoder's error. *)
Definition decodeResponse (r : Response) (v : pointer)
    : result (stored T + error) :=
  match v with
  | NilPtr => Panic nil_msg
  | PtrValue =>
      d ← decode_value json_value key r;
      Ok (match d with inl t => inl (StoredValue t) | inr e => inr e end)
  | PtrSlice =>
      d ← decode_slice json_slice key r;
      Ok (match d with inl ts => inl (StoredSlice ts) | inr e => inr e end)
  end.

(** [func (c *Client) do(req, v) error]: [inl s] is a nil error with
    [s] stored through [v], [inr e] the error returned.  The deferred
    [res.Body.Close()] reads [res.Body] when the [defer] statement runs,
    before [err] is looked at.  [decodeResponse(res, &cause)] is the
    value case with the key of the type [Error]: [&cause] is not nil. *)
Definition do (req : Request) (v : pointer) : result (stored T + error) :=
  let '(res, err) := http_Do req in
  match res with
  | None => NilDeref
  | Some r =>
      let newRequestError cause :=
        RequestError (Method req) (URL_Path req) (StatusCode r) cause in
      match err with
      | Some e => Ok (inr (newRequestError e))
      | None =>
          if negb (StatusCode r =? StatusOK) then
            d ← decode_value json_error "error" r;
            match d with
            | inl cause => Ok (inr (newRequestError (ApiError cause)))
            | inr e => Ok (inr (newRequestError e))
            end
          else
            d ← decodeResponse r v;
            match d with
            | inl s => Ok (inl s)
            | inr e => Ok (inr (newRequestError e))
            end
      end
  end.

End Do.

End client.

(** C10 as it is worded: whenever the transport returns an error, [do]
    ends in the nil dereference and returns no error value. *)
Definition do_loses_every_transport_error : Prop :=
  forall (T : Type)
    (http_Do : client.Request -> option client.Response * option client.error)
    (json_error : client.Response -> gmap string client.Error + client.error)
    (json_value : client.Response -> gmap string T + client.error)
    (json_slice : client.Response -> list (gmap string T) + client.error)
    (key : string) (req : client.Request) (v : client.pointer)
    (e : client.error),
    snd (http_Do req) = Some e ->
    client.do http_Do json_error json_value json_slice key req v = NilDeref.

(** ** Package [main]: the helpers around the reconciler *)

(** [func (k Kind) String() string]; the [default] branch answers the
    byte values that are no constant, which [Kind] does not have. *)
Definition Kind_String (k : Kind) : string :=
  match k with
  | KindNil => "<nil>"
  | KindManagement => "Management"
  | KindHost => "Host"
  | KindVirtual => "Virtual"
  | KindNetwork => "Network"
  | KindFailover => "Failover"
  end.

(** The [switch] of [main] over a name of the [-kinds] flag, after
    [strings.ToLower(strings.TrimSpace(k))]: the kind the name selects. *)
Definition kind_of_name (s : string) : option Kind :=
  if String.eqb s "host" then Some KindHost
  else if String.eqb s "management" then Some KindManagement
  else if String.eqb s "network" then Some KindNetwork
  else if String.eqb s "virtual" then Some KindVirtual
  else if String.eqb s "failover" then Some KindFailover
  else None.

(** [strings.ToLower] on bytes below 0x80; a string with other bytes is
    outside this definition. *)
Definition lower_byte (c : ascii) : ascii :=
  let n := N_of_ascii c in
  if ((65 <=? n) && (n <=? 90))%N then ascii_of_N (n + 32) else c.

Fixpoint ToLower (s : string) : string :=
  match s with
  | EmptyString => EmptyString
  | String c s' => String (lower_byte c) (ToLower s')
  end.

Definition squote : ascii := "'"%char.
Definition dquote : ascii := "034"%char.

(** [func unbrace(s string) string] *)
Definition unbrace (s : string) : string :=
  if (1 <? String.length s)%nat
     && match String.get 0 s with
        | Some c => Ascii.eqb c squote || Ascii.eqb c dquote
        | None => false
        end
  then substring 1 (String.length s - 2) s
  else s.

(** [func (n Nodes) Len() int] *)
Definition Len (n : list Node) : Z := Z.of_nat (length n).

Definition index_msg : string := "runtime error: index out of range".

(** [func (n Nodes) Swap(i, j int)]: both elements are read before either
    is written; an index outside the slice panics. *)
Definition Swap (n : list Node) (i j : Z) : result (list Node) :=
  if (0 <=? i) && (i <? Len n) && (0 <=? j) && (j <? Len n) then
    match n !! Z.to_nat i, n !! Z.to_nat j with
    | Some a, Some b => Ok (<[Z.to_nat j := a]> (<[Z.to_nat i := b]> n))
    | _, _ => Panic index_msg
    end
  else Panic index_msg.

(** *** The fetch of [getHetznerData] (lines 148-175) *)

(** The loop over the channel: the first error received, if any. *)
Fixpoint first_error (errc : list (option client.error)) : option client.error :=
  match errc with
  | [] => None
  | Some e :: _ => Some e
  | None :: errc' => first_error errc'
  end.

(** What [getHetznerData] returns: the nodes and a nil error, or nil and
    an error. *)
Inductive returned : Type :=
  | Nodes_of (l : list Node)
  | Err_of (e : client.error).

(** [gets] are the errors of the five [api.Get] calls in the order of the
    [go] statements, [raw] what the calls have stored.  Each goroutine
    sends its error on the channel of capacity five; the order of the
    sends is not fixed, so the channel holds some rearrangement [errc] of
    [gets] when [wg.Wait] returns. *)
Definition getHetznerData_fetch (gets : list (option client.error))
    (raw : RawData) (r : returned) : Prop :=
  exists errc, Permutation gets errc
    /\ match first_error errc with
       | Some e => r = Err_of e
       | None => exists l, getHetznerData raw l /\ r = Nodes_of l
       end.

(** *** The shape of a node of each kind *)

Definition has_subnet (n : Node) : Prop :=
  exists mask, Subnet n = Some (net.mkIPNet (Ip n) mask).

Definition shape (n : Node) : Prop :=
  match Kind_of n with
  | KindNil => False
  | KindHost | KindManagement | KindVirtual =>
      Subnet n = None /\ Failover n = false /\ Gateway n = []
      /\ Active_server_ip n = []
  | KindNetwork => has_subnet n /\ Active_server_ip n = []
  | KindFailover => has_subnet n /\ Failover n = true
  end.

(** A node as the host and IP passes leave it. *)
Definition plain (n : Node) : Prop :=
  (Kind_of n = KindHost \/ Kind_of n = KindManagement)
  /\ Subnet n = None /\ Failover n = false /\ Gateway n = []
  /\ Active_server_ip n = [] /\ Ptr n = "".

(** [table_forall Q st]: every node of the table satisfies [Q]. *)
Definition table_forall (Q : Node -> Prop) (st : state) : Prop :=
  forall n, in_table st n -> Q n.

(** Every pointer of the table points into the heap. *)
Definition pointers_ok (st : state) : Prop :=
  forall k p, nodes st !! k = Some p -> is_Some (heap st !! p).

(** [grows st st']: the keys of [st] are keys of [st'], with the pointers
    they had. *)
Definition grows (st st' : state) : Prop :=
  forall k p, nodes st !! k = Some p -> nodes st' !! k = Some p.

(** The fields only the IP and subnet passes assign. *)
Record AddressFields : Type := mkAddressFields {
  f_locked : bool;
  f_separate_mac : HardwareAddr;
  f_traffic_warnings : bool;
  f_traffic_hourly : Z;
  f_traffic_daily : Z;
  f_traffic_monthly : Z
}.

Definition address_fields (n : Node) : AddressFields :=
  mkAddressFields (Locked n) (Separate_mac n) (Traffic_warnings n)
    (Traffic_hourly n) (Traffic_daily n) (Traffic_monthly n).

(** [late_frame n n']: the change the RDNS and failover passes may make
    to a cell: PTR, kind and active server address apart, it is the same
    node. *)
Definition late_frame (n n' : Node) : Prop :=
  set_Ptr "" (set_Kind KindNil (set_Active_server_ip [] n'))
  = set_Ptr "" (set_Kind KindNil (set_Active_server_ip [] n)).

(** The change the failover pass may make: kind and active server
    address apart, the same node. *)
Definition failover_frame (n n' : Node) : Prop :=
  set_Kind KindNil (set_Active_server_ip [] n')
  = set_Kind KindNil (set_Active_server_ip [] n).

(** The change the subnet, RDNS and failover passes may make to a cell
    that is already there: the failover pass alone changes a kind, from
    Network to Failover. *)
Definition late (n n' : Node) : Prop :=
  late_frame n n'
  /\ (Kind_of n' = Kind_of n
      \/ (Kind_of n = KindNetwork /\ Kind_of n' = KindFailover)).

(** [cells R st st']: every cell of [st] is a cell of [st'], changed at
    most as [R] allows. *)
Definition cells (R : Node -> Node -> Prop) (st st' : state) : Prop :=
  forall p n, heap st !! p = Some n ->
    exists n', heap st' !! p = Some n' /\ R n n'.

(** What the subnet, RDNS and failover passes do to the state they
    start from. *)
Definition late_rel (st st' : state) : Prop := grows st st' /\ cells late st st'.

(** The keys of the records of each collection. *)
Definition server_key (e : api.Server) : string := net.IP_String (api.Server_ip e).
Definition ip_key (e : api.Ip) : string := net.IP_String (api.Ip_Ip e).
Definition subnet_key (e : api.Subnet) : string := net.IP_String (api.Subnet_Ip e).
Definition rdns_key (e : api.Rdns) : string := net.IP_String (api.Rdns_Ip e).
Definition failover_key (e : api.Failover) : string :=
  net.IP_String (api.Failover_Ip e).

(** The address-level fields an IP record assigns. *)
Definition ip_record_fields (e : api.Ip) : AddressFields :=
  mkAddressFields (api.Ip_Locked e) (ParseMAC (api.Ip_Separate_mac e))
    (api.Ip_Traffic_warnings e) (api.Ip_Traffic_hourly e)
    (api.Ip_Traffic_daily e) (api.Ip_Traffic_monthly e).

(** A node as the subnet pass leaves it: no PTR yet, and no kind the
    later passes assign. *)
Definition before_rdns (n : Node) : Prop :=
  shape n /\ Ptr n = ""
  /\ Kind_of n <> KindVirtual /\ Kind_of n <> KindFailover.

(** A node as the RDNS pass leaves it. *)
Definition before_failover (n : Node) : Prop :=
  shape n /\ Kind_of n <> KindFailover.

(** *** Records and the nodes they make *)

(** [entry st k n]: the table of [st] holds the node [n] under the key [k]. *)
Definition entry (st : state) (k : string) (n : Node) : Prop :=
  exists p, nodes st !! k = Some p /\ heap st !! p = Some n.

(** [origin raw n]: the records of [raw] that account for a node of the
    kind of [n] under the key of [n]. *)
Definition origin (raw : RawData) (n : Node) : Prop :=
  match Kind_of n with
  | KindNil => False
  | KindHost =>
      exists e, e ∈ rservers raw /\ server_key e = node_key n
                /\ ancestry n = ancestry (host_node e)
  | KindManagement => exists e, e ∈ rips raw /\ ip_key e = node_key n
  | KindVirtual => exists e, e ∈ rrdns raw /\ rdns_key e = node_key n
  | KindNetwork =>
      exists e, e ∈ rsubnets raw /\ subnet_key e = node_key n
                /\ Failover n = api.Subnet_Failover e
                /\ Gateway n = api.Subnet_Gateway e
  | KindFailover =>
      (exists e, e ∈ rsubnets raw /\ subnet_key e = node_key n
                 /\ api.Subnet_Failover e = true
                 /\ Gateway n = api.Subnet_Gateway e)
      /\ (exists f, f ∈ rfailover raw /\ failover_key f = node_key n
                    /\ Active_server_ip n = api.Failover_Active_server_ip f)
  end.

(** The list the run on [sample.full] returns. *)
Definition full_nodes : list Node :=
  Eval vm_compute in
    match getHetznerData_run sample.full with
    | Ok l => l
    | _ => []
    end.

(** ** Package [time]: printing a date *)

Module timefmt.

Fixpoint zeros (n : nat) : string :=
  match n with
  | O => ""
  | S n' => String "0" (zeros n')
  end.

(** [appendInt(b, x, width)]: the sign, then the decimal digits of [x]
    padded with zeros to [width] digits. *)
Definition appendInt (x : Z) (width : nat) : string :=
  let digits := net.uitoa (Z.abs_N x) in
  (if x <? 0 then "-" else "")
  ++ zeros (width - String.length digits) ++ digits.

(** [t.Format("2006-01-02")] *)
Definition Format_date (t : time.Time) : string :=
  appendInt (time.Year t) 4 ++ "-" ++ appendInt (time.Month t) 2
  ++ "-" ++ appendInt (time.Day t) 2.

End timefmt.

(** ** Package [main]: the flags and the output loop of [main] *)

Module cli.

(** What a step of [main] leaves: a value, or the message of
    [log.Fatalf], which ends the program. *)
Inductive outcome (A : Type) : Type :=
  | Done (a : A)
  | Fatal (msg : string).

Arguments Done {A} a.
Arguments Fatal {A} msg.

(** The values the factories of [knownFields] hand to [fmt.Fprintf]. *)
Inductive Value : Type :=
  | VInt (z : Z)
  | VBool (b : bool)
  | VString (s : string)
  | VKind (k : Kind)
  | VIP (ip : net.IP)
  | VIPNet (n : net.IPNet)
  | VMAC (m : HardwareAddr).

(** [type field struct]: a verb and the function from a node to the
    value printed with it. *)
Record field : Type := mkField {
  format : string;
  factory : Node -> Value
}.

(** The map literal [knownFields], entry by entry; [paidTimeFormat] is
    the layout of [timefmt.Format_date]. *)
Definition knownFields_entries : list (string * field) :=
  [ ("server_number", mkField "%d" (fun n => VInt (Server_number n)));
    ("kind", mkField "%s" (fun n => VKind (Kind_of n)));
    ("ip", mkField "%s" (fun n => VIP (Ip n)));
    ("subnet", mkField "%s" (fun n =>
       match Subnet n with
       | None => VString ""
       | Some sn => VIPNet sn
       end));
    ("gateway", mkField "%s" (fun n => VIP (Gateway n)));
    ("server_name", mkField "%s" (fun n => VString (Server_name n)));
    ("ptr", mkField "%s" (fun n => VString (Ptr n)));
    ("server_ip", mkField "%s" (fun n => VIP (Server_ip n)));
    ("separate_mac", mkField "%s" (fun n => VMAC (Separate_mac n)));
    ("dc", mkField "%s" (fun n => VString (Dc n)));
    ("product", mkField "%s" (fun n => VString (Product n)));
    ("status", mkField "%s" (fun n => VString (Status n)));
    ("cancelled", mkField "%t" (fun n => VBool (Cancelled n)));
    ("locked", mkField "%t" (fun n => VBool (Locked n)));
    ("paid_until", mkField "%s" (fun n =>
       VString (timefmt.Format_date (Paid_until n))));
    ("failover", mkField "%t" (fun n => VBool (Failover n)));
    ("flatrate", mkField "%t" (fun n => VBool (Flatrate n)));
    ("throttled", mkField "%t" (fun n => VBool (Throttled n)));
    ("traffic_warnings", mkField "%t" (fun n => VBool (Traffic_warnings n)));
    ("traffic", mkField "%s" (fun n => VString (Traffic n)));
    ("traffic_daily", mkField "%d" (fun n => VInt (Traffic_daily n)));
    ("traffic_hourly", mkField "%d" (fun n => VInt (Traffic_hourly n)));
    ("traffic_monthly", mkField "%d" (fun n => VInt (Traffic_monthly n)));
    ("active_server_ip", mkField "%s" (fun n => VIP (Active_server_ip n))) ].

Fixpoint lookup_entry (name : string) (entries : list (string * field))
    : option field :=
  match entries with
  | [] => None
  | (k, f) :: entries' =>
      if String.eqb name k then Some f else lookup_entry name entries'
  end.

(** [knownFields[name]] *)
Definition knownFields (name : string) : option field :=
  lookup_entry name knownFields_entries.

Definition tab : string := String "009"%char "".
Definition newline : string := String "010"%char "".

Section Main.

(** [strings.ToLower(strings.TrimSpace(name))] *)
Variable normalise : string -> string.

(** The loop of the closure [format]: the verbs of the names, or the
    exit at the first name [knownFields] does not have. *)
Fixpoint field_formats (names : list string) : outcome (list string) :=
  match names with
  | [] => Done []
  | name :: names' =>
      match knownFields (normalise name) with
      | None => Fatal ("unknown field " ++ name)
      | Some f =>
          match field_formats names' with
          | Done l => Done (format f :: l)
          | Fatal msg => Fatal msg
          end
      end
  end.

(** [format], after [if !batchMode { delimiter = "\t" }]. *)
Definition compile_format (batchMode : bool) (delimiter : string)
    (names : list string) : outcome string :=
  let delimiter := if batchMode then delimiter else tab in
  match field_formats names with
  | Done l => Done (String.concat delimiter l ++ newline)
  | Fatal msg => Fatal msg
  end.

(** The closure [args]: a name [knownFields] does not have yields the
    zero [field], whose factory is nil. *)
Fixpoint args (names : list string) (n : Node) : result (list Value) :=
  match names with
  | [] => Ok []
  | name :: names' =>
      match knownFields (normalise name) with
      | None => NilDeref
      | Some f =>
          let v := factory f n in
          l ← args names' n;
          Ok (v :: l)
      end
  end.

(** The map [kinds] after the loop over the names of [-kinds]: the keys
    it holds. *)
Fixpoint kinds (okinds : list string) (k : Kind) : bool :=
  match okinds with
  | [] => false
  | name :: okinds' =>
      (* a later assignment never removes a key *)
      match kind_of_name (normalise name) with
      | Some k' => Kind_eqb k k' || kinds okinds' k
      | None => kinds okinds' k
      end
  end.

(** The output loop: the nodes a row is printed for, in order. *)
Definition printed (okinds : list string) (nodes : list Node) : list Node :=
  List.filter (fun n => kinds okinds (Kind_of n)) nodes.

End Main.

End cli.

(** ** The older package [api]: [Client.Get] *)

Module client0.

Definition StatusOK : Z := 200.

(** The errors [Get] meets: the one of the transport and the one of the
    JSON decoder. *)
Inductive cause : Type :=
  | TransportError (msg : string)
  | DecodeError (msg : string).

(** [type RequestError struct]; the root cause may be nil. *)
Record RequestError : Type := mkRequestError {
  httpReq : string;
  httpMethod : string;
  httpStatus : string;
  rootCause : option cause
}.

(** The fields of [*http.Response] that [Get] reads. *)
Record Response : Type := mkResponse {
  StatusCode : Z;
  Status : string;
  Body : string
}.

Section Get.

Context {V : Type}.

(** [c.http.Do] on the request for a URL. *)
Variable http_Do : string -> option Response * option cause.

(** [json.NewDecoder(res.Body).Decode] followed by the unwrapping. *)
Variable decode : Response -> V + cause.

Variable baseUrl : string.


End Get.

End client0.

(** * Properties *)

(** [concrete H] evaluates the run recorded in [H : run = Ok st] and
    replaces [st] by the state computed. *)
Ltac concrete H := vm_compute in H; inversion H; subst; clear H.

(** ** Loops *)

Lemma forM_app {S A} (f : S -> A -> result S) (l1 l2 : list A) (s : S) :
  forM f (l1 ++ l2)%list s = (s' ← forM f l1 s; forM f l2 s').
Proof.
  revert s. induction l1 as [|e l1 IH]; intros s; simpl; [done|].
  destruct (f s e); simpl; auto.
Qed.

Lemma forM_cons {S A} (f : S -> A -> result S) (e : A) (l : list A) (s : S) :
  forM f (e :: l) s = (s' ← f s e; forM f l s').
Proof. reflexivity. Qed.

(** A property kept by every iteration holds when the loop ends. *)
Lemma forM_invariant {S A} (P : S -> Prop) (f : S -> A -> result S) :
  (forall s e s', P s -> f s e = Ok s' -> P s') ->
  forall l s s', P s -> forM f l s = Ok s' -> P s'.
Proof.
  intros Hstep l. induction l as [|e l IH]; intros s s' HP H; simpl in H.
  - by inversion H; subst.
  - destruct (f s e) as [s1| |] eqn:E; simpl in H; try discriminate.
    eapply IH; [|exact H]. eapply Hstep; eauto.
Qed.

Lemma bind_Ok {A B} (r : result A) (k : A -> result B) (b : B) :
  (a ← r; k a) = Ok b -> exists a, r = Ok a /\ k a = Ok b.
Proof. destruct r; simpl; intros H; try discriminate. eauto. Qed.

(** ** The heap and the table under the elementary updates *)

Lemma frame_ok_refl n : frame_ok n n.
Proof. by repeat split. Qed.

Lemma lookup_alloc_old st n p m :
  heap st !! p = Some m -> heap (alloc st n).1 !! p = Some m.
Proof. intros H. simpl. by apply lookup_app_l_Some. Qed.

Lemma lookup_alloc_new st n :
  heap (alloc st n).1 !! (alloc st n).2 = Some n.
Proof. simpl. by rewrite lookup_app_r, Nat.sub_diag. Qed.

Lemma lookup_alloc_inv st n p m :
  heap (alloc st n).1 !! p = Some m ->
  heap st !! p = Some m \/ (p = length (heap st) /\ m = n).
Proof.
  simpl. intros H. apply lookup_app_Some in H as [H|[Hle H]]; [by left|right].
  destruct (p - length (heap st))%nat as [|i] eqn:E; simpl in H.
  - inversion H; subst. split; [lia|done].
  - by destruct i.
Qed.

Lemma modify_heap st p f n :
  heap st !! p = Some n ->
  modify p f st = mkState (<[p := f n]> (heap st)) (nodes st) (subnets st).
Proof. intros H. unfold modify. by rewrite H. Qed.

Lemma modify_lookup st p f n q m :
  heap st !! p = Some n ->
  heap st !! q = Some m ->
  exists m', heap (modify p f st) !! q = Some m'
             /\ ((q = p /\ m = n /\ m' = f n) \/ (q <> p /\ m' = m)).
Proof.
  intros Hp Hq. rewrite (modify_heap _ _ _ _ Hp). simpl.
  destruct (decide (q = p)) as [->|Hne].
  - exists (f n). split.
    + apply list_lookup_insert_eq. by eapply lookup_lt_Some.
    + left. rewrite Hp in Hq. by inversion Hq.
  - exists m. split; [|by right]. by rewrite list_lookup_insert_ne.
Qed.

Lemma modify_lookup_inv st p f n q m' :
  heap st !! p = Some n ->
  heap (modify p f st) !! q = Some m' ->
  exists m, heap st !! q = Some m
            /\ ((q = p /\ m = n /\ m' = f n) \/ (q <> p /\ m' = m)).
Proof.
  intros Hp Hq. rewrite (modify_heap _ _ _ _ Hp) in Hq. simpl in Hq.
  destruct (decide (q = p)) as [->|Hne].
  - rewrite list_lookup_insert_eq in Hq by (by eapply lookup_lt_Some).
    inversion Hq; subst. exists n. split; [done|]. by left.
  - rewrite list_lookup_insert_ne in Hq by done. exists m'. split; [done|by right].
Qed.

Lemma modify_nodes st p f : nodes (modify p f st) = nodes st.
Proof. unfold modify. by destruct (heap st !! p). Qed.

Lemma modify_subnets st p f : subnets (modify p f st) = subnets st.
Proof. unfold modify. by destruct (heap st !! p). Qed.

Lemma modify_length st p f : length (heap (modify p f st)) = length (heap st).
Proof. unfold modify. destruct (heap st !! p); simpl; [apply length_insert|done]. Qed.

(** A tolerated change of one cell keeps the invariant. *)
Lemma wf_modify st p f n :
  wf st -> heap st !! p = Some n -> frame_ok n (f n) -> wf (modify p f st).
Proof.
  intros [Hkey Hhost Hnet Hsub] Hp (HIp & HSip & Hanc & HSub & HKh & HKn).
  assert (Hfr : forall q m m', heap st !! q = Some m ->
            heap (modify p f st) !! q = Some m' -> frame_ok m m').
  { intros q m m' Hq Hq'.
    destruct (modify_lookup_inv _ _ _ _ _ _ Hp Hq') as (m0 & Hm0 & Hc).
    rewrite Hq in Hm0. inversion Hm0; subst m0.
    destruct Hc as [(-> & -> & ->)|(_ & ->)]; [by repeat split|apply frame_ok_refl]. }
  assert (Hfw : forall q m, heap st !! q = Some m ->
            exists m', heap (modify p f st) !! q = Some m' /\ frame_ok m m').
  { intros q m Hq. destruct (modify_lookup _ _ f _ _ _ Hp Hq) as (m' & Hm' & _).
    exists m'. split; [done|]. by eapply Hfr. }
  assert (Hbw : forall q m', heap (modify p f st) !! q = Some m' ->
            exists m, heap st !! q = Some m /\ frame_ok m m').
  { intros q m' Hq'. destruct (modify_lookup_inv _ _ _ _ _ _ Hp Hq') as (m & Hm & _).
    exists m. split; [done|]. by eapply Hfr. }
  split.
  - intros k q Hk. rewrite modify_nodes in Hk.
    destruct (Hkey _ _ Hk) as (m & Hm & Hmk).
    destruct (Hfw _ _ Hm) as (m' & Hm' & Hf). exists m'. split; [done|].
    destruct Hf as (-> & _). done.
  - intros m' (k & q & Hk & Hq'). rewrite modify_nodes in Hk.
    destruct (Hbw _ _ Hq') as (m & Hm & Hf).
    destruct (Hhost m) as (h & hp & Hhp & Hh & HhK & Hha); [by exists k, q|].
    destruct (Hfw _ _ Hh) as (h' & Hh' & Hhf).
    exists h', hp. rewrite modify_nodes.
    destruct Hf as (_ & -> & -> & _). destruct Hhf as (_ & _ & -> & _ & HK & _).
    repeat split; auto.
  - intros m' (k & q & Hk & Hq') HK. rewrite modify_nodes in Hk.
    destruct (Hbw _ _ Hq') as (m & Hm & Hf).
    destruct Hf as (-> & _ & _ & -> & _ & HKn'). apply Hnet; [by exists k, q|auto].
  - intros sp Hsp. rewrite modify_subnets in Hsp.
    destruct (Hsub _ Hsp) as (s & sn & Hs & Hsn & Hsk).
    destruct (Hfw _ _ Hs) as (s' & Hs' & Hf). exists s', sn.
    rewrite modify_nodes. destruct Hf as (-> & _ & _ & -> & _). done.
Qed.

Lemma insert_node_st_new st n :
  nodes (insert_node_st st n) !! net.IP_String (Ip n) = Some (length (heap st))
  /\ heap (insert_node_st st n) !! length (heap st) = Some n.
Proof.
  split; simpl.
  - apply lookup_insert_eq.
  - by rewrite lookup_app_r, Nat.sub_diag.
Qed.

Lemma insert_node_st_other st n k :
  k <> net.IP_String (Ip n) ->
  nodes (insert_node_st st n) !! k = nodes st !! k.
Proof. intros H. simpl. by rewrite lookup_insert_ne. Qed.

Lemma insert_node_st_old st n p m :
  heap st !! p = Some m -> heap (insert_node_st st n) !! p = Some m.
Proof. intros H. simpl. by apply lookup_app_l_Some. Qed.

Lemma in_table_insert st n m :
  wf st ->
  nodes st !! net.IP_String (Ip n) = None ->
  in_table (insert_node_st st n) m -> m = n \/ in_table st m.
Proof.
  intros Hwf Hfree (k & p & Hk & Hp). simpl in Hk, Hp.
  destruct (decide (k = net.IP_String (Ip n))) as [->|Hne].
  - rewrite lookup_insert_eq in Hk. inversion Hk; subst p.
    rewrite lookup_app_r, Nat.sub_diag in Hp by done. simpl in Hp.
    left. by inversion Hp.
  - rewrite lookup_insert_ne in Hk by done. right. exists k, p. split; [done|].
    destruct (wf_key _ Hwf _ _ Hk) as (m0 & Hm0 & _).
    rewrite (lookup_app_l_Some _ _ _ _ Hm0) in Hp. by inversion Hp; subst.
Qed.

Lemma host_of_insert st n m h :
  nodes st !! net.IP_String (Ip n) = None ->
  host_of st m h -> host_of (insert_node_st st n) m h.
Proof.
  intros Hfree (hp & Hhp & Hh & HK & Ha). exists hp. repeat split; auto.
  - rewrite insert_node_st_other; [done|]. intros E. rewrite E in Hhp. congruence.
  - by apply insert_node_st_old.
Qed.

(** A node stored under a free key keeps the invariant when its host is
    in the table. *)
Lemma wf_insert st n :
  wf st ->
  nodes st !! net.IP_String (Ip n) = None ->
  (exists h, host_of st n h) ->
  (Kind_of n = KindNetwork -> exists mask, Subnet n = Some (net.mkIPNet (Ip n) mask)) ->
  wf (insert_node_st st n).
Proof.
  intros Hwf Hfree [h Hh] Hn. split.
  - intros k p Hk. simpl in Hk.
    destruct (decide (k = net.IP_String (Ip n))) as [->|Hne].
    + rewrite lookup_insert_eq in Hk. inversion Hk; subst p. exists n.
      split; [|done]. apply insert_node_st_new.
    + rewrite lookup_insert_ne in Hk by done.
      destruct (wf_key _ Hwf _ _ Hk) as (m & Hm & Hmk). exists m. split; [|done].
      by apply insert_node_st_old.
  - intros m Hm. destruct (in_table_insert _ _ _ Hwf Hfree Hm) as [->|Hold].
    + exists h. by apply host_of_insert.
    + destruct (wf_host _ Hwf _ Hold) as [h' Hh']. exists h'. by apply host_of_insert.
  - intros m Hm HK. destruct (in_table_insert _ _ _ Hwf Hfree Hm) as [->|Hold]; auto.
    by apply (wf_net _ Hwf).
  - intros sp Hsp. simpl in Hsp.
    destruct (wf_subnets _ Hwf _ Hsp) as (s & sn & Hs & Hsn & Hsk).
    exists s, sn. repeat split; auto.
    + by apply insert_node_st_old.
    + rewrite insert_node_st_other; [done|]. intros E. rewrite E in Hsk. congruence.
Qed.

Lemma wf_push_subnet st n sn :
  wf st ->
  nodes st !! net.IP_String (Ip n) = None ->
  (exists h, host_of st n h) ->
  Subnet n = Some sn ->
  (Kind_of n = KindNetwork -> exists mask, Subnet n = Some (net.mkIPNet (Ip n) mask)) ->
  wf (push_subnet (length (heap st)) (insert_node_st st n)).
Proof.
  intros Hwf Hfree Hh Hsn Hn.
  pose proof (wf_insert _ _ Hwf Hfree Hh Hn) as [Hk Hho Hne Hsu].
  split; auto.
  intros sp Hsp. simpl in Hsp. apply elem_of_app in Hsp as [Hsp|Hsp].
  - by apply Hsu.
  - apply list_elem_of_singleton in Hsp as ->. exists n, sn.
    destruct (insert_node_st_new st n) as [H1 H2]. by repeat split.
Qed.

(** *** The host pass *)

Lemma hosts_only_empty : hosts_only empty_state.
Proof. split; [done|]. intros k p H. simpl in H. by rewrite lookup_empty in H. Qed.

Lemma host_step_total st e : host_step st e = Ok (insert_node_st st (host_node e)).
Proof. reflexivity. Qed.

Lemma hosts_only_step st e st' :
  hosts_only st -> host_step st e = Ok st' -> hosts_only st'.
Proof.
  intros [Hs Hk] H. rewrite host_step_total in H. inversion H; subst st'. clear H.
  split; [done|]. intros k p Hkp. simpl in Hkp.
  destruct (decide (k = net.IP_String (api.Server_ip e))) as [->|Hne].
  - rewrite lookup_insert_eq in Hkp. inversion Hkp; subst p.
    exists (host_node e). split; [apply insert_node_st_new|done].
  - rewrite lookup_insert_ne in Hkp by done.
    destruct (Hk _ _ Hkp) as (n & Hn & Hrest). exists n. split; [|done].
    by apply insert_node_st_old.
Qed.

Lemma hosts_only_pass l st st' :
  hosts_only st -> host_pass l st = Ok st' -> hosts_only st'.
Proof. apply forM_invariant. intros. by eapply hosts_only_step. Qed.

Lemma host_pass_total l st : exists st', host_pass l st = Ok st'.
Proof.
  revert st. induction l as [|e l IH]; intros st; [by eexists|].
  unfold host_pass. simpl. apply IH.
Qed.

Lemma hosts_only_wf st : hosts_only st -> wf st.
Proof.
  intros [Hs Hk]. split.
  - intros k p Hkp. destruct (Hk _ _ Hkp) as (n & Hn & Hnk & _). by exists n.
  - intros n (k & p & Hkp & Hp). destruct (Hk _ _ Hkp) as (n' & Hn & Hnk & HK & HS & _).
    rewrite Hp in Hn. inversion Hn; subst n'. exists n, p.
    rewrite HS, Hnk. by repeat split.
  - intros n (k & p & Hkp & Hp) HK. destruct (Hk _ _ Hkp) as (n' & Hn & _ & HK' & _).
    rewrite Hp in Hn. inversion Hn; subst n'. congruence.
  - intros sp Hsp. rewrite Hs in Hsp. by apply elem_of_nil in Hsp.
Qed.

(** *** The IP pass *)

Lemma frame_ok_ip_fields e n : frame_ok n (ip_fields e n).
Proof. by repeat split. Qed.

Lemma frame_ok_set_Ptr v n : frame_ok n (set_Ptr v n).
Proof. by repeat split. Qed.

Lemma deref_Some st p n : heap st !! p = Some n -> deref st p = Ok n.
Proof. intros H. unfold deref. by rewrite H. Qed.

Lemma ip_step_found st e p n :
  nodes st !! net.IP_String (api.Ip_Ip e) = Some p ->
  heap st !! p = Some n ->
  ip_step st e = Ok (modify p (ip_fields e) st).
Proof.
  intros Hk Hp. unfold ip_step, api.IP_String. rewrite Hk. simpl.
  by rewrite (deref_Some _ _ _ Hp).
Qed.

Lemma ip_step_new st e hp host :
  nodes st !! net.IP_String (api.Ip_Ip e) = None ->
  nodes st !! net.IP_String (api.Ip_Server_ip e) = Some hp ->
  heap st !! hp = Some host ->
  net.Equal (Ip host) (api.Ip_Ip e) = false ->
  ip_step st e =
    Ok (modify (length (heap st)) (ip_fields e)
          (insert_node_st st (management_node e host))).
Proof.
  intros Hk Ho Hh HE. unfold ip_step, api.IP_String. rewrite Hk, Ho.
  rewrite (deref_Some _ _ _ Hh). simpl. rewrite HE. simpl.
  by rewrite (deref_Some _ _ _ (proj2 (insert_node_st_new st _))).
Qed.

Lemma ip_step_same st e hp host :
  nodes st !! net.IP_String (api.Ip_Ip e) = None ->
  nodes st !! net.IP_String (api.Ip_Server_ip e) = Some hp ->
  heap st !! hp = Some host ->
  net.Equal (Ip host) (api.Ip_Ip e) = true ->
  ip_step st e = Ok (modify hp (ip_fields e) st).
Proof.
  intros Hk Ho Hh HE. unfold ip_step, api.IP_String. rewrite Hk, Ho.
  rewrite (deref_Some _ _ _ Hh). simpl. rewrite HE. simpl.
  by rewrite (deref_Some _ _ _ Hh).
Qed.

Lemma ip_step_no_host st e :
  nodes st !! net.IP_String (api.Ip_Ip e) = None ->
  nodes st !! net.IP_String (api.Ip_Server_ip e) = None ->
  ip_step st e = Panic ("no host found for " ++ net.IP_String (api.Ip_Ip e)).
Proof. intros Hk Ho. unfold ip_step, api.IP_String. by rewrite Hk, Ho. Qed.

(** A clone with another address and kind has the host of the original. *)
Lemma host_of_clone st m n h :
  Server_ip n = Server_ip m -> ancestry n = ancestry m ->
  host_of st m h -> host_of st n h.
Proof.
  intros HS HA (hp & Hhp & Hh & HK & Ha). exists hp.
  rewrite HS, HA. by repeat split.
Qed.

Lemma wf_ip_step st e st' : wf st -> ip_step st e = Ok st' -> wf st'.
Proof.
  intros Hwf H.
  destruct (nodes st !! net.IP_String (api.Ip_Ip e)) as [p|] eqn:Hk.
  - destruct (wf_key _ Hwf _ _ Hk) as (n & Hn & _).
    rewrite (ip_step_found _ _ _ _ Hk Hn) in H. inversion H; subst st'.
    eapply wf_modify; eauto using frame_ok_ip_fields.
  - destruct (nodes st !! net.IP_String (api.Ip_Server_ip e)) as [hp|] eqn:Ho.
    2:{ rewrite (ip_step_no_host _ _ Hk Ho) in H. discriminate. }
    destruct (wf_key _ Hwf _ _ Ho) as (host & Hh & _).
    destruct (net.Equal (Ip host) (api.Ip_Ip e)) eqn:HE.
    + rewrite (ip_step_same _ _ _ _ Hk Ho Hh HE) in H. inversion H; subst st'.
      eapply wf_modify; eauto using frame_ok_ip_fields.
    + rewrite (ip_step_new _ _ _ _ Hk Ho Hh HE) in H. inversion H; subst st'.
      eapply wf_modify; [| |apply frame_ok_ip_fields].
      * apply wf_insert; auto.
        -- destruct (wf_host _ Hwf host) as [h Hho]; [by eexists _, hp|].
           exists h. by eapply host_of_clone; [| |exact Hho].
        -- discriminate.
      * apply insert_node_st_new.
Qed.

Lemma wf_ip_pass l st st' : wf st -> ip_pass l st = Ok st' -> wf st'.
Proof. apply forM_invariant. intros. by eapply wf_ip_step. Qed.

(** *** The subnet pass *)

Lemma subnet_step_conflict st e p :
  nodes st !! net.IP_String (api.Subnet_Ip e) = Some p ->
  subnet_step st e =
    Panic ("subnet conflicted with node " ++ net.IP_String (api.Subnet_Ip e)).
Proof. intros Hk. unfold subnet_step, api.IP_String. by rewrite Hk. Qed.

Lemma subnet_step_no_owner st e :
  nodes st !! net.IP_String (api.Subnet_Ip e) = None ->
  nodes st !! net.IP_String (api.Subnet_Server_ip e) = None ->
  subnet_step st e = NilDeref.
Proof. intros Hk Ho. unfold subnet_step, api.IP_String. by rewrite Hk, Ho. Qed.

Lemma subnet_step_new st e sp server :
  nodes st !! net.IP_String (api.Subnet_Ip e) = None ->
  nodes st !! net.IP_String (api.Subnet_Server_ip e) = Some sp ->
  heap st !! sp = Some server ->
  subnet_step st e =
    Ok (push_subnet (length (heap st)) (insert_node_st st (subnet_node e server))).
Proof.
  intros Hk Ho Hs. unfold subnet_step, api.IP_String. rewrite Hk, Ho.
  by rewrite (deref_Some _ _ _ Hs).
Qed.

Lemma subnet_node_Ip e server : Ip (subnet_node e server) = api.Subnet_Ip e.
Proof. reflexivity. Qed.

Lemma wf_subnet_step st e st' : wf st -> subnet_step st e = Ok st' -> wf st'.
Proof.
  intros Hwf H.
  destruct (nodes st !! net.IP_String (api.Subnet_Ip e)) as [p|] eqn:Hk.
  { rewrite (subnet_step_conflict _ _ _ Hk) in H. discriminate. }
  destruct (nodes st !! net.IP_String (api.Subnet_Server_ip e)) as [sp|] eqn:Ho.
  2:{ rewrite (subnet_step_no_owner _ _ Hk Ho) in H. discriminate. }
  destruct (wf_key _ Hwf _ _ Ho) as (server & Hs & _).
  rewrite (subnet_step_new _ _ _ _ Hk Ho Hs) in H. inversion H; subst st'.
  eapply wf_push_subnet; auto.
  - destruct (wf_host _ Hwf server) as [h Hho]; [by eexists _, sp|].
    exists h. by eapply host_of_clone; [| |exact Hho].
  - intros _. eexists. reflexivity.
Qed.

Lemma wf_subnet_pass l st st' : wf st -> subnet_pass l st = Ok st' -> wf st'.
Proof. apply forM_invariant. intros. by eapply wf_subnet_step. Qed.

(** *** The RDNS pass *)

Lemma scan_subnets_miss st ip ptr ss1 ss2 :
  Forall (subnet_misses st ip) ss1 ->
  scan_subnets st ip ptr (ss1 ++ ss2)%list = scan_subnets st ip ptr ss2.
Proof.
  induction 1 as [|q ss1 (s & sn & Hs & Hsn & Hc) _ IH]; [done|].
  simpl. rewrite (deref_Some _ _ _ Hs). simpl. rewrite Hsn. simpl.
  rewrite Hc. exact IH.
Qed.

Lemma scan_subnets_hit st ip ptr sp ss s sn hp host :
  heap st !! sp = Some s -> Subnet s = Some sn ->
  net.Contains sn ip = true ->
  nodes st !! net.IP_String (Server_ip s) = Some hp ->
  heap st !! hp = Some host ->
  scan_subnets st ip ptr (sp :: ss) =
    Ok (insert_node_st st (virtual_node ip ptr host)).
Proof.
  intros Hs Hsn Hc Hhp Hh. simpl. rewrite (deref_Some _ _ _ Hs). simpl.
  rewrite Hsn. simpl. rewrite Hc, Hhp. by rewrite (deref_Some _ _ _ Hh).
Qed.

Lemma scan_subnets_none st ip ptr ss :
  Forall (subnet_misses st ip) ss ->
  scan_subnets st ip ptr ss = Panic (loosen_msg ip ptr).
Proof.
  intros H. rewrite <- (app_nil_r ss). by rewrite scan_subnets_miss.
Qed.

Lemma subnet_contains_misses st ip sp :
  wf st -> sp ∈ subnets st ->
  subnet_contains st ip sp = false -> subnet_misses st ip sp.
Proof.
  intros Hwf Hsp Hc. destruct (wf_subnets _ Hwf _ Hsp) as (s & sn & Hs & Hsn & _).
  unfold subnet_contains in Hc. rewrite Hs, Hsn in Hc. by exists s, sn.
Qed.

Lemma rdns_step_found st e p n :
  nodes st !! net.IP_String (api.Rdns_Ip e) = Some p ->
  heap st !! p = Some n ->
  rdns_step st e = Ok (modify p (set_Ptr (api.Rdns_Ptr e)) st).
Proof.
  intros Hk Hp. unfold rdns_step. rewrite Hk. by rewrite (deref_Some _ _ _ Hp).
Qed.

Lemma rdns_step_scan st e :
  nodes st !! net.IP_String (api.Rdns_Ip e) = None ->
  rdns_step st e = scan_subnets st (api.Rdns_Ip e) (api.Rdns_Ptr e) (subnets st).
Proof. intros Hk. unfold rdns_step. by rewrite Hk. Qed.

Lemma wf_scan_subnets st ip ptr ss st' :
  wf st -> nodes st !! net.IP_String ip = None ->
  (forall sp, sp ∈ ss -> sp ∈ subnets st) ->
  scan_subnets st ip ptr ss = Ok st' -> wf st'.
Proof.
  intros Hwf Hk. induction ss as [|sp ss IH]; intros Hin H; [discriminate|].
  destruct (wf_subnets _ Hwf sp) as (s & sn & Hs & Hsn & Hsk); [apply Hin; left|].
  destruct (net.Contains sn ip) eqn:Hc.
  - destruct (wf_host _ Hwf s) as (h & hp & Hhp & Hh & HK & Ha); [by eexists _, sp|].
    rewrite (scan_subnets_hit _ _ _ _ _ _ _ _ _ Hs Hsn Hc Hhp Hh) in H.
    inversion H; subst st'. apply wf_insert; auto; [|discriminate].
    destruct (wf_host _ Hwf h) as [h2 Hh2]; [by eexists _, hp|].
    exists h2. by eapply host_of_clone; [| |exact Hh2].
  - apply IH; [intros q Hq; apply Hin; by right|].
    simpl in H. rewrite (deref_Some _ _ _ Hs) in H. simpl in H.
    rewrite Hsn in H. simpl in H. by rewrite Hc in H.
Qed.

Lemma wf_rdns_step st e st' : wf st -> rdns_step st e = Ok st' -> wf st'.
Proof.
  intros Hwf H.
  destruct (nodes st !! net.IP_String (api.Rdns_Ip e)) as [p|] eqn:Hk.
  - destruct (wf_key _ Hwf _ _ Hk) as (n & Hn & _).
    rewrite (rdns_step_found _ _ _ _ Hk Hn) in H. inversion H; subst st'.
    eapply wf_modify; eauto using frame_ok_set_Ptr.
  - rewrite (rdns_step_scan _ _ Hk) in H.
    eapply wf_scan_subnets; eauto.
Qed.

Lemma wf_rdns_pass l st st' : wf st -> rdns_pass l st = Ok st' -> wf st'.
Proof. apply forM_invariant. intros. by eapply wf_rdns_step. Qed.

(** *** The failover pass *)

Lemma failover_step_missing st e :
  nodes st !! net.IP_String (api.Failover_Ip e) = None ->
  failover_step st e = Panic (failover_msg e).
Proof. intros Hk. unfold failover_step, api.IP_String. by rewrite Hk. Qed.

Lemma failover_step_wrong st e p n :
  nodes st !! net.IP_String (api.Failover_Ip e) = Some p ->
  heap st !! p = Some n ->
  ~ (Kind_of n = KindNetwork /\ Failover n = true) ->
  failover_step st e = Panic (failover_msg e).
Proof.
  intros Hk Hp Hn. unfold failover_step, api.IP_String. rewrite Hk.
  rewrite (deref_Some _ _ _ Hp). simpl.
  destruct (Kind_of n) eqn:HK; simpl; try done.
  destruct (Failover n); simpl; [|done]. by destruct Hn.
Qed.

Lemma failover_step_ok st e p n :
  nodes st !! net.IP_String (api.Failover_Ip e) = Some p ->
  heap st !! p = Some n ->
  Kind_of n = KindNetwork -> Failover n = true ->
  failover_step st e = Ok (modify p (failover_fields e) st).
Proof.
  intros Hk Hp HK HF. unfold failover_step, api.IP_String. rewrite Hk.
  rewrite (deref_Some _ _ _ Hp). simpl. by rewrite HK, HF.
Qed.

Lemma wf_failover_step st e st' : wf st -> failover_step st e = Ok st' -> wf st'.
Proof.
  intros Hwf H.
  destruct (nodes st !! net.IP_String (api.Failover_Ip e)) as [p|] eqn:Hk.
  2:{ rewrite (failover_step_missing _ _ Hk) in H. discriminate. }
  destruct (wf_key _ Hwf _ _ Hk) as (n & Hn & _).
  destruct (decide (Kind_of n = KindNetwork /\ Failover n = true)) as [[HK HF]|Hno].
  - rewrite (failover_step_ok _ _ _ _ Hk Hn HK HF) in H. inversion H; subst st'.
    eapply wf_modify; eauto. repeat split; simpl; auto; congruence.
  - rewrite (failover_step_wrong _ _ _ _ Hk Hn Hno) in H. discriminate.
Qed.

Lemma wf_failover_pass l st st' : wf st -> failover_pass l st = Ok st' -> wf st'.
Proof. apply forM_invariant. intros. by eapply wf_failover_step. Qed.

(** *** The invariant at every point of [build_nodes] *)

Lemma wf_reach_ip raw pre st : reach_ip raw pre = Ok st -> wf st.
Proof.
  unfold reach_ip. intros H. apply bind_Ok in H as (st1 & H1 & H2).
  eapply wf_ip_pass; [|exact H2]. apply hosts_only_wf.
  eapply hosts_only_pass; [apply hosts_only_empty|exact H1].
Qed.

Lemma wf_reach_subnet raw pre st : reach_subnet raw pre = Ok st -> wf st.
Proof.
  unfold reach_subnet. intros H. apply bind_Ok in H as (st1 & H1 & H2).
  eapply wf_subnet_pass; [|exact H2]. by eapply wf_reach_ip.
Qed.

Lemma wf_reach_rdns raw pre st : reach_rdns raw pre = Ok st -> wf st.
Proof.
  unfold reach_rdns. intros H. apply bind_Ok in H as (st1 & H1 & H2).
  eapply wf_rdns_pass; [|exact H2]. by eapply wf_reach_subnet.
Qed.

Lemma wf_reach_failover raw pre st : reach_failover raw pre = Ok st -> wf st.
Proof.
  unfold reach_failover. intros H. apply bind_Ok in H as (st1 & H1 & H2).
  eapply wf_failover_pass; [|exact H2]. by eapply wf_reach_rdns.
Qed.

Lemma bind_Ok_l {A B} (a : A) (k : A -> result B) : (x ← Ok a; k x) = k a.
Proof. reflexivity. Qed.

Lemma bind_assoc {A B C} (r : result A) (f : A -> result B) (g : B -> result C) :
  (b ← (a ← r; f a); g b) = (a ← r; b ← f a; g b).
Proof. by destruct r. Qed.

Lemma build_nodes_reach raw : build_nodes raw = reach_failover raw (rfailover raw).
Proof.
  unfold build_nodes, reach_failover, reach_rdns, reach_subnet, reach_ip.
  by rewrite !bind_assoc.
Qed.

Lemma wf_build_nodes raw st : build_nodes raw = Ok st -> wf st.
Proof. rewrite build_nodes_reach. apply wf_reach_failover. Qed.

(** ** The returned list *)

Lemma elem_of_table_nodes st n : n ∈ table_nodes st <-> in_table st n.
Proof.
  unfold table_nodes, in_table. rewrite list_elem_of_omap. split.
  - intros ([k p] & Hin & Hp). apply elem_of_map_to_list in Hin. by exists k, p.
  - intros (k & p & Hk & Hp). exists (k, p). split; [|done].
    by apply elem_of_map_to_list.
Qed.

(** Under the invariant the keys of the returned nodes are the keys of
    the table, each once. *)
Lemma table_nodes_keys st :
  wf st -> map node_key (table_nodes st) = (map_to_list (nodes st)).*1.
Proof.
  intros Hwf. unfold table_nodes.
  assert (H : forall kp, kp ∈ map_to_list (nodes st) ->
            exists n, heap st !! kp.2 = Some n /\ node_key n = kp.1).
  { intros [k p] Hin. apply elem_of_map_to_list in Hin.
    destruct (wf_key _ Hwf _ _ Hin) as (n & Hn & Hk). by exists n. }
  induction (map_to_list (nodes st)) as [|kp l IH]; [done|].
  destruct (H kp) as (n & Hn & Hk); [left|]. simpl. rewrite Hn. simpl.
  rewrite Hk. f_equal. apply IH. intros kp' Hin. apply H. by right.
Qed.

Lemma table_nodes_NoDup_keys st : wf st -> NoDup (map node_key (table_nodes st)).
Proof. intros Hwf. rewrite table_nodes_keys by done. apply NoDup_fst_map_to_list. Qed.

Lemma getHetznerData_elem raw l :
  getHetznerData raw l ->
  exists st, build_nodes raw = Ok st /\ wf st /\ Permutation (table_nodes st) l
             /\ sorted l /\ forall n, n ∈ l <-> in_table st n.
Proof.
  intros (st & Hb & Hp & Hs). exists st.
  split; [done|]. split; [by eapply wf_build_nodes|].
  split; [done|]. split; [done|].
  intros n. rewrite <- Hp. apply elem_of_table_nodes.
Qed.

(** *** Insertion sort meets the contract of [sort.Sort] *)

Lemma Less_irrefl a : Less a a = false.
Proof. unfold Less. rewrite Z.eqb_refl. apply Z.ltb_irrefl. Qed.

Lemma Less_spec a b : Less a b = true <-> lex_lt (sort_key a) (sort_key b).
Proof.
  unfold Less, lex_lt, sort_key. simpl.
  destruct (Z.eqb_spec (Server_number a) (Server_number b)) as [E|E].
  - rewrite Z.ltb_lt. lia.
  - rewrite Z.ltb_lt. lia.
Qed.

Lemma Less_false_spec a b : Less b a = false <-> lex_le (sort_key a) (sort_key b).
Proof.
  unfold Less, lex_le, sort_key. simpl.
  destruct (Z.eqb_spec (Server_number b) (Server_number a)) as [E|E].
  - rewrite Z.ltb_ge. lia.
  - rewrite Z.ltb_ge. lia.
Qed.

Lemma insert_node_perm a l : Permutation (a :: l) (insert_node a l).
Proof.
  induction l as [|b l IH]; simpl; [done|].
  destruct (Less b a); [|done]. rewrite perm_swap. by constructor.
Qed.

Lemma insertion_sort_perm l : Permutation l (insertion_sort l).
Proof.
  induction l as [|a l IH]; simpl; [done|].
  rewrite <- insert_node_perm. by constructor.
Qed.

Lemma insert_node_sorted a l : sorted l -> sorted (insert_node a l).
Proof.
  unfold sorted. induction 1 as [|b l Hs IH Hb]; simpl.
  - repeat constructor.
  - destruct (Less b a) eqn:E.
    + constructor; [exact IH|].
      rewrite <- insert_node_perm. constructor; [|exact Hb].
      apply Less_false_spec. apply Less_spec in E.
      unfold lex_lt, lex_le in *. lia.
    + constructor; [by constructor|]. constructor; [exact E|].
      eapply Forall_impl; [exact Hb|]. intros c Hc. simpl in Hc.
      apply Less_false_spec. apply Less_false_spec in Hc.
      apply Less_false_spec in E. unfold lex_le in *. lia.
Qed.

Lemma insertion_sort_sorted l : sorted (insertion_sort l).
Proof.
  induction l as [|a l IH]; simpl; [constructor|]. by apply insert_node_sorted.
Qed.

Lemma insertion_sort_sorts l : sort_Sort l (insertion_sort l).
Proof. split; [apply insertion_sort_perm|apply insertion_sort_sorted]. Qed.

(** A sorted list is left as it is. *)
Lemma insertion_sort_fixed l : sorted l -> insertion_sort l = l.
Proof.
  unfold sorted. induction 1 as [|a l Hs IH Ha]; simpl; [done|].
  rewrite IH. destruct l as [|b l]; [done|]. simpl.
  apply Forall_cons in Ha as [Hab _]. by rewrite Hab.
Qed.

(** The executable instance returns a list the function may return, and
    the function returns a list whenever the passes succeed. *)
Lemma getHetznerData_run_sound raw l :
  getHetznerData_run raw = Ok l -> getHetznerData raw l.
Proof.
  unfold getHetznerData_run. intros H. apply bind_Ok in H as (st & Hb & H).
  inversion H; subst l. exists st. split; [done|]. apply insertion_sort_sorts.
Qed.

(** ** Cells keep their ancestry *)

Lemma frame_ok_trans a b c : frame_ok a b -> frame_ok b c -> frame_ok a c.
Proof.
  intros (H1 & H2 & H3 & H4 & H5 & H6) (G1 & G2 & G3 & G4 & G5 & G6).
  repeat split; try congruence; auto.
Qed.

Lemma preserved_refl st : preserved st st.
Proof. intros p n H. exists n. split; [done|apply frame_ok_refl]. Qed.

Lemma preserved_trans a b c : preserved a b -> preserved b c -> preserved a c.
Proof.
  intros H1 H2 p n Hp. destruct (H1 _ _ Hp) as (n1 & Hn1 & F1).
  destruct (H2 _ _ Hn1) as (n2 & Hn2 & F2). exists n2. split; [done|].
  by eapply frame_ok_trans.
Qed.

Lemma preserved_insert st n : preserved st (insert_node_st st n).
Proof.
  intros p m Hp. exists m. split; [by apply insert_node_st_old|apply frame_ok_refl].
Qed.

Lemma preserved_push st p : preserved st (push_subnet p st).
Proof. intros q m Hq. exists m. split; [done|apply frame_ok_refl]. Qed.

Lemma preserved_modify st p f :
  (forall n, heap st !! p = Some n -> frame_ok n (f n)) ->
  preserved st (modify p f st).
Proof.
  intros Hf q m Hq. destruct (heap st !! p) as [n|] eqn:Hp.
  - destruct (modify_lookup _ _ f _ _ _ Hp Hq) as (m' & Hm' & Hc).
    exists m'. split; [done|].
    destruct Hc as [(-> & -> & ->)|(_ & ->)]; [by apply Hf|apply frame_ok_refl].
  - exists m. unfold modify. rewrite Hp. split; [done|apply frame_ok_refl].
Qed.

Lemma preserved_host_step st e st' : host_step st e = Ok st' -> preserved st st'.
Proof. intros H. inversion H. apply preserved_insert. Qed.

Lemma preserved_ip_step st e st' : wf st -> ip_step st e = Ok st' -> preserved st st'.
Proof.
  intros Hwf H.
  destruct (nodes st !! net.IP_String (api.Ip_Ip e)) as [p|] eqn:Hk.
  - destruct (wf_key _ Hwf _ _ Hk) as (n & Hn & _).
    rewrite (ip_step_found _ _ _ _ Hk Hn) in H. inversion H.
    apply preserved_modify. intros; apply frame_ok_ip_fields.
  - destruct (nodes st !! net.IP_String (api.Ip_Server_ip e)) as [hp|] eqn:Ho.
    2:{ rewrite (ip_step_no_host _ _ Hk Ho) in H. discriminate. }
    destruct (wf_key _ Hwf _ _ Ho) as (host & Hh & _).
    destruct (net.Equal (Ip host) (api.Ip_Ip e)) eqn:HE.
    + rewrite (ip_step_same _ _ _ _ Hk Ho Hh HE) in H. inversion H.
      apply preserved_modify. intros; apply frame_ok_ip_fields.
    + rewrite (ip_step_new _ _ _ _ Hk Ho Hh HE) in H. inversion H.
      eapply preserved_trans; [apply preserved_insert|].
      apply preserved_modify. intros; apply frame_ok_ip_fields.
Qed.

Lemma preserved_subnet_step st e st' :
  wf st -> subnet_step st e = Ok st' -> preserved st st'.
Proof.
  intros Hwf H.
  destruct (nodes st !! net.IP_String (api.Subnet_Ip e)) as [p|] eqn:Hk.
  { rewrite (subnet_step_conflict _ _ _ Hk) in H. discriminate. }
  destruct (nodes st !! net.IP_String (api.Subnet_Server_ip e)) as [sp|] eqn:Ho.
  2:{ rewrite (subnet_step_no_owner _ _ Hk Ho) in H. discriminate. }
  destruct (wf_key _ Hwf _ _ Ho) as (server & Hs & _).
  rewrite (subnet_step_new _ _ _ _ Hk Ho Hs) in H. inversion H.
  eapply preserved_trans; [apply preserved_insert|apply preserved_push].
Qed.

Lemma scan_subnets_result st ip ptr ss st' :
  scan_subnets st ip ptr ss = Ok st' ->
  exists host, st' = insert_node_st st (virtual_node ip ptr host).
Proof.
  induction ss as [|sp ss IH]; intros H; [discriminate|]. simpl in H.
  destruct (deref st sp) as [s| |]; simpl in H; try discriminate.
  destruct (Subnet s) as [sn|]; simpl in H; try discriminate.
  destruct (net.Contains sn ip); [|by apply IH].
  destruct (nodes st !! net.IP_String (Server_ip s)) as [hp|]; simpl in H; try discriminate.
  destruct (deref st hp) as [host| |]; simpl in H; try discriminate.
  exists host. by inversion H.
Qed.

Lemma preserved_rdns_step st e st' : rdns_step st e = Ok st' -> preserved st st'.
Proof.
  unfold rdns_step. intros H.
  destruct (nodes st !! net.IP_String (api.Rdns_Ip e)) as [p|] eqn:Hk.
  - destruct (deref st p); simpl in H; try discriminate. inversion H.
    apply preserved_modify. intros; apply frame_ok_set_Ptr.
  - apply scan_subnets_result in H as [host ->]. apply preserved_insert.
Qed.

Lemma preserved_failover_step st e st' :
  failover_step st e = Ok st' -> preserved st st'.
Proof.
  unfold failover_step. intros H.
  destruct (nodes st !! api.IP_String (api.Failover_Ip e)) as [p|]; [|discriminate].
  unfold deref in H. destruct (heap st !! p) as [n|] eqn:Hp; simpl in H; [|discriminate].
  destruct (Kind_of n) eqn:HK; simpl in H; try discriminate.
  destruct (Failover n); simpl in H; try discriminate. inversion H.
  apply preserved_modify. intros n' Hn'. rewrite Hp in Hn'. inversion Hn'; subst n'.
  repeat split; simpl; auto; congruence.
Qed.

Lemma preserved_pass {A} (f : state -> A -> result state) (P : state -> Prop) :
  (forall s e s', P s -> f s e = Ok s' -> P s' /\ preserved s s') ->
  forall l s s', P s -> forM f l s = Ok s' -> preserved s s'.
Proof.
  intros Hstep l. induction l as [|e l IH]; intros s s' HP H; simpl in H.
  - inversion H. apply preserved_refl.
  - destruct (f s e) as [s1| |] eqn:E; simpl in H; try discriminate.
    destruct (Hstep _ _ _ HP E) as [HP1 H1].
    eapply preserved_trans; [exact H1|]. by eapply IH.
Qed.

(** From the moment the table holds a cell to the end of the passes, the
    cell keeps its ancestry. *)
Lemma ancestry_stable_ip l st st' :
  wf st -> ip_pass l st = Ok st' -> preserved st st'.
Proof.
  apply (preserved_pass ip_step wf). intros s e s' Hs H.
  split; [by eapply wf_ip_step|by eapply preserved_ip_step].
Qed.

Lemma ancestry_stable_subnet l st st' :
  wf st -> subnet_pass l st = Ok st' -> preserved st st'.
Proof.
  apply (preserved_pass subnet_step wf). intros s e s' Hs H.
  split; [by eapply wf_subnet_step|by eapply preserved_subnet_step].
Qed.

Lemma ancestry_stable_rdns l st st' :
  wf st -> rdns_pass l st = Ok st' -> preserved st st'.
Proof.
  apply (preserved_pass rdns_step wf). intros s e s' Hs H.
  split; [by eapply wf_rdns_step|by eapply preserved_rdns_step].
Qed.

Lemma ancestry_stable_failover l st st' :
  wf st -> failover_pass l st = Ok st' -> preserved st st'.
Proof.
  apply (preserved_pass failover_step wf). intros s e s' Hs H.
  split; [by eapply wf_failover_step|by eapply preserved_failover_step].
Qed.

(** *** From any point of the run to its end *)

Lemma forM_split {S A} (f : S -> A -> result S) pre post s sf :
  forM f (pre ++ post)%list s = Ok sf ->
  exists st, forM f pre s = Ok st /\ forM f post st = Ok sf.
Proof. rewrite forM_app. apply bind_Ok. Qed.

Lemma forM_resume {S A} (f : S -> A -> result S) pre post s st sf :
  forM f (pre ++ post)%list s = Ok sf -> forM f pre s = Ok st ->
  forM f post st = Ok sf.
Proof.
  intros H Hpre. apply forM_split in H as (st' & H1 & H2).
  rewrite Hpre in H1. by inversion H1; subst.
Qed.

Lemma build_nodes_Ok raw stf :
  build_nodes raw = Ok stf ->
  exists s1 s2 s3 s4,
    host_pass (rservers raw) empty_state = Ok s1
    /\ ip_pass (rips raw) s1 = Ok s2
    /\ subnet_pass (rsubnets raw) s2 = Ok s3
    /\ rdns_pass (rrdns raw) s3 = Ok s4
    /\ failover_pass (rfailover raw) s4 = Ok stf.
Proof.
  unfold build_nodes. intros H.
  apply bind_Ok in H as (s1 & H1 & H). apply bind_Ok in H as (s2 & H2 & H).
  apply bind_Ok in H as (s3 & H3 & H). apply bind_Ok in H as (s4 & H4 & H).
  by exists s1, s2, s3, s4.
Qed.

Lemma ancestry_stable_host l st st' : host_pass l st = Ok st' -> preserved st st'.
Proof.
  apply (preserved_pass host_step (fun _ => True)); [|done].
  intros s e s' _ H. split; [done|by eapply preserved_host_step].
Qed.

(** A cell met at any point of a run is still there when the run ends,
    with the ancestry it had. *)
Lemma reached_preserved raw st stf :
  reached raw st -> build_nodes raw = Ok stf -> preserved st stf.
Proof.
  intros Hreach Hb.
  destruct (build_nodes_Ok _ _ Hb) as (s1 & s2 & s3 & s4 & H1 & H2 & H3 & H4 & H5).
  assert (W1 : wf s1).
  { apply hosts_only_wf. eapply hosts_only_pass; [apply hosts_only_empty|exact H1]. }
  assert (W2 : wf s2) by (by eapply wf_ip_pass).
  assert (W3 : wf s3) by (by eapply wf_subnet_pass).
  assert (W4 : wf s4) by (by eapply wf_rdns_pass).
  pose proof (ancestry_stable_ip _ _ _ W1 H2) as P12.
  pose proof (ancestry_stable_subnet _ _ _ W2 H3) as P23.
  pose proof (ancestry_stable_rdns _ _ _ W3 H4) as P34.
  pose proof (ancestry_stable_failover _ _ _ W4 H5) as P45.
  assert (R2 : reach_ip raw (rips raw) = Ok s2).
  { unfold reach_ip. by rewrite H1. }
  assert (R3 : reach_subnet raw (rsubnets raw) = Ok s3).
  { unfold reach_subnet. by rewrite R2. }
  assert (R4 : reach_rdns raw (rrdns raw) = Ok s4).
  { unfold reach_rdns. by rewrite R3. }
  destruct Hreach as [(pre & post & Hl & Hr)|[(pre & post & Hl & Hr)
    |[(pre & post & Hl & Hr)|[(pre & post & Hl & Hr)|(pre & post & Hl & Hr)]]]].
  - rewrite Hl in H1. unfold host_pass in *.
    pose proof (forM_resume _ _ _ _ _ _ H1 Hr) as Hpost.
    pose proof (ancestry_stable_host _ _ _ Hpost) as P.
    repeat (eapply preserved_trans; [eassumption|]). apply preserved_refl.
  - pose proof (wf_reach_ip _ _ _ Hr) as W.
    unfold reach_ip in Hr. rewrite H1 in Hr. simpl in Hr.
    rewrite Hl in H2. unfold ip_pass in *.
    pose proof (forM_resume _ _ _ _ _ _ H2 Hr) as Hpost.
    pose proof (ancestry_stable_ip _ _ _ W Hpost) as P.
    eapply preserved_trans; [exact P|].
    repeat (eapply preserved_trans; [eassumption|]). apply preserved_refl.
  - pose proof (wf_reach_subnet _ _ _ Hr) as W.
    unfold reach_subnet in Hr. rewrite R2 in Hr. simpl in Hr.
    rewrite Hl in H3. unfold subnet_pass in *.
    pose proof (forM_resume _ _ _ _ _ _ H3 Hr) as Hpost.
    pose proof (ancestry_stable_subnet _ _ _ W Hpost) as P.
    eapply preserved_trans; [exact P|].
    repeat (eapply preserved_trans; [eassumption|]). apply preserved_refl.
  - pose proof (wf_reach_rdns _ _ _ Hr) as W.
    unfold reach_rdns in Hr. rewrite R3 in Hr. simpl in Hr.
    rewrite Hl in H4. unfold rdns_pass in *.
    pose proof (forM_resume _ _ _ _ _ _ H4 Hr) as Hpost.
    pose proof (ancestry_stable_rdns _ _ _ W Hpost) as P.
    eapply preserved_trans; [exact P|].
    repeat (eapply preserved_trans; [eassumption|]). apply preserved_refl.
  - pose proof (wf_reach_failover _ _ _ Hr) as W.
    unfold reach_failover in Hr. rewrite R4 in Hr. simpl in Hr.
    rewrite Hl in H5. unfold failover_pass in *.
    pose proof (forM_resume _ _ _ _ _ _ H5 Hr) as Hpost.
    exact (ancestry_stable_failover _ _ _ W Hpost).
Qed.

(** ** C1: the ancestry-copy invariant *)

(** Under the invariant every node of the table has a Host-kind node of
    the table with the same ancestry. *)
Lemma wf_has_host st n :
  wf st -> in_table st n ->
  exists h, in_table st h /\ Kind_of h = KindHost /\ ancestry h = ancestry n.
Proof.
  intros Hwf Hn. destruct (wf_host _ Hwf _ Hn) as (h & hp & Hhp & Hh & HK & Ha).
  exists h. split; [by eexists _, hp|done].
Qed.

(** C1. Every node of the returned list whose kind is not Host has a
    Host-kind node in the list with the same ancestry fields: product,
    datacenter, server name, server number, status, cancelled, flatrate,
    throttled, paid-until and traffic quota.  The fields compared are the
    ones the node was created with: a cell met at any point of the run has
    the same ancestry when the run ends. *)
Theorem ancestry_copy_invariant (raw : RawData) (l : list Node) :
  getHetznerData raw l ->
  (forall n, n ∈ l -> Kind_of n <> KindHost ->
     exists h, h ∈ l /\ Kind_of h = KindHost /\ ancestry h = ancestry n)
  /\ (forall st stf p n0,
        reached raw st -> build_nodes raw = Ok stf ->
        heap st !! p = Some n0 ->
        exists nf, heap stf !! p = Some nf /\ ancestry nf = ancestry n0).
Proof.
  intros Hout. split.
  - intros n Hn _.
    destruct (getHetznerData_elem _ _ Hout) as (st & _ & Hwf & _ & _ & Hel).
    apply Hel in Hn. destruct (wf_has_host _ _ Hwf Hn) as (h & Hh & HK & Ha).
    exists h. split; [by apply Hel|done].
  - intros st stf p n0 Hr Hb Hp.
    destruct (reached_preserved _ _ _ Hr Hb _ _ Hp) as (nf & Hnf & _ & _ & Ha & _).
    by exists nf.
Qed.

(** *** A witness *)

Lemma ancestry_copy_invariant_witness :
  exists l n h,
    getHetznerData sample.host_and_ip l /\ n ∈ l /\ Kind_of n = KindManagement
    /\ h ∈ l /\ Kind_of h = KindHost /\ ancestry h = ancestry n.
Proof.
  destruct (getHetznerData_run sample.host_and_ip) as [l| |] eqn:E;
    [|vm_compute in E; discriminate..].
  pose proof (getHetznerData_run_sound _ _ E) as Hout.
  assert (Hn : exists n, n ∈ l /\ Kind_of n = KindManagement).
  { vm_compute in E. inversion E; subst l. eexists. split; [right; left|done]. }
  destruct Hn as (n & Hn & HK).
  destruct (ancestry_copy_invariant sample.host_and_ip l Hout) as [Hinv _].
  destruct (Hinv n Hn) as (h & Hh & HhK & Ha).
  { rewrite HK. discriminate. }
  exists l, n, h. split; [exact Hout|]. split; [exact Hn|]. split; [exact HK|].
  split; [exact Hh|]. split; [exact HhK|exact Ha].
Defined.

(** ** Aborting loops *)

Lemma bind_abort {A} (r : result A) (k : A -> result A) :
  is_Ok r = false -> (a ← r; k a) = r.
Proof. by destruct r. Qed.

Lemma forM_abort {S A} (f : S -> A -> result S) pre e post s st :
  forM f pre s = Ok st -> is_Ok (f st e) = false ->
  forM f (pre ++ e :: post)%list s = f st e.
Proof.
  intros Hpre Hab. rewrite forM_app, Hpre. simpl.
  destruct (f st e); simpl in *; auto; discriminate.
Qed.

Lemma forM_snoc {S A} (f : S -> A -> result S) pre e s st :
  forM f pre s = Ok st -> forM f (pre ++ [e])%list s = f st e.
Proof.
  intros Hpre. rewrite forM_app, Hpre. simpl. by destruct (f st e).
Qed.

Lemma reach_ip_abort raw pre e post st :
  rips raw = (pre ++ e :: post)%list -> reach_ip raw pre = Ok st ->
  is_Ok (ip_step st e) = false -> build_nodes raw = ip_step st e.
Proof.
  intros Hl Hr Hab. unfold reach_ip in Hr. apply bind_Ok in Hr as (st1 & H1 & H2).
  unfold build_nodes. rewrite H1. simpl. rewrite Hl.
  unfold ip_pass in *. rewrite (forM_abort _ _ _ _ _ _ H2 Hab).
  destruct (ip_step st e); simpl in *; auto; discriminate.
Qed.

Lemma reach_subnet_abort raw pre e post st :
  rsubnets raw = (pre ++ e :: post)%list -> reach_subnet raw pre = Ok st ->
  is_Ok (subnet_step st e) = false -> build_nodes raw = subnet_step st e.
Proof.
  intros Hl Hr Hab. unfold reach_subnet, reach_ip in Hr.
  apply bind_Ok in Hr as (st2 & Hr & H3). apply bind_Ok in Hr as (st1 & H1 & H2).
  unfold build_nodes. rewrite H1. simpl. rewrite H2. simpl. rewrite Hl.
  unfold subnet_pass in *. rewrite (forM_abort _ _ _ _ _ _ H3 Hab).
  destruct (subnet_step st e); simpl in *; auto; discriminate.
Qed.

Lemma reach_rdns_abort raw pre e post st :
  rrdns raw = (pre ++ e :: post)%list -> reach_rdns raw pre = Ok st ->
  is_Ok (rdns_step st e) = false -> build_nodes raw = rdns_step st e.
Proof.
  intros Hl Hr Hab. unfold reach_rdns, reach_subnet, reach_ip in Hr.
  apply bind_Ok in Hr as (st3 & Hr & H4).
  apply bind_Ok in Hr as (st2 & Hr & H3). apply bind_Ok in Hr as (st1 & H1 & H2).
  unfold build_nodes. rewrite H1. simpl. rewrite H2. simpl. rewrite H3. simpl.
  rewrite Hl. unfold rdns_pass in *. rewrite (forM_abort _ _ _ _ _ _ H4 Hab).
  destruct (rdns_step st e); simpl in *; auto; discriminate.
Qed.

Lemma reach_failover_abort raw pre e post st :
  rfailover raw = (pre ++ e :: post)%list -> reach_failover raw pre = Ok st ->
  is_Ok (failover_step st e) = false -> build_nodes raw = failover_step st e.
Proof.
  intros Hl Hr Hab. rewrite build_nodes_reach. unfold reach_failover in *.
  apply bind_Ok in Hr as (st4 & Hr & H5). rewrite Hr. simpl. rewrite Hl.
  unfold failover_pass in *. by rewrite (forM_abort _ _ _ _ _ _ H5 Hab).
Qed.

(** ** C2: the owner lookup of the IP pass *)

(** C2, as the code has it.  Take a record of the IP pass whose address
    is not yet a key of the table.  If the key of its owner's main
    address is not in the table either, whatever the kinds of the nodes
    stored elsewhere, the run aborts with the panic "no host found".  If
    a node is stored under the owner's key (the lookup does not look at
    its kind) and its address differs from the record's, the pass stores
    a fresh Management-kind node under the record's address, with the
    ancestry of the node found, which is the ancestry of a Host-kind
    node of the table; the other keys and cells stay as they were. *)
Theorem ip_pass_owner_lookup (raw : RawData) (pre post : list api.Ip)
    (e : api.Ip) (st : state) :
  rips raw = (pre ++ e :: post)%list ->
  reach_ip raw pre = Ok st ->
  nodes st !! net.IP_String (api.Ip_Ip e) = None ->
  (nodes st !! net.IP_String (api.Ip_Server_ip e) = None ->
     build_nodes raw
     = Panic ("no host found for " ++ net.IP_String (api.Ip_Ip e)))
  /\ (forall hp host,
        nodes st !! net.IP_String (api.Ip_Server_ip e) = Some hp ->
        heap st !! hp = Some host ->
        net.Equal (Ip host) (api.Ip_Ip e) = false ->
        exists st' n,
          reach_ip raw (pre ++ [e]) = Ok st'
          /\ nodes st' !! net.IP_String (api.Ip_Ip e) = Some (length (heap st))
          /\ heap st' !! length (heap st) = Some n
          /\ n = ip_fields e (management_node e host)
          /\ Kind_of n = KindManagement
          /\ Ip n = api.Ip_Ip e
          /\ ancestry n = ancestry host
          /\ (exists h, in_table st' h /\ Kind_of h = KindHost
                        /\ ancestry h = ancestry n)
          /\ (forall k, k <> net.IP_String (api.Ip_Ip e) ->
                nodes st' !! k = nodes st !! k)
          /\ preserved st st').
Proof.
  intros Hl Hr Hk. split.
  - intros Ho. rewrite (reach_ip_abort _ _ _ _ _ Hl Hr);
      rewrite (ip_step_no_host _ _ Hk Ho); done.
  - intros hp host Ho Hh HE.
    pose proof (wf_reach_ip _ _ _ Hr) as Hwf.
    pose proof (ip_step_new _ _ _ _ Hk Ho Hh HE) as Hstep.
    set (n0 := management_node e host) in *.
    set (st' := modify (length (heap st)) (ip_fields e) (insert_node_st st n0)) in *.
    assert (Hwf' : wf st') by (by eapply wf_ip_step).
    destruct (insert_node_st_new st n0) as [Hnk Hnh].
    assert (Hcell : heap st' !! length (heap st) = Some (ip_fields e n0)).
    { destruct (modify_lookup _ _ (ip_fields e) _ _ _ Hnh Hnh) as (m' & Hm' & Hc).
      destruct Hc as [(_ & _ & ->)|(Hne & _)]; [done|by destruct Hne]. }
    assert (Hkey' : nodes st' !! net.IP_String (api.Ip_Ip e) = Some (length (heap st))).
    { unfold st'. rewrite modify_nodes. exact Hnk. }
    exists st', (ip_fields e n0).
    split.
    { unfold reach_ip in *. apply bind_Ok in Hr as (st1 & H1 & H2). rewrite H1.
      simpl. unfold ip_pass in *. by rewrite (forM_snoc _ _ _ _ _ H2). }
    split; [exact Hkey'|]. split; [exact Hcell|]. split; [done|].
    split; [done|]. split; [done|]. split; [done|].
    split.
    { apply wf_has_host; [done|]. by eexists _, _. }
    split.
    { intros k Hne. unfold st'. rewrite modify_nodes.
      by apply insert_node_st_other. }
    eapply preserved_ip_step; eauto.
Qed.

Lemma ip_pass_owner_lookup_witness :
  exists st st' n,
    reach_ip sample.chained_ips [sample.single sample.ip_10_0_0_2 sample.ip_10_0_0_1] = Ok st
    /\ reach_ip sample.chained_ips (rips sample.chained_ips) = Ok st'
    /\ nodes st' !! "10.0.0.3" = Some (length (heap st))
    /\ heap st' !! length (heap st) = Some n
    /\ Kind_of n = KindManagement.
Proof.
  destruct (reach_ip sample.chained_ips
              [sample.single sample.ip_10_0_0_2 sample.ip_10_0_0_1])
    as [st| |] eqn:Hr; [|vm_compute in Hr; discriminate..].
  destruct (nodes st !! net.IP_String sample.ip_10_0_0_2) as [hp|] eqn:Ho.
  2:{ exfalso. vm_compute in Hr. inversion Hr; subst st. vm_compute in Ho.
      discriminate. }
  destruct (heap st !! hp) as [host|] eqn:Hh.
  2:{ exfalso. vm_compute in Hr. inversion Hr; subst st. vm_compute in Ho.
      inversion Ho; subst hp. vm_compute in Hh. discriminate. }
  destruct (ip_pass_owner_lookup sample.chained_ips
              [sample.single sample.ip_10_0_0_2 sample.ip_10_0_0_1] []
              (sample.single sample.ip_10_0_0_3 sample.ip_10_0_0_2) st
              eq_refl Hr) as [_ H].
  { vm_compute in Hr. inversion Hr; subst st. vm_compute. reflexivity. }
  destruct (H hp host Ho Hh) as (st' & n & H1 & H2 & H3 & _ & H5 & _).
  { vm_compute in Hr. inversion Hr; subst st. vm_compute in Ho.
    inversion Ho; subst hp. vm_compute in Hh. inversion Hh; subst host.
    vm_compute. reflexivity. }
  exists st, st', n. split; [reflexivity|]. split; [exact H1|].
  split; [exact H2|]. split; [exact H3|exact H5].
Defined.

(** With "Host node" read as a node of kind Host the abort half fails:
    of two further addresses the second names the first as its owner; the
    node under the owner's key is of kind Management, and the pass goes
    on and clones it. *)
Lemma ip_pass_clones_non_Host : ~ ip_pass_aborts_without_Host.
Proof.
  intros H.
  destruct (reach_ip sample.chained_ips
              [sample.single sample.ip_10_0_0_2 sample.ip_10_0_0_1])
    as [st| |] eqn:Hr; [|vm_compute in Hr; discriminate..].
  specialize (H sample.chained_ips
                [sample.single sample.ip_10_0_0_2 sample.ip_10_0_0_1]
                (sample.single sample.ip_10_0_0_3 sample.ip_10_0_0_2) [] st
                eq_refl Hr).
  vm_compute in Hr. inversion Hr; subst st. clear Hr.
  assert (E : is_Ok (build_nodes sample.chained_ips) = true) by (vm_compute; reflexivity).
  rewrite H in E; [discriminate| |].
  - intros [p Hp]. vm_compute in Hp. discriminate.
  - intros (p & h & Hp & Hh & HK). vm_compute in Hp. inversion Hp; subst p.
    vm_compute in Hh. inversion Hh; subst h. discriminate.
Qed.

(** ** The slice of subnets *)

Lemma ip_step_subnets st e st' : ip_step st e = Ok st' -> subnets st' = subnets st.
Proof.
  unfold ip_step. intros H.
  destruct (nodes st !! api.IP_String (api.Ip_Ip e)) as [p|]; simpl in H.
  - destruct (deref st p); simpl in H; try discriminate. inversion H.
    apply modify_subnets.
  - destruct (nodes st !! api.IP_String (api.Ip_Server_ip e)) as [hp|];
      simpl in H; try discriminate.
    destruct (deref st hp) as [host| |]; simpl in H; try discriminate.
    destruct (negb (net.Equal (Ip host) (api.Ip_Ip e))); simpl in H.
    + destruct (deref _ _); simpl in H; try discriminate. inversion H.
      by rewrite modify_subnets.
    + destruct (deref _ _); simpl in H; try discriminate. inversion H.
      apply modify_subnets.
Qed.

Lemma rdns_step_subnets st e st' : rdns_step st e = Ok st' -> subnets st' = subnets st.
Proof.
  unfold rdns_step. intros H.
  destruct (nodes st !! net.IP_String (api.Rdns_Ip e)) as [p|].
  - destruct (deref st p); simpl in H; try discriminate. inversion H.
    apply modify_subnets.
  - by apply scan_subnets_result in H as [host ->].
Qed.

Lemma ip_pass_subnets l st st' : ip_pass l st = Ok st' -> subnets st' = subnets st.
Proof.
  intros H. apply (forM_invariant (fun s => subnets s = subnets st) ip_step) with l st;
    [|done|done].
  intros s e s' Hs Hstep. rewrite <- Hs. by eapply ip_step_subnets.
Qed.

Lemma rdns_pass_subnets l st st' : rdns_pass l st = Ok st' -> subnets st' = subnets st.
Proof.
  intros H. apply (forM_invariant (fun s => subnets s = subnets st) rdns_step) with l st;
    [|done|done].
  intros s e s' Hs Hstep. rewrite <- Hs. by eapply rdns_step_subnets.
Qed.

Lemma subnet_ips_preserved st st' :
  wf st -> preserved st st' -> subnets st' = subnets st ->
  subnet_ips st' = subnet_ips st.
Proof.
  intros Hwf Hp Hs. unfold subnet_ips. rewrite Hs.
  apply map_ext_in. intros sp Hin. apply list_elem_of_In in Hin.
  destruct (wf_subnets _ Hwf _ Hin) as (s & sn & Hsp & _).
  destruct (Hp _ _ Hsp) as (s' & Hs' & HIp & _). rewrite Hsp, Hs'. simpl.
  by rewrite HIp.
Qed.

Lemma subnet_step_ips st e st' :
  wf st -> subnet_step st e = Ok st' ->
  subnet_ips st' = (subnet_ips st ++ [Some (api.Subnet_Ip e)])%list.
Proof.
  intros Hwf H.
  destruct (nodes st !! net.IP_String (api.Subnet_Ip e)) as [p|] eqn:Hk.
  { rewrite (subnet_step_conflict _ _ _ Hk) in H. discriminate. }
  destruct (nodes st !! net.IP_String (api.Subnet_Server_ip e)) as [sp|] eqn:Ho.
  2:{ rewrite (subnet_step_no_owner _ _ Hk Ho) in H. discriminate. }
  destruct (wf_key _ Hwf _ _ Ho) as (server & Hs & _).
  rewrite (subnet_step_new _ _ _ _ Hk Ho Hs) in H. inversion H. clear H.
  unfold subnet_ips. simpl. rewrite map_app. simpl.
  rewrite lookup_app_r, Nat.sub_diag by done. simpl. f_equal.
  apply map_ext_in. intros q Hin. apply list_elem_of_In in Hin.
  destruct (wf_subnets _ Hwf _ Hin) as (s & sn & Hq & _).
  by rewrite (lookup_app_l_Some _ _ _ _ Hq), Hq.
Qed.

Lemma subnet_pass_ips l st st' :
  wf st -> subnet_pass l st = Ok st' ->
  subnet_ips st' = (subnet_ips st ++ map (fun e => Some (api.Subnet_Ip e)) l)%list.
Proof.
  unfold subnet_pass. revert st.
  induction l as [|e l IH]; intros st Hwf H; simpl in H.
  - inversion H. by rewrite app_nil_r.
  - destruct (subnet_step st e) as [s1| |] eqn:E; simpl in H; try discriminate.
    rewrite (IH s1); [|by eapply wf_subnet_step|done].
    rewrite (subnet_step_ips _ _ _ Hwf E). by rewrite <- app_assoc.
Qed.

(** When the RDNS pass runs, the slice lists the subnet nodes in the order
    of the subnet records. *)
Lemma subnets_in_creation_order raw pre st :
  reach_rdns raw pre = Ok st ->
  subnet_ips st = map (fun e => Some (api.Subnet_Ip e)) (rsubnets raw).
Proof.
  intros H. unfold reach_rdns in H. apply bind_Ok in H as (st3 & H3 & H4).
  pose proof (wf_reach_subnet _ _ _ H3) as Hwf3.
  rewrite (subnet_ips_preserved st3 st Hwf3);
    [|by eapply ancestry_stable_rdns|by eapply rdns_pass_subnets].
  unfold reach_subnet in H3. apply bind_Ok in H3 as (st2 & H2 & H3).
  pose proof (wf_reach_ip _ _ _ H2) as Hwf2.
  rewrite (subnet_pass_ips _ _ _ Hwf2 H3).
  unfold reach_ip in H2. apply bind_Ok in H2 as (st1 & H1 & H2).
  assert (Hs : subnets st2 = []).
  { rewrite (ip_pass_subnets _ _ _ H2).
    by destruct (hosts_only_pass _ _ _ hosts_only_empty H1). }
  unfold subnet_ips at 1. by rewrite Hs.
Qed.

(** ** C3: where the RDNS pass puts a record *)

(** C3. For a record of the RDNS pass with address [ip] and name [ptr]:
    the slice of subnets lists the subnet nodes in the order of the
    subnet records; if a node is stored under the key of [ip], its PTR
    field becomes [ptr] and nothing else changes; otherwise the first
    subnet of the slice that contains [ip] gives a fresh Virtual-kind node
    under the key of [ip], with PTR [ptr] and the ancestry of the Host-kind
    node that owns the subnet; and if no node is stored under the key and
    no subnet contains [ip], the run aborts with a panic. *)
Theorem rdns_pass_placement (raw : RawData) (pre post : list api.Rdns)
    (e : api.Rdns) (st : state) :
  rrdns raw = (pre ++ e :: post)%list ->
  reach_rdns raw pre = Ok st ->
  subnet_ips st = map (fun s => Some (api.Subnet_Ip s)) (rsubnets raw)
  /\ (forall p, nodes st !! net.IP_String (api.Rdns_Ip e) = Some p ->
        exists n st',
          heap st !! p = Some n
          /\ reach_rdns raw (pre ++ [e]) = Ok st'
          /\ st' = modify p (set_Ptr (api.Rdns_Ptr e)) st
          /\ heap st' !! p = Some (set_Ptr (api.Rdns_Ptr e) n)
          /\ Ptr (set_Ptr (api.Rdns_Ptr e) n) = api.Rdns_Ptr e
          /\ nodes st' = nodes st)
  /\ (nodes st !! net.IP_String (api.Rdns_Ip e) = None ->
      forall ss1 sp ss2,
        subnets st = (ss1 ++ sp :: ss2)%list ->
        (forall q, q ∈ ss1 -> subnet_contains st (api.Rdns_Ip e) q = false) ->
        subnet_contains st (api.Rdns_Ip e) sp = true ->
        exists s host st' n,
          heap st !! sp = Some s
          /\ host_of st s host
          /\ reach_rdns raw (pre ++ [e]) = Ok st'
          /\ nodes st' !! net.IP_String (api.Rdns_Ip e) = Some (length (heap st))
          /\ heap st' !! length (heap st) = Some n
          /\ n = virtual_node (api.Rdns_Ip e) (api.Rdns_Ptr e) host
          /\ Kind_of n = KindVirtual
          /\ Ip n = api.Rdns_Ip e
          /\ Ptr n = api.Rdns_Ptr e
          /\ ancestry n = ancestry host
          /\ Kind_of host = KindHost)
  /\ (nodes st !! net.IP_String (api.Rdns_Ip e) = None ->
      (forall q, q ∈ subnets st -> subnet_contains st (api.Rdns_Ip e) q = false) ->
      build_nodes raw = Panic (loosen_msg (api.Rdns_Ip e) (api.Rdns_Ptr e))).
Proof.
  intros Hl Hr. pose proof (wf_reach_rdns _ _ _ Hr) as Hwf.
  assert (Hnext : forall st', rdns_step st e = Ok st' ->
            reach_rdns raw (pre ++ [e]) = Ok st').
  { intros st' Hstep. unfold reach_rdns in *. apply bind_Ok in Hr as (st3 & H3 & H4).
    rewrite H3. simpl. unfold rdns_pass in *. by rewrite (forM_snoc _ _ _ _ _ H4). }
  split; [by eapply subnets_in_creation_order|]. split; [|split].
  - intros p Hk. destruct (wf_key _ Hwf _ _ Hk) as (n & Hn & _).
    pose proof (rdns_step_found _ _ _ _ Hk Hn) as Hstep.
    exists n, (modify p (set_Ptr (api.Rdns_Ptr e)) st).
    split; [done|]. split; [by apply Hnext|]. split; [done|].
    split; [|split; [done|apply modify_nodes]].
    destruct (modify_lookup _ _ (set_Ptr (api.Rdns_Ptr e)) _ _ _ Hn Hn) as (m' & Hm' & Hc).
    destruct Hc as [(_ & _ & ->)|(Hne & _)]; [done|by destruct Hne].
  - intros Hk ss1 sp ss2 Hss Hmiss Hhit.
    assert (Hin : sp ∈ subnets st).
    { rewrite Hss. apply elem_of_app. right. left. }
    destruct (wf_subnets _ Hwf _ Hin) as (s & sn & Hs & Hsn & Hsk).
    unfold subnet_contains in Hhit. rewrite Hs, Hsn in Hhit.
    destruct (wf_host _ Hwf s) as (host & hp & Hhp & Hh & HK & Ha); [by eexists _, sp|].
    assert (Hstep : rdns_step st e
              = Ok (insert_node_st st (virtual_node (api.Rdns_Ip e) (api.Rdns_Ptr e) host))).
    { rewrite (rdns_step_scan _ _ Hk), Hss.
      rewrite scan_subnets_miss.
      - by eapply scan_subnets_hit.
      - apply Forall_forall. intros q Hq. apply subnet_contains_misses; auto.
        rewrite Hss. apply elem_of_app. by left. }
    destruct (insert_node_st_new st
                (virtual_node (api.Rdns_Ip e) (api.Rdns_Ptr e) host)) as [Hnk Hnh].
    exists s, host,
      (insert_node_st st (virtual_node (api.Rdns_Ip e) (api.Rdns_Ptr e) host)),
      (virtual_node (api.Rdns_Ip e) (api.Rdns_Ptr e) host).
    split; [done|]. split; [by exists hp|]. split; [by apply Hnext|].
    split; [exact Hnk|]. split; [exact Hnh|]. by repeat split.
  - intros Hk Hmiss. rewrite (reach_rdns_abort _ _ _ _ _ Hl Hr);
      rewrite (rdns_step_scan _ _ Hk), scan_subnets_none; try done.
    all: apply Forall_forall; intros q Hq; apply subnet_contains_misses; auto.
Qed.

Lemma rdns_pass_placement_witness :
  exists st' n,
    reach_rdns sample.full (rrdns sample.full) = Ok st'
    /\ nodes st' !! "10.1.0.5" = Some 4%nat
    /\ heap st' !! 4%nat = Some n
    /\ Kind_of n = KindVirtual
    /\ Ptr n = "x.example.com"
    /\ Product n = "EX40".
Proof.
  destruct (reach_rdns sample.full []) as [st| |] eqn:Hr;
    [|vm_compute in Hr; discriminate..].
  destruct (rdns_pass_placement sample.full [] []
              (api.mkRdns sample.ip_10_1_0_5 "x.example.com") st eq_refl Hr)
    as (_ & _ & H & _).
  destruct (H ltac:(concrete Hr; vm_compute; reflexivity)
              [] 2%nat [3%nat]
              ltac:(concrete Hr; vm_compute; reflexivity)
              ltac:(intros q Hq; inversion Hq)
              ltac:(concrete Hr; vm_compute; reflexivity))
    as (s & host & st' & n & Hs & Hho & Hst' & Hk & Hn & Hnv & HK & HIp & HPtr & Ha & HhK).
  assert (Hlen : length (heap st) = 4%nat) by (concrete Hr; reflexivity).
  assert (Hprod : Product host = "EX40").
  { destruct Hho as (hp & Hhp & Hh & _). clear - Hr Hs Hhp Hh. concrete Hr.
    vm_compute in Hs. inversion Hs; subst s. clear Hs. vm_compute in Hhp.
    inversion Hhp; subst hp. vm_compute in Hh. inversion Hh. reflexivity. }
  rewrite Hlen in Hk, Hn.
  exists st', n. split; [exact Hst'|]. split; [exact Hk|]. split; [exact Hn|].
  split; [exact HK|]. split; [exact HPtr|].
  transitivity (a_product (ancestry n)); [reflexivity|]. rewrite Ha. exact Hprod.
Defined.

(** ** C4: the failover pass *)

(** C4. For a record of the failover pass: if no node is stored under
    the key of its address, or the node stored there is not a
    Network-kind node with the failover flag set, the run aborts with
    the panic "no subnet for failover"; otherwise the kind of that node
    becomes Failover and its active server address becomes the record's,
    and nothing else changes. *)
Theorem failover_pass_promotion (raw : RawData) (pre post : list api.Failover)
    (e : api.Failover) (st : state) :
  rfailover raw = (pre ++ e :: post)%list ->
  reach_failover raw pre = Ok st ->
  (nodes st !! net.IP_String (api.Failover_Ip e) = None ->
     build_nodes raw = Panic (failover_msg e))
  /\ (forall p, nodes st !! net.IP_String (api.Failover_Ip e) = Some p ->
        exists n, heap st !! p = Some n
          /\ (~ (Kind_of n = KindNetwork /\ Failover n = true) ->
                build_nodes raw = Panic (failover_msg e))
          /\ (Kind_of n = KindNetwork -> Failover n = true ->
                exists st' n',
                  reach_failover raw (pre ++ [e]) = Ok st'
                  /\ st' = modify p (failover_fields e) st
                  /\ heap st' !! p = Some n'
                  /\ n' = set_Active_server_ip (api.Failover_Active_server_ip e)
                            (set_Kind KindFailover n)
                  /\ Kind_of n' = KindFailover
                  /\ Active_server_ip n' = api.Failover_Active_server_ip e
                  /\ nodes st' = nodes st
                  /\ forall q, q <> p -> heap st' !! q = heap st !! q)).
Proof.
  intros Hl Hr. pose proof (wf_reach_failover _ _ _ Hr) as Hwf. split.
  - intros Hk. rewrite (reach_failover_abort _ _ _ _ _ Hl Hr);
      rewrite (failover_step_missing _ _ Hk); done.
  - intros p Hk. destruct (wf_key _ Hwf _ _ Hk) as (n & Hn & _). exists n.
    split; [done|]. split.
    + intros Hno. rewrite (reach_failover_abort _ _ _ _ _ Hl Hr);
        rewrite (failover_step_wrong _ _ _ _ Hk Hn Hno); done.
    + intros HK HF. pose proof (failover_step_ok _ _ _ _ Hk Hn HK HF) as Hstep.
      exists (modify p (failover_fields e) st), (failover_fields e n).
      split.
      { unfold reach_failover in *. apply bind_Ok in Hr as (st4 & H4 & H5).
        rewrite H4. simpl. unfold failover_pass in *.
        by rewrite (forM_snoc _ _ _ _ _ H5). }
      split; [done|]. split.
      { destruct (modify_lookup _ _ (failover_fields e) _ _ _ Hn Hn) as (m' & Hm' & Hc).
        destruct Hc as [(_ & _ & ->)|(Hne & _)]; [done|by destruct Hne]. }
      split; [done|]. split; [done|]. split; [done|].
      split; [apply modify_nodes|].
      intros q Hq. rewrite (modify_heap _ _ _ _ Hn). simpl.
      by apply list_lookup_insert_ne.
Qed.

Lemma failover_pass_promotion_witness :
  exists st' n',
    reach_failover sample.full (rfailover sample.full) = Ok st'
    /\ heap st' !! 3%nat = Some n'
    /\ Kind_of n' = KindFailover
    /\ Active_server_ip n' = sample.ip_10_0_0_1.
Proof.
  destruct (reach_failover sample.full []) as [st| |] eqn:Hr;
    [|vm_compute in Hr; discriminate..].
  destruct (failover_pass_promotion sample.full [] []
              (api.mkFailover sample.net_10_2_0_0 "255.255.255.255"
                 sample.ip_10_0_0_1 100 sample.ip_10_0_0_1) st eq_refl Hr)
    as (_ & H).
  destruct (H 3%nat ltac:(concrete Hr; vm_compute; reflexivity))
    as (n & Hn & _ & Hok).
  destruct Hok as (st' & n' & Hst' & _ & Hn' & _ & HK & HA & _).
  { clear - Hr Hn. concrete Hr. vm_compute in Hn. inversion Hn. reflexivity. }
  { clear - Hr Hn. concrete Hr. vm_compute in Hn. inversion Hn. reflexivity. }
  exists st', n'. split; [exact Hst'|]. split; [exact Hn'|].
  split; [exact HK|exact HA].
Defined.

(** ** C5: the order of [Less] *)

Lemma lex_le_antisym (x y : Z * Z) : lex_le x y -> lex_le y x -> x = y.
Proof. destruct x, y. unfold lex_le. simpl. intros. f_equal; lia. Qed.

Lemma sorted_keys l : sorted l -> StronglySorted lex_le (sort_key <$> l).
Proof.
  apply StronglySorted_fmap. intros x y H. by apply Less_false_spec.
Qed.

(** Two sorted arrangements of the same nodes show the same sequence of
    (server number, kind) pairs. *)
Lemma sorted_keys_unique l1 l2 :
  sorted l1 -> sorted l2 -> Permutation l1 l2 ->
  sort_key <$> l1 = sort_key <$> l2.
Proof.
  intros H1 H2 Hp.
  apply (StronglySorted_unique_strong lex_le);
    [|by apply sorted_keys|by apply sorted_keys|by apply fmap_Permutation].
  intros x y _ _. apply lex_le_antisym.
Qed.

(** On the list returned for a host with two further addresses [Less] is
    not a strict total order: the two Management-kind nodes are distinct
    and neither is [Less] than the other. *)
Lemma Less_not_total_on_output : ~ Less_strict_total_on_output.
Proof.
  intros H.
  destruct (getHetznerData_run sample.two_ips) as [l| |] eqn:E;
    [|vm_compute in E; discriminate..].
  destruct (H _ _ (getHetznerData_run_sound _ _ E)) as (_ & _ & Htot).
  vm_compute in E. inversion E; subst l. clear E H.
  match type of Htot with
  | forall a b, a ∈ [_; ?x; ?y] -> _ =>
      destruct (Htot x y) as [Hc|Hc];
        [right; left|right; right; left|discriminate
        |vm_compute in Hc; discriminate..]
  end.
Qed.

(** C5, as the code has it.  [Less] is the lexicographic comparison of
    (server number, kind value), the kind values rising in the order Host,
    Management, Network, Virtual, Failover.  It is irreflexive, transitive
    and asymmetric, and two nodes are left unordered exactly when they
    agree on server number and kind: a strict weak order, total on the
    pairs but not on the nodes.  Sorting is idempotent in this sense: a
    sorted list is a result of sorting itself, every result of sorting it
    again shows the same sequence of pairs, and the stable insertion sort
    returns a sorted list unchanged. *)
Theorem Less_strict_weak_order (a b c : Node) (l l1 l2 : list Node) :
  (Less a b = true <-> lex_lt (sort_key a) (sort_key b))
  /\ (Kind_val KindHost < Kind_val KindManagement
      /\ Kind_val KindManagement < Kind_val KindNetwork
      /\ Kind_val KindNetwork < Kind_val KindVirtual
      /\ Kind_val KindVirtual < Kind_val KindFailover)
  /\ Less a a = false
  /\ (Less a b = true -> Less b c = true -> Less a c = true)
  /\ (Less a b = true -> Less b a = false)
  /\ (Less a b = false /\ Less b a = false
      <-> Server_number a = Server_number b /\ Kind_of a = Kind_of b)
  /\ (sort_Sort l l1 -> sort_Sort l1 l1)
  /\ (sort_Sort l l1 -> sort_Sort l1 l2 -> sort_key <$> l2 = sort_key <$> l1)
  /\ (sorted l -> insertion_sort l = l)
  /\ insertion_sort (insertion_sort l) = insertion_sort l.
Proof.
  split; [apply Less_spec|]. split; [by repeat split|].
  split; [apply Less_irrefl|]. split.
  { rewrite !Less_spec. unfold lex_lt. lia. }
  split.
  { rewrite Less_spec, Less_false_spec. unfold lex_lt, lex_le. lia. }
  split.
  { rewrite !Less_false_spec. unfold lex_le, sort_key. simpl. split.
    - intros [H1 H2]. split; [lia|].
      assert (Kind_val (Kind_of a) = Kind_val (Kind_of b)) by lia.
      by destruct (Kind_of a), (Kind_of b).
    - intros [H1 H2]. rewrite H1, H2. lia. }
  split.
  { intros [_ Hs]. split; [done|exact Hs]. }
  split.
  { intros [_ Hs1] [Hp Hs2]. symmetry. by apply sorted_keys_unique. }
  split; [apply insertion_sort_fixed|].
  apply insertion_sort_fixed, insertion_sort_sorted.
Qed.

Lemma Less_strict_weak_order_witness :
  Less sample.host_n sample.virtual_n = true
  /\ insertion_sort [sample.host_n; sample.management_n; sample.virtual_n]
     = [sample.host_n; sample.management_n; sample.virtual_n].
Proof.
  destruct (Less_strict_weak_order sample.host_n sample.management_n
              sample.virtual_n
              [sample.host_n; sample.management_n; sample.virtual_n] [] [])
    as (_ & _ & _ & Htrans & _ & _ & _ & _ & Hfix & _).
  split.
  - apply Htrans; reflexivity.
  - apply Hfix. repeat constructor.
Defined.

(** ** C6: one host and one further address *)

(** C6. One server record with number 100 and main address 10.0.0.1,
    one IP record for 10.0.0.2 owned by 10.0.0.1 and nothing else,
    whatever the other fields of the two records: the function returns
    the list of exactly two nodes, the Host-kind node at 10.0.0.1 first
    and the Management-kind node at 10.0.0.2 second, and the second
    carries the product, datacenter and server name of the first, which
    are those of the server record. *)
Theorem one_host_one_ip (name product dc traffic status paid mac : string)
    (flatrate throttled cancelled locked warnings : bool)
    (number hourly daily monthly : Z) (l : list Node) :
  let srv := api.mkServer sample.ip_10_0_0_1 100 name product dc traffic
               flatrate status throttled cancelled paid in
  let rip := api.mkIp sample.ip_10_0_0_2 sample.ip_10_0_0_1 number locked mac
               warnings hourly daily monthly in
  let h := host_node srv in
  let m := ip_fields rip (management_node rip h) in
  (getHetznerData (mkRawData [srv] [rip] [] [] []) l <-> l = [h; m])
  /\ Kind_of h = KindHost /\ Ip h = sample.ip_10_0_0_1
  /\ node_key h = "10.0.0.1"
  /\ Kind_of m = KindManagement /\ Ip m = sample.ip_10_0_0_2
  /\ node_key m = "10.0.0.2"
  /\ Product m = Product h /\ Dc m = Dc h /\ Server_name m = Server_name h
  /\ Product h = product /\ Dc h = dc /\ Server_name h = name
  /\ Server_number h = 100 /\ Server_number m = 100.
Proof.
  intros srv rip h m.
  split; [|by repeat split].
  set (st1 := insert_node_st empty_state h).
  set (st2 := modify 1 (ip_fields rip) (insert_node_st st1 (management_node rip h))).
  assert (Hb : build_nodes (mkRawData [srv] [rip] [] [] []) = Ok st2).
  { unfold build_nodes, host_pass, ip_pass, subnet_pass, rdns_pass, failover_pass.
    cbn [rservers rips rsubnets rrdns rfailover forM].
    rewrite host_step_total, !bind_Ok_l. fold h st1.
    rewrite (ip_step_new st1 rip 0%nat h); [done| | |done|].
    - vm_compute. reflexivity.
    - vm_compute. reflexivity.
    - vm_compute. reflexivity. }
  assert (Ht : table_nodes st2 = [h; m]).
  { unfold table_nodes.
    assert (Hm : map_to_list (nodes st2) = [("10.0.0.1", 0%nat); ("10.0.0.2", 1%nat)]).
    { vm_compute. reflexivity. }
    rewrite Hm. reflexivity. }
  assert (Hs : sorted [h; m]).
  { repeat constructor. }
  split.
  - intros (st & Hst & Hp & Hsl). rewrite Hb in Hst. inversion Hst; subst st.
    rewrite Ht in Hp. clear Hst Hb Ht Hs.
    pose proof (Permutation_length Hp) as Hlen.
    destruct l as [|x [|y [|z l]]]; simpl in Hlen; try lia.
    apply Permutation_length_2 in Hp as [[<- <-]|[<- <-]]; [reflexivity|].
    exfalso. inversion Hsl as [|? ? _ Hf]. apply Forall_cons in Hf as [Hf _].
    unfold Less in Hf. simpl in Hf. discriminate Hf.
  - intros ->. exists st2. split; [exact Hb|]. split; [|exact Hs].
    rewrite Ht. reflexivity.
Qed.

Lemma one_host_one_ip_witness :
  getHetznerData sample.host_and_ip [sample.host_n; sample.management_n].
Proof.
  destruct (one_host_one_ip "web1" "EX40" "FSN1-DC5" "20 TB" "ready"
              "2014-03-01" "" true false false false true 100 0 0 0
              [sample.host_n; sample.management_n]) as [[_ H] _].
  apply H. reflexivity.
Defined.

(** ** C7: identities *)

(** *** No address is printed with a slash *)

Lemma has_slash_app (a b : string) :
  has_slash (a ++ b) = has_slash a || has_slash b.
Proof.
  unfold has_slash. induction a as [|c a IH]; simpl; [reflexivity|].
  rewrite IH. by rewrite orb_assoc.
Qed.

Lemma has_slash_cons (c : ascii) (s : string) :
  has_slash (String c s) = Ascii.eqb "/" c || has_slash s.
Proof. reflexivity. Qed.

Lemma digit_of_no_slash (d : N) : (d < 16)%N -> Ascii.eqb "/" (net.digit_of d) = false.
Proof.
  intros H.
  assert (Hc : (d = 0 \/ d = 1 \/ d = 2 \/ d = 3 \/ d = 4 \/ d = 5 \/ d = 6 \/ d = 7
          \/ d = 8 \/ d = 9 \/ d = 10 \/ d = 11 \/ d = 12 \/ d = 13 \/ d = 14
          \/ d = 15)%N) by lia.
  repeat (destruct Hc as [->|Hc]; [reflexivity|]). by subst.
Qed.

Lemma utoa_go_no_slash fuel base n acc :
  (0 < base <= 16)%N -> has_slash acc = false ->
  has_slash (net.utoa_go fuel base n acc) = false.
Proof.
  intros Hb. revert n acc. induction fuel as [|f IH]; intros n acc Hacc; simpl; [done|].
  assert (Hd : has_slash (String (net.digit_of (n mod base)) acc) = false).
  { rewrite has_slash_cons, Hacc, digit_of_no_slash; [done|].
    pose proof (N.mod_upper_bound n base). lia. }
  destruct (n / base =? 0)%N; [done|]. by apply IH.
Qed.

Lemma uitoa_no_slash n : has_slash (net.uitoa n) = false.
Proof. apply utoa_go_no_slash; [lia|done]. Qed.

Lemma appendHex_no_slash n : has_slash (net.appendHex n) = false.
Proof. apply utoa_go_no_slash; [lia|done]. Qed.

Lemma to_N_lt_256 (x : byte) : (Byte.to_N x < 256)%N.
Proof. by destruct x. Qed.

Lemma hexString_no_slash p : has_slash (net.hexString p) = false.
Proof.
  induction p as [|x p IH]; [done|]. simpl.
  pose proof (to_N_lt_256 x) as Hx.
  rewrite !has_slash_cons, IH, !digit_of_no_slash; [done| |].
  - pose proof (N.mod_upper_bound (Byte.to_N x) 16). lia.
  - apply N.Div0.div_lt_upper_bound. lia.
Qed.

Lemma print6_no_slash fuel p e0 e1 i b :
  has_slash b = false -> has_slash (net.print6 fuel p e0 e1 i b) = false.
Proof.
  revert i b. induction fuel as [|f IH]; intros i b Hb; simpl; [done|].
  destruct (i <? net.IPv6len); [|done].
  destruct (i =? e0).
  - assert (Hb2 : has_slash (b ++ "::") = false) by (by rewrite has_slash_app, Hb).
    destruct (e1 >=? net.IPv6len); [done|]. apply IH.
    by rewrite has_slash_app, Hb2, appendHex_no_slash.
  - apply IH. rewrite has_slash_app, appendHex_no_slash.
    destruct (i >? 0); [|by rewrite Hb]. by rewrite has_slash_app, Hb.
Qed.

Lemma IP_String_no_slash ip : has_slash (net.IP_String ip) = false.
Proof.
  unfold net.IP_String.
  destruct (net.len ip =? 0); [done|].
  destruct (net.len (net.To4 ip) =? net.IPv4len).
  { rewrite !has_slash_app, !uitoa_no_slash. done. }
  destruct (negb (net.len ip =? net.IPv6len)).
  { rewrite has_slash_app, hexString_no_slash. done. }
  destruct (net.find_run 8 ip 0 (-1) (-1)) as [e0 e1].
  destruct (e1 - e0 <=? 2); by apply print6_no_slash.
Qed.

(** Two strings without a slash that agree after a slash was put behind
    each are equal. *)
Lemma slash_split (x y s t : string) :
  has_slash x = false -> has_slash y = false ->
  x ++ "/" ++ s = y ++ "/" ++ t -> x = y.
Proof.
  revert y. induction x as [|c x IH]; intros [|d y] Hx Hy H; simpl in *.
  - done.
  - inversion H; subst d. rewrite has_slash_cons in Hy. discriminate.
  - inversion H; subst c. rewrite has_slash_cons in Hx. discriminate.
  - inversion H; subst d. f_equal. rewrite has_slash_cons in Hx, Hy.
    apply orb_false_elim in Hx as [_ Hx]. apply orb_false_elim in Hy as [_ Hy].
    by apply IH.
Qed.

(** *** The CIDR string of a subnet starts with the key of its address *)

Lemma To4_len ip :
  net.len (net.To4 ip) = 0 \/ (net.len (net.To4 ip) = net.IPv4len).
Proof.
  unfold net.To4. destruct (Z.eqb_spec (net.len ip) net.IPv4len) as [E|E]; [by right|].
  destruct (Z.eqb_spec (net.len ip) net.IPv6len) as [E6|E6]; simpl; [|by left].
  destruct (_ && _ && _); [|by left]. right.
  unfold net.len in *. rewrite length_skipn. unfold net.IPv6len, net.IPv4len in *. lia.
Qed.

Lemma To4_idem ip : net.len ip = net.IPv4len -> net.To4 ip = ip.
Proof. intros H. unfold net.To4. by rewrite H. Qed.

Lemma IP_String_To4 ip :
  net.len (net.To4 ip) <> 0 -> net.IP_String (net.To4 ip) = net.IP_String ip.
Proof.
  intros Hne. destruct (To4_len ip) as [E|E]; [done|].
  unfold net.IP_String. rewrite (To4_idem _ E), E.
  assert (Hip : net.len ip <> 0).
  { intros H0. destruct ip; [|discriminate]. done. }
  apply Z.eqb_neq in Hip. rewrite Hip. done.
Qed.

Lemma IPNet_String_shape ip mask :
  net.IPNet_String (net.mkIPNet ip mask) = "<nil>"
  \/ exists suffix,
       net.IPNet_String (net.mkIPNet ip mask) = net.IP_String ip ++ "/" ++ suffix.
Proof.
  unfold net.IPNet_String.
  destruct (net.networkNumberAndMask (net.mkIPNet ip mask)) as [[nn m]|] eqn:E;
    [|by left]. right.
  assert (Hnn : net.IP_String nn = net.IP_String ip).
  { unfold net.networkNumberAndMask in E. simpl in E.
    destruct (Z.eqb_spec (net.len (net.To4 ip)) 0) as [E0|E0].
    - destruct (net.len ip =? net.IPv6len); [|discriminate].
      destruct (net.len mask =? net.IPv4len).
      { destruct (net.len ip =? net.IPv4len); inversion E; done. }
      destruct (net.len mask =? net.IPv6len); [|discriminate].
      destruct (net.len ip =? net.IPv4len); inversion E; done.
    - destruct (net.len mask =? net.IPv4len).
      { destruct (net.len (net.To4 ip) =? net.IPv4len); inversion E; subst.
        by apply IP_String_To4. }
      destruct (net.len mask =? net.IPv6len); [|discriminate].
      destruct (net.len (net.To4 ip) =? net.IPv4len); inversion E; subst;
        by apply IP_String_To4. }
  rewrite Hnn. destruct (net.simpleMaskLength m =? -1); eauto.
Qed.

Lemma has_slash_inserted (x s : string) : has_slash (x ++ "/" ++ s) = true.
Proof.
  rewrite !has_slash_app. change (has_slash "/") with true.
  by rewrite orb_true_r.
Qed.

(** *** Distinct keys, distinct identities *)

Lemma NoDup_map_transfer {A B C} (f : A -> B) (g : A -> C) (l : list A) :
  (forall a b, a ∈ l -> b ∈ l -> g a = g b -> f a = f b) ->
  NoDup (map f l) -> NoDup (map g l).
Proof.
  induction l as [|x l IH]; intros Hinj Hnd; simpl in *; [constructor|].
  apply NoDup_cons in Hnd as [Hx Hnd]. apply NoDup_cons. split.
  - intros Hin. apply Hx. apply list_elem_of_fmap in Hin as (y & Hy & Hyl).
    apply list_elem_of_fmap. exists y. split; [|done].
    apply Hinj; [left|by right|done].
  - apply IH; [|done]. intros a b Ha Hb. apply Hinj; by right.
Qed.

Lemma identity_shape st n :
  wf st -> in_table st n ->
  (Kind_of n <> KindNetwork /\ identity n = node_key n)
  \/ (Kind_of n = KindNetwork
      /\ (identity n = "<nil>"
          \/ exists suffix, identity n = node_key n ++ "/" ++ suffix)).
Proof.
  intros Hwf Hn. destruct (decide (Kind_of n = KindNetwork)) as [HK|HK].
  - right. split; [done|]. destruct (wf_net _ Hwf _ Hn HK) as [mask Hs].
    unfold identity. rewrite HK, Hs. apply IPNet_String_shape.
  - left. split; [done|]. unfold identity, node_key. by destruct (Kind_of n).
Qed.

(** In a list the function returns, the Network-kind nodes whose CIDR
    string is the nil string ["<nil>"] are the only ones whose identity
    can repeat. *)
Lemma identity_injective st a b :
  wf st -> in_table st a -> in_table st b ->
  (Kind_of a = KindNetwork -> identity a <> "<nil>") ->
  (Kind_of b = KindNetwork -> identity b <> "<nil>") ->
  identity a = identity b -> node_key a = node_key b.
Proof.
  intros Hwf Ha Hb Hna Hnb E.
  pose proof (IP_String_no_slash (Ip a)) as Hsa.
  pose proof (IP_String_no_slash (Ip b)) as Hsb.
  fold (node_key a) in Hsa. fold (node_key b) in Hsb.
  destruct (identity_shape _ _ Hwf Ha) as [[Ka Ia]|[Ka [Ia|[sa Ia]]]];
    destruct (identity_shape _ _ Hwf Hb) as [[Kb Ib]|[Kb [Ib|[sb Ib]]]];
    try (by destruct (Hna Ka)); try (by destruct (Hnb Kb)).
  - congruence.
  - exfalso. rewrite Ia, Ib in E. rewrite E, has_slash_inserted in Hsa.
    discriminate.
  - exfalso. rewrite Ia, Ib in E. rewrite <- E, has_slash_inserted in Hsb.
    discriminate.
  - rewrite Ia, Ib in E. by eapply slash_split.
Qed.

(** Read by the CIDR string, two subnets with a prefix length that no
    mask of their family has share the identity ["<nil>"]. *)
Lemma identities_repeat : ~ identities_distinct.
Proof.
  intros H.
  destruct (getHetznerData_run sample.bad_masks) as [l| |] eqn:E;
    [|vm_compute in E; discriminate..].
  specialize (H _ _ (getHetznerData_run_sound _ _ E)).
  vm_compute in E. inversion E; subst l. clear E.
  vm_compute in H.
  apply NoDup_cons in H as [_ H]. apply NoDup_cons in H as [H _].
  apply H. left.
Qed.

(** C7, as the code has it.  In every list the function returns the
    table keys of the nodes, the strings of their addresses (for a
    Network-kind node the network address of the subnet, without the prefix
    length), are pairwise distinct.  Reading Network-kind nodes by their
    CIDR string instead gives pairwise distinct identities as long as none
    of these strings is the nil string, which is what a subnet record with a
    prefix length outside its address family, or without an address,
    yields. *)
Theorem node_keys_distinct (raw : RawData) (l : list Node) :
  getHetznerData raw l ->
  NoDup (map node_key l)
  /\ ((forall n, n ∈ l -> Kind_of n = KindNetwork -> identity n <> "<nil>") ->
      NoDup (map identity l)).
Proof.
  intros Hout.
  destruct (getHetznerData_elem _ _ Hout) as (st & _ & Hwf & Hp & _ & Hel).
  assert (Hk : NoDup (map node_key l)).
  { rewrite <- Hp. by apply table_nodes_NoDup_keys. }
  split; [exact Hk|]. intros Hnil.
  apply (NoDup_map_transfer node_key identity); [|exact Hk].
  intros a b Ha Hb. apply (identity_injective st); auto; by apply Hel.
Qed.

Lemma node_keys_distinct_witness :
  exists l, getHetznerData sample.full l
            /\ NoDup (map node_key l) /\ NoDup (map identity l).
Proof.
  destruct (getHetznerData_run sample.full) as [l| |] eqn:E;
    [|vm_compute in E; discriminate..].
  pose proof (getHetznerData_run_sound _ _ E) as Hout.
  destruct (node_keys_distinct sample.full l Hout) as [Hk Hi].
  exists l. split; [exact Hout|]. split; [exact Hk|]. apply Hi.
  clear Hout Hk Hi. vm_compute in E. inversion E; subst l. clear E.
  intros n Hn HK.
  repeat (apply elem_of_cons in Hn as [->|Hn];
          [first [discriminate HK | vm_compute; discriminate]|]).
  by apply elem_of_nil in Hn.
Defined.

(** ** C8: a paid-until string that does not parse *)

Lemma Parse_date_error s : parses s = false -> fst (time.Parse_date s) = time.zero.
Proof.
  unfold parses. destruct (time.Parse_date s) as [t [err|]] eqn:E; simpl;
    [intros _|discriminate].
  unfold time.Parse_date in E.
  repeat match type of E with
         | context [match ?x with _ => _ end] => destruct x
         end; by inversion E.
Qed.

(** *** The passes do not read the paid-until date *)

Lemma erase_lookup st p : heap (erase_paid st) !! p = zp <$> heap st !! p.
Proof. simpl. apply list_lookup_fmap. Qed.

Lemma erase_deref st p : deref (erase_paid st) p = rmap zp (deref st p).
Proof. unfold deref. rewrite erase_lookup. by destruct (heap st !! p). Qed.

Lemma erase_insert st n :
  insert_node_st (erase_paid st) (zp n) = erase_paid (insert_node_st st n).
Proof.
  unfold insert_node_st, erase_paid, store, alloc. simpl.
  by rewrite fmap_app, length_fmap.
Qed.

Lemma erase_push p st : push_subnet p (erase_paid st) = erase_paid (push_subnet p st).
Proof. reflexivity. Qed.

Lemma erase_modify st p f :
  (forall n, f (zp n) = zp (f n)) ->
  modify p f (erase_paid st) = erase_paid (modify p f st).
Proof.
  intros Hf. unfold modify. rewrite erase_lookup.
  destruct (heap st !! p) as [n|]; simpl; [|done].
  unfold erase_paid. simpl. by rewrite list_fmap_insert, Hf.
Qed.

Lemma erase_alloc_snd st n m : (alloc (erase_paid st) n).2 = (alloc st m).2.
Proof. simpl. apply length_fmap. Qed.

Lemma rmap_bind (g : state -> state) (k : state -> result state) (r : result state) :
  (forall s, k (g s) = rmap g (k s)) ->
  rmap g (s ← r; k s) = (s ← rmap g r; k s).
Proof. intros Hk. destruct r; simpl; auto. Qed.

Lemma forM_commute {A} (g : state -> state) (f : state -> A -> result state) :
  (forall s e, f (g s) e = rmap g (f s e)) ->
  forall l s, forM f l (g s) = rmap g (forM f l s).
Proof.
  intros Hf l. induction l as [|e l IH]; intros s; simpl; [done|].
  rewrite Hf. destruct (f s e); simpl; auto.
Qed.

Lemma erase_ip_step st e : ip_step (erase_paid st) e = rmap erase_paid (ip_step st e).
Proof.
  unfold ip_step. change (nodes (erase_paid st)) with (nodes st).
  destruct (nodes st !! api.IP_String (api.Ip_Ip e)) as [p|].
  - rewrite !bind_Ok_l, erase_deref. destruct (deref st p); simpl; auto.
    by rewrite erase_modify.
  - destruct (nodes st !! api.IP_String (api.Ip_Server_ip e)) as [hp|]; [|done].
    rewrite erase_deref. destruct (deref st hp) as [host| |]; simpl; auto.
    destruct (negb (net.Equal (Ip host) (api.Ip_Ip e))); simpl.
    + change (management_node e (zp host)) with (zp (management_node e host)).
      rewrite erase_insert, length_fmap, erase_deref.
      destruct (deref _ _); simpl; auto. by rewrite erase_modify.
    + rewrite erase_deref. destruct (deref st hp); simpl; auto.
      by rewrite erase_modify.
Qed.

Lemma erase_subnet_step st e :
  subnet_step (erase_paid st) e = rmap erase_paid (subnet_step st e).
Proof.
  unfold subnet_step. change (nodes (erase_paid st)) with (nodes st).
  destruct (nodes st !! api.IP_String (api.Subnet_Ip e)); [done|].
  destruct (nodes st !! api.IP_String (api.Subnet_Server_ip e)) as [sp|]; [|done].
  rewrite erase_deref. destruct (deref st sp) as [server| |]; simpl; auto.
  change (subnet_node e (zp server)) with (zp (subnet_node e server)).
  rewrite erase_insert. simpl. by rewrite length_fmap.
Qed.

Lemma erase_scan_subnets st ip ptr ss :
  scan_subnets (erase_paid st) ip ptr ss
  = rmap erase_paid (scan_subnets st ip ptr ss).
Proof.
  induction ss as [|sp ss IH]; [done|]. simpl scan_subnets.
  rewrite erase_deref. destruct (deref st sp) as [s| |]; simpl; auto.
  destruct (Subnet s) as [sn|]; simpl; auto.
  destruct (net.Contains sn ip); [|exact IH].
  destruct (nodes st !! net.IP_String (Server_ip s)) as [hp|]; simpl; auto.
  rewrite erase_deref. destruct (deref st hp) as [host| |]; simpl; auto.
  change (virtual_node ip ptr (zp host)) with (zp (virtual_node ip ptr host)).
  by rewrite erase_insert.
Qed.

Lemma erase_rdns_step st e :
  rdns_step (erase_paid st) e = rmap erase_paid (rdns_step st e).
Proof.
  unfold rdns_step. change (nodes (erase_paid st)) with (nodes st).
  change (subnets (erase_paid st)) with (subnets st).
  destruct (nodes st !! net.IP_String (api.Rdns_Ip e)) as [p|].
  - rewrite erase_deref. destruct (deref st p); simpl; auto.
    by rewrite erase_modify.
  - apply erase_scan_subnets.
Qed.

Lemma erase_failover_step st e :
  failover_step (erase_paid st) e = rmap erase_paid (failover_step st e).
Proof.
  unfold failover_step. change (nodes (erase_paid st)) with (nodes st).
  destruct (nodes st !! api.IP_String (api.Failover_Ip e)) as [p|]; [|done].
  rewrite erase_deref. destruct (deref st p) as [n| |]; simpl; auto.
  destruct (negb _); simpl; auto. by rewrite erase_modify.
Qed.

Lemma erase_host_step st st' e e' :
  erase_paid st = erase_paid st' -> same_but_paid e e' ->
  erase_paid (insert_node_st st (host_node e))
  = erase_paid (insert_node_st st' (host_node e')).
Proof.
  intros Hst He. rewrite <- !erase_insert, Hst. f_equal.
  rewrite He. reflexivity.
Qed.

Lemma erase_host_pass l l' st st' :
  Forall2 same_but_paid l l' -> erase_paid st = erase_paid st' ->
  rmap erase_paid (host_pass l st) = rmap erase_paid (host_pass l' st').
Proof.
  intros Hl. revert st st'. unfold host_pass.
  induction Hl as [|e e' l l' He Hl IH]; intros st st' Hst; simpl.
  - by rewrite Hst.
  - apply IH. by apply erase_host_step.
Qed.

(** The run is the same, up to the paid-until dates of the nodes, for two
    inputs that differ in the paid-until strings of the servers only. *)
Lemma build_nodes_paid_until raw raw' :
  Forall2 same_but_paid (rservers raw) (rservers raw') ->
  rips raw' = rips raw -> rsubnets raw' = rsubnets raw ->
  rrdns raw' = rrdns raw -> rfailover raw' = rfailover raw ->
  rmap erase_paid (build_nodes raw) = rmap erase_paid (build_nodes raw').
Proof.
  intros Hs Hi Hn Hr Hf. unfold build_nodes. rewrite Hi, Hn, Hr, Hf.
  assert (Hk : forall s,
    (st2 ← ip_pass (rips raw) (erase_paid s);
     st3 ← subnet_pass (rsubnets raw) st2;
     st4 ← rdns_pass (rrdns raw) st3; failover_pass (rfailover raw) st4)
    = rmap erase_paid
        (st2 ← ip_pass (rips raw) s;
         st3 ← subnet_pass (rsubnets raw) st2;
         st4 ← rdns_pass (rrdns raw) st3; failover_pass (rfailover raw) st4)).
  { intros s. unfold ip_pass, subnet_pass, rdns_pass, failover_pass.
    rewrite (forM_commute erase_paid ip_step erase_ip_step).
    rewrite (rmap_bind erase_paid); [done|]. intros s2.
    rewrite (forM_commute erase_paid subnet_step erase_subnet_step).
    rewrite (rmap_bind erase_paid); [done|]. intros s3.
    rewrite (forM_commute erase_paid rdns_step erase_rdns_step).
    rewrite (rmap_bind erase_paid); [done|]. intros s4.
    apply (forM_commute erase_paid failover_step erase_failover_step). }
  rewrite !(rmap_bind erase_paid) by exact Hk.
  by rewrite (erase_host_pass _ _ empty_state empty_state Hs).
Qed.

Lemma is_Ok_rmap {A B} (g : A -> B) (r : result A) : is_Ok (rmap g r) = is_Ok r.
Proof. by destruct r. Qed.

(** C8. A server record whose paid-until string does not parse as a
    date: the host pass does not fail at it and stores the Host-kind node
    under the key of the main address; the paid-until field of the node is
    the zero date and every other field is what it would be with any other
    paid-until string [s], a well-formed one included; and the whole run
    ends as it would with [s] in place of the string, with the same panic
    or with the same table and cells up to paid-until dates. *)
Theorem paid_until_tolerant (raw : RawData) (pre post : list api.Server)
    (e : api.Server) (s : string) :
  rservers raw = (pre ++ e :: post)%list ->
  parses (api.Paid_until e) = false ->
  let raw' := mkRawData (pre ++ with_Paid_until s e :: post)%list (rips raw)
                (rsubnets raw) (rrdns raw) (rfailover raw) in
  (forall st,
     host_step st e = Ok (insert_node_st st (host_node e))
     /\ nodes (insert_node_st st (host_node e))
          !! net.IP_String (api.Server_ip e) = Some (length (heap st))
     /\ heap (insert_node_st st (host_node e)) !! length (heap st)
        = Some (host_node e))
  /\ Kind_of (host_node e) = KindHost
  /\ Paid_until (host_node e) = time.zero
  /\ host_node e = set_Paid_until time.zero (host_node (with_Paid_until s e))
  /\ rmap erase_paid (build_nodes raw) = rmap erase_paid (build_nodes raw')
  /\ is_Ok (build_nodes raw) = is_Ok (build_nodes raw').
Proof.
  intros Hl Hp raw'.
  assert (Hz : Paid_until (host_node e) = time.zero).
  { simpl. by apply Parse_date_error. }
  assert (Hrun : rmap erase_paid (build_nodes raw) = rmap erase_paid (build_nodes raw')).
  { apply build_nodes_paid_until; try reflexivity. rewrite Hl. simpl.
    apply Forall2_app; [apply Forall2_same_length_lookup_2; [done|]|].
    - intros i x y Hx Hy. rewrite Hx in Hy. inversion Hy; subst y.
      unfold same_but_paid. by destruct x.
    - constructor; [reflexivity|]. apply Forall2_same_length_lookup_2; [done|].
      intros i x y Hx Hy. rewrite Hx in Hy. inversion Hy; subst y.
      unfold same_but_paid. by destruct x. }
  split.
  { intros st. split; [reflexivity|]. apply (insert_node_st_new st (host_node e)). }
  split; [reflexivity|]. split; [exact Hz|]. split.
  { unfold host_node in *. simpl in *. by rewrite Hz. }
  split; [exact Hrun|].
  rewrite <- (is_Ok_rmap erase_paid (build_nodes raw)), Hrun. apply is_Ok_rmap.
Qed.

Lemma paid_until_tolerant_witness :
  parses "unknown" = false
  /\ Paid_until (host_node (with_Paid_until "unknown" sample.server)) = time.zero
  /\ is_Ok (build_nodes sample.undated) = true.
Proof.
  destruct (paid_until_tolerant sample.undated [] []
              (with_Paid_until "unknown" sample.server) "2014-03-01"
              eq_refl eq_refl) as (_ & _ & Hz & _ & _ & Hok).
  split; [reflexivity|]. split; [exact Hz|]. rewrite Hok. vm_compute. reflexivity.
Defined.

(** ** C9: the owner lookup of the subnet pass *)

(** With "Host node" read as a node of kind Host the precondition is
    too strong: a subnet routed to a further address of the host finds
    the Management-kind node under its owner's key, and the pass clones
    it without a crash. *)
Lemma subnet_pass_clones_non_Host : ~ subnet_pass_needs_Host.
Proof.
  intros H.
  destruct (reach_subnet sample.subnet_of_ip []) as [st| |] eqn:Hr;
    [|vm_compute in Hr; discriminate..].
  specialize (H sample.subnet_of_ip []
                (sample.routed sample.net_10_1_0_0 24 sample.ip_10_0_0_2 false)
                [] st eq_refl Hr).
  vm_compute in Hr. inversion Hr; subst st. clear Hr.
  assert (E : is_Ok (build_nodes sample.subnet_of_ip) = true) by (vm_compute; reflexivity).
  rewrite H in E; [discriminate|].
  intros (p & h & Hp & Hh & HK). vm_compute in Hp. inversion Hp; subst p.
  vm_compute in Hh. inversion Hh; subst h. discriminate.
Qed.

(** C9, as the code has it.  For a record of the subnet pass: if a node
    is stored under the key of the subnet's address the run aborts with
    the panic "subnet conflicted"; otherwise the pass needs a node, of
    whatever kind, under the key of the owner's main address.  If there is
    none, the lookup yields nil, the clone reads through it and the run
    ends in a nil dereference, which is no panic with a message; if there
    is one, the pass goes on.  So a run that returns a table has found a
    node under the owner's key of every subnet record. *)
Theorem subnet_pass_owner_lookup (raw : RawData) (pre post : list api.Subnet)
    (e : api.Subnet) (st : state) :
  rsubnets raw = (pre ++ e :: post)%list ->
  reach_subnet raw pre = Ok st ->
  (node_at st (api.Subnet_Ip e) ->
     build_nodes raw
     = Panic ("subnet conflicted with node " ++ net.IP_String (api.Subnet_Ip e)))
  /\ (~ node_at st (api.Subnet_Ip e) -> ~ node_at st (api.Subnet_Server_ip e) ->
        subnet_step st e = NilDeref
        /\ build_nodes raw = NilDeref
        /\ forall msg, build_nodes raw <> Panic msg)
  /\ (~ node_at st (api.Subnet_Ip e) -> node_at st (api.Subnet_Server_ip e) ->
        exists st', reach_subnet raw (pre ++ [e]) = Ok st')
  /\ (is_Ok (build_nodes raw) = true -> node_at st (api.Subnet_Server_ip e)).
Proof.
  intros Hl Hr. pose proof (wf_reach_subnet _ _ _ Hr) as Hwf.
  assert (Hconf : node_at st (api.Subnet_Ip e) ->
            build_nodes raw
            = Panic ("subnet conflicted with node " ++ net.IP_String (api.Subnet_Ip e))).
  { intros [p Hp]. rewrite (reach_subnet_abort _ _ _ _ _ Hl Hr);
      rewrite (subnet_step_conflict _ _ _ Hp); done. }
  assert (Hnil : ~ node_at st (api.Subnet_Ip e) ->
            ~ node_at st (api.Subnet_Server_ip e) ->
            subnet_step st e = NilDeref /\ build_nodes raw = NilDeref).
  { intros Hk Ho. unfold node_at in Hk, Ho.
    rewrite <- eq_None_not_Some in Hk, Ho.
    pose proof (subnet_step_no_owner _ _ Hk Ho) as Hstep. split; [done|].
    rewrite (reach_subnet_abort _ _ _ _ _ Hl Hr); rewrite Hstep; done. }
  split; [exact Hconf|]. split; [|split].
  - intros Hk Ho. destruct (Hnil Hk Ho) as [H1 H2]. split; [done|].
    split; [done|]. intros msg. rewrite H2. discriminate.
  - intros Hk [sp Ho]. unfold node_at in Hk. rewrite <- eq_None_not_Some in Hk.
    destruct (wf_key _ Hwf _ _ Ho) as (server & Hs & _).
    eexists. unfold reach_subnet in *. apply bind_Ok in Hr as (st2 & H2 & H3).
    rewrite H2. simpl. unfold subnet_pass in *.
    rewrite (forM_snoc _ _ _ _ _ H3). by eapply subnet_step_new.
  - intros Hok. destruct (nodes st !! net.IP_String (api.Subnet_Server_ip e)) as [sp|] eqn:Ho;
      [by exists sp|]. exfalso.
    destruct (nodes st !! net.IP_String (api.Subnet_Ip e)) as [p|] eqn:Hk.
    + rewrite Hconf in Hok; [discriminate|by exists p].
    + destruct Hnil as [_ H2].
      * unfold node_at. rewrite Hk. by intros [? ?].
      * unfold node_at. rewrite Ho. by intros [? ?].
      * rewrite H2 in Hok. discriminate.
Qed.

Lemma subnet_pass_owner_lookup_witness :
  build_nodes sample.orphan_subnet = NilDeref.
Proof.
  destruct (reach_subnet sample.orphan_subnet []) as [st| |] eqn:Hr;
    [|vm_compute in Hr; discriminate..].
  destruct (subnet_pass_owner_lookup sample.orphan_subnet [] []
              (sample.routed sample.net_10_1_0_0 24 sample.ip_10_0_0_2 false)
              st eq_refl Hr) as (_ & H & _).
  destruct H as (_ & H & _); [| |exact H].
  - concrete Hr. intros [p Hp]. vm_compute in Hp. discriminate.
  - concrete Hr. intros [p Hp]. vm_compute in Hp. discriminate.
Defined.

(** ** C10: [Client.do] with a nil response *)

Lemma is_Ok_bind_Ok {A B} (r : result A) (k : A -> result B) :
  (forall a, is_Ok (k a) = true) -> is_Ok (a ← r; k a) = is_Ok r.
Proof. intros Hk. destruct r; simpl; auto. Qed.

(** The transport may return a response together with its error, and
    [do] then returns the [RequestError] that wraps the error. *)
Lemma do_wraps_error_with_response : ~ do_loses_every_transport_error.
Proof.
  intros H.
  specialize (H unit
    (fun _ => (Some (client.mkResponse 302 ""),
               Some (client.TransportError "stopped after 10 redirects")))
    (fun _ => inl ∅) (fun _ => inl ∅) (fun _ => inl [])
    "server" (client.mkRequest "GET" "/server") client.PtrValue
    (client.TransportError "stopped after 10 redirects") eq_refl).
  discriminate H.
Qed.

(** C10. When the transport returns a nil response, [do] reads through
    the nil pointer for the deferred [Body.Close] and ends in a nil
    dereference, whatever the error is: it returns neither the
    [RequestError] that wraps the transport's error nor anything else.
    So [do] returns only when the response is not nil.  With a response
    and a transport error it does return the [RequestError] made of the
    request's method and path, the status code and the error.  With a
    response and no error it returns exactly when [decodeResponse]
    does: for a status other than 200 on the envelope of an [Error], for
    the status 200 on [v]. *)
Theorem do_needs_response {T : Type}
    (http_Do : client.Request -> option client.Response * option client.error)
    (json_error : client.Response -> gmap string client.Error + client.error)
    (json_value : client.Response -> gmap string T + client.error)
    (json_slice : client.Response -> list (gmap string T) + client.error)
    (key : string) (req : client.Request) (v : client.pointer) :
  (forall err, http_Do req = (None, err) ->
     client.do http_Do json_error json_value json_slice key req v = NilDeref
     /\ forall e,
          client.do http_Do json_error json_value json_slice key req v
          <> Ok (inr e))
  /\ (is_Ok (client.do http_Do json_error json_value json_slice key req v) = true
      -> fst (http_Do req) <> None)
  /\ (forall r e, http_Do req = (Some r, Some e) ->
        client.do http_Do json_error json_value json_slice key req v
        = Ok (inr (client.RequestError (client.Method req) (client.URL_Path req)
                     (client.StatusCode r) e)))
  /\ (forall r, http_Do req = (Some r, None) ->
        is_Ok (client.do http_Do json_error json_value json_slice key req v)
        = if negb (client.StatusCode r =? client.StatusOK)
          then is_Ok (client.decode_value json_error "error" r)
          else is_Ok (client.decodeResponse json_value json_slice key r v)).
Proof.
  unfold client.do. split; [|split; [|split]].
  - intros err H. rewrite H. split; [done|]. intros e. discriminate.
  - destruct (http_Do req) as [[r|] err]; simpl; [discriminate|]. discriminate.
  - intros r e H. by rewrite H.
  - intros r H. rewrite H.
    destruct (negb (client.StatusCode r =? client.StatusOK)).
    + apply is_Ok_bind_Ok. by intros [c|e].
    + apply is_Ok_bind_Ok. by intros [c|e].
Qed.

Lemma do_needs_response_witness :
  client.do (T := unit)
    (fun _ => (None, Some (client.TransportError "dial tcp: connection refused")))
    (fun _ => inl ∅) (fun _ => inl ∅) (fun _ => inl []) "server"
    (client.mkRequest "GET" "/server") client.PtrValue
  = NilDeref.
Proof.
  destruct (do_needs_response (T := unit)
              (fun _ => (None, Some (client.TransportError "dial tcp: connection refused")))
              (fun _ => inl ∅) (fun _ => inl ∅) (fun _ => inl []) "server"
              (client.mkRequest "GET" "/server") client.PtrValue) as (H & _).
  destruct (H _ eq_refl) as [H1 _]. exact H1.
Defined.

(** * Further properties of the code *)

(** ** [unbrace] *)

Lemma substring_all (s t : string) : substring 0 (String.length s) (s ++ t) = s.
Proof.
  induction s as [|c s IH]; simpl.
  - by destruct t.
  - by rewrite IH.
Qed.

Lemma length_append (s t : string) :
  String.length (s ++ t) = (String.length s + String.length t)%nat.
Proof. induction s as [|c s IH]; simpl; [done|]. by rewrite IH. Qed.

(** X1. A string of two bytes or more that starts with a single or a double
    quote loses its first and its last byte, whatever the last byte is:
    the closing quote is not looked at. *)
Theorem unbrace_quoted (q c : ascii) (s : string) :
  q = squote \/ q = dquote ->
  unbrace (String q (s ++ String c "")) = s
  /\ String.length (unbrace (String q (s ++ String c "")))
     = (String.length (String q (s ++ String c "")) - 2)%nat.
Proof.
  intros Hq.
  assert (H : unbrace (String q (s ++ String c "")) = s).
  { unfold unbrace. cbn [String.length String.get].
    rewrite length_append. cbn [String.length].
    assert (Hb : (Ascii.eqb q squote || Ascii.eqb q dquote) = true).
    { destruct Hq as [-> | ->]; reflexivity. }
    rewrite Hb.
    replace (1 <? S (String.length s + 1))%nat with true
      by (symmetry; apply Nat.ltb_lt; lia).
    cbn [andb substring].
    replace (S (String.length s + 1) - 2)%nat with (String.length s) by lia.
    apply substring_all. }
  split; [exact H|]. rewrite H. cbn [String.length]. rewrite length_append.
  cbn [String.length]. lia.
Qed.

Lemma unbrace_quoted_witness : unbrace "'secret'" = "secret" /\ unbrace "'ab" = "a".
Proof.
  split.
  - exact (proj1 (unbrace_quoted squote "'" "secret" (or_introl eq_refl))).
  - exact (proj1 (unbrace_quoted squote "b" "a" (or_introl eq_refl))).
Defined.

(** X2. Every other string is returned as it is: the empty string, a string
    of one byte (a lone quote included), and a string whose first byte is
    no quote. *)
Theorem unbrace_unchanged (s : string) :
  (String.length s <= 1)%nat
  \/ (forall c, String.get 0 s = Some c -> c <> squote /\ c <> dquote) ->
  unbrace s = s.
Proof.
  intros [Hlen|Hq]; unfold unbrace.
  - replace (1 <? String.length s)%nat with false; [done|].
    symmetry. apply Nat.ltb_ge. lia.
  - destruct (String.get 0 s) as [c|] eqn:E; [|by rewrite andb_false_r].
    destruct (Hq c eq_refl) as [H1 H2].
    apply Ascii.eqb_neq in H1, H2. by rewrite H1, H2, andb_false_r.
Qed.

Lemma unbrace_unchanged_witness : unbrace "'" = "'" /\ unbrace "a'b'" = "a'b'".
Proof.
  split.
  - apply unbrace_unchanged. left. simpl. lia.
  - apply unbrace_unchanged. right. intros c H. inversion H. split; discriminate.
Defined.

(** ** [Kind.String] and the [-kinds] switch *)

(** X3. The names the switch of [main] accepts are the lower-case forms of
    what [String] prints for the five kinds a node can have, and each
    selects the kind it names; the name of the nil kind is not accepted,
    and [String] prints different kinds differently. *)
Theorem kind_names_agree (k k' : Kind) (s : string) :
  (kind_of_name s = Some k <-> k <> KindNil /\ s = ToLower (Kind_String k))
  /\ (Kind_String k = Kind_String k' -> k = k').
Proof.
  split; [split|].
  - unfold kind_of_name.
    repeat (match goal with
            | |- context [String.eqb s ?t] => destruct (String.eqb_spec s t); [subst|]
            end);
      intros H; inversion H; subst; split; try discriminate; reflexivity.
  - intros [Hk ->]. destruct k; try reflexivity. by destruct Hk.
  - destruct k, k'; try reflexivity; discriminate.
Qed.

Lemma kind_names_agree_witness : kind_of_name "failover" = Some KindFailover.
Proof.
  apply (proj1 (kind_names_agree KindFailover KindNil "failover")).
  split; [discriminate|reflexivity].
Defined.

(** ** [Nodes.Swap] *)

(** X4. With both indices inside the slice [Swap] exchanges the two elements
    and touches no other: the result is a rearrangement of the same
    length, and swapping again restores the slice.  With an index outside
    the slice it panics. *)
Theorem Swap_exchanges (n : list Node) (i j : Z) :
  (0 <= i < Len n -> 0 <= j < Len n ->
     exists a b n',
       n !! Z.to_nat i = Some a /\ n !! Z.to_nat j = Some b
       /\ Swap n i j = Ok n'
       /\ n' !! Z.to_nat i = Some b /\ n' !! Z.to_nat j = Some a
       /\ (forall k, k <> Z.to_nat i -> k <> Z.to_nat j -> n' !! k = n !! k)
       /\ Permutation n n' /\ Len n' = Len n
       /\ Swap n' i j = Ok n)
  /\ (~ (0 <= i < Len n /\ 0 <= j < Len n) -> Swap n i j = Panic index_msg).
Proof.
  unfold Len. split.
  - intros Hi Hj.
    assert (Hli : (Z.to_nat i < length n)%nat) by lia.
    assert (Hlj : (Z.to_nat j < length n)%nat) by lia.
    destruct (lookup_lt_is_Some_2 _ _ Hli) as [a Ha].
    destruct (lookup_lt_is_Some_2 _ _ Hlj) as [b Hb].
    set (n' := <[Z.to_nat j := a]> (<[Z.to_nat i := b]> n)).
    assert (Hlen : length n' = length n) by (unfold n'; by rewrite !length_insert).
    assert (Hs : forall m x y, m !! Z.to_nat i = Some x -> m !! Z.to_nat j = Some y ->
              length m = length n ->
              Swap m i j = Ok (<[Z.to_nat j := x]> (<[Z.to_nat i := y]> m))).
    { intros m x y Hx Hy Hm. unfold Swap, Len. rewrite Hm, Hx, Hy.
      replace ((0 <=? i) && (i <? Z.of_nat (length n)) && (0 <=? j)
               && (j <? Z.of_nat (length n))) with true; [done|].
      symmetry. rewrite !andb_true_iff, !Z.leb_le, !Z.ltb_lt. lia. }
    assert (Hi' : n' !! Z.to_nat i = Some b).
    { unfold n'. destruct (decide (Z.to_nat j = Z.to_nat i)) as [E|E].
      - rewrite E, list_lookup_insert_eq by (by rewrite length_insert).
        rewrite E in Hb. congruence.
      - rewrite list_lookup_insert_ne by done. by apply list_lookup_insert_eq. }
    assert (Hj' : n' !! Z.to_nat j = Some a).
    { unfold n'. apply list_lookup_insert_eq. by rewrite length_insert. }
    exists a, b, n'. split; [done|]. split; [done|]. split; [by apply Hs|].
    split; [done|]. split; [done|]. split.
    { intros k Hki Hkj. unfold n'. by rewrite !list_lookup_insert_ne. }
    split; [symmetry; by apply Permutation_insert_swap|]. split; [lia|].
    rewrite (Hs n' b a Hi' Hj' Hlen). f_equal. unfold n'.
    apply list_eq. intros k.
    destruct (decide (k = Z.to_nat j)) as [->|Hkj].
    { rewrite list_lookup_insert_eq by (by rewrite !length_insert). done. }
    rewrite list_lookup_insert_ne by done.
    destruct (decide (k = Z.to_nat i)) as [->|Hki].
    { rewrite list_lookup_insert_eq by (by rewrite !length_insert). done. }
    by rewrite !list_lookup_insert_ne.
  - intros Hno. unfold Swap, Len.
    replace ((0 <=? i) && (i <? Z.of_nat (length n)) && (0 <=? j)
             && (j <? Z.of_nat (length n))) with false; [done|].
    symmetry. apply not_true_iff_false. rewrite !andb_true_iff, !Z.leb_le, !Z.ltb_lt.
    lia.
Qed.

Lemma Swap_exchanges_witness :
  exists n',
    Swap [sample.host_n; sample.management_n; sample.virtual_n] 0 2 = Ok n'
    /\ n' !! 0%nat = Some sample.virtual_n
    /\ Swap n' 0 2 = Ok [sample.host_n; sample.management_n; sample.virtual_n].
Proof.
  destruct (Swap_exchanges [sample.host_n; sample.management_n; sample.virtual_n] 0 2)
    as [H _].
  destruct H as (a & b & n' & Ha & Hb & Hs & Hi & _ & _ & _ & _ & Hback);
    [unfold Len; simpl; lia..|].
  exists n'. split; [exact Hs|]. split; [|exact Hback].
  simpl in Hb. inversion Hb; subst b. exact Hi.
Defined.

(** ** The fetch of [getHetznerData] *)

Lemma first_error_None errc : first_error errc = None <-> Forall (eq None) errc.
Proof.
  induction errc as [|[e|] errc IH]; simpl.
  - split; [constructor|done].
  - split; [discriminate|]. intros H. apply Forall_cons in H as [H _]. discriminate.
  - rewrite IH. split; [by constructor|]. intros H. by apply Forall_cons in H as [_ H].
Qed.

Lemma first_error_Some errc e : first_error errc = Some e -> Some e ∈ errc.
Proof.
  induction errc as [|[e'|] errc IH]; simpl; intros H; [discriminate| |].
  - inversion H. left.
  - right. by apply IH.
Qed.

(** X5. When the five requests succeed the function returns what the
    reconciler returns.  When one or more fail it returns an error and no
    nodes, the error being one a request returned; which one is not fixed:
    every failure can be the one reported. *)
Theorem fetch_reports_a_failure (gets : list (option client.error)) (raw : RawData) :
  (forall r, getHetznerData_fetch gets raw r ->
     (Forall (eq None) gets -> exists l, r = Nodes_of l /\ getHetznerData raw l)
     /\ (~ Forall (eq None) gets -> exists e, r = Err_of e /\ Some e ∈ gets))
  /\ (forall e, Some e ∈ gets -> getHetznerData_fetch gets raw (Err_of e))
  /\ (Forall (eq None) gets ->
      forall l, getHetznerData raw l -> getHetznerData_fetch gets raw (Nodes_of l)).
Proof.
  split; [|split].
  - intros r (errc & Hp & Hr). split.
    + intros Hall. rewrite Hp in Hall. apply first_error_None in Hall.
      rewrite Hall in Hr. destruct Hr as (l & Hl & ->). by exists l.
    + intros Hsome. destruct (first_error errc) as [e|] eqn:E.
      * exists e. split; [done|]. rewrite Hp. by apply first_error_Some.
      * destruct Hsome. rewrite Hp. by apply first_error_None.
  - intros e He. apply elem_of_Permutation in He as [rest Hrest].
    exists (Some e :: rest). split; [done|reflexivity].
  - intros Hall l Hl. exists gets. split; [done|].
    apply first_error_None in Hall. rewrite Hall. by exists l.
Qed.

Lemma fetch_reports_a_failure_witness :
  getHetznerData_fetch
    [None; Some (client.TransportError "timeout"); None;
     Some (client.DecodeError "EOF"); None]
    sample.host_and_ip (Err_of (client.DecodeError "EOF")).
Proof.
  apply (proj1 (proj2 (fetch_reports_a_failure _ sample.host_and_ip))).
  do 3 right. left.
Defined.

(** ** The envelopes of [decodeResponse] *)

Lemma unwrap_slice_Ok {T : Type} (key : string) (ws : list (gmap string T)) vs :
  decode.unwrap_slice key ws = Ok vs
  <-> Forall2 (fun m v => m !! key = Some v) ws vs.
Proof.
  revert vs. induction ws as [|m ws IH]; intros vs; simpl.
  - split; [intros H; inversion H; constructor|]. intros H. by inversion H.
  - unfold decode.unwrap_one. split.
    + destruct (m !! key) as [v|] eqn:Hk; simpl; [|discriminate].
      destruct (decode.unwrap_slice key ws) as [us| |]; simpl; try discriminate.
      intros H. inversion H; subst. constructor; [done|]. by apply IH.
    + intros H. inversion H as [|? v ? us Hv Hus]; subst. rewrite Hv. simpl.
      apply IH in Hus. by rewrite Hus.
Qed.

Lemma unwrap_slice_cases {T : Type} (key : string) (ws : list (gmap string T)) :
  (exists vs, decode.unwrap_slice key ws = Ok vs)
  \/ (decode.unwrap_slice key ws = Panic decode.zero_value_msg
      /\ exists m, m ∈ ws /\ m !! key = None).
Proof.
  induction ws as [|m ws IH]; simpl; [left; by eexists|].
  unfold decode.unwrap_one. destruct (m !! key) as [v|] eqn:Hk; simpl.
  - destruct IH as [[us ->]|[-> (m' & Hm' & Hn)]]; simpl.
    + left. by eexists.
    + right. split; [done|]. exists m'. split; [by right|done].
  - right. split; [done|]. exists m. split; [left|done].
Qed.

(** X6. The unwrapped slice holds, element by element and in the same order,
    the value each envelope has under the key, whatever else the envelope
    holds; one envelope without the key makes the whole call panic. *)
Theorem unwrap_slice_spec {T : Type} (key : string) (ws : list (gmap string T)) :
  (forall vs, decode.unwrap_slice key ws = Ok vs
              <-> Forall2 (fun m v => m !! key = Some v) ws vs)
  /\ (decode.unwrap_slice key ws = Panic decode.zero_value_msg
      <-> exists m, m ∈ ws /\ m !! key = None)
  /\ (forall vs, decode.unwrap_slice key ws = Ok vs -> length vs = length ws).
Proof.
  split; [intros vs; apply unwrap_slice_Ok|]. split.
  - split.
    + intros H. destruct (unwrap_slice_cases key ws) as [[vs Hvs]|[_ Hex]]; [|done].
      rewrite H in Hvs. discriminate.
    + intros (m & Hm & Hn).
      destruct (unwrap_slice_cases key ws) as [[vs Hvs]|[H _]]; [|done].
      apply unwrap_slice_Ok in Hvs.
      apply list_elem_of_lookup in Hm as [i Hi].
      destruct (Forall2_lookup_l _ _ _ _ _ Hvs Hi) as (v & _ & Hv). congruence.
  - intros vs H. apply unwrap_slice_Ok in H. symmetry. by eapply Forall2_length.
Qed.

Lemma unwrap_slice_spec_witness :
  decode.unwrap_slice "server"
    [{["server" := 1%nat]}; <["server" := 2%nat]> {["note" := 7%nat]}]
  = Ok [1%nat; 2%nat].
Proof.
  apply (proj1 (unwrap_slice_spec "server" _)).
  constructor; [reflexivity|]. constructor; [|constructor].
  vm_compute. reflexivity.
Defined.

(** ** [Client.do]: what it returns *)

Lemma decode_value_cases {A : Type}
    (json : client.Response -> gmap string A + client.error)
    (key : string) (r : client.Response) :
  (forall a, client.decode_value json key r = Ok (inl a)
             <-> exists m, json r = inl m /\ m !! key = Some a)
  /\ (forall e, client.decode_value json key r = Ok (inr e) <-> json r = inr e)
  /\ (forall m, json r = inl m -> m !! key = None ->
        client.decode_value json key r = Panic decode.zero_value_msg).
Proof.
  unfold client.decode_value, decode.unwrap_one.
  destruct (json r) as [m|err]; simpl.
  - destruct (m !! key) as [a'|] eqn:Hk; simpl.
    + split; [|split].
      * intros a. split.
        -- intros H. inversion H; subst. exists m. split; [reflexivity|exact Hk].
        -- intros (m' & Hm & Ha). inversion Hm; subst m'. congruence.
      * intros e. split; discriminate.
      * intros m' Hm Hn. inversion Hm; subst m'. congruence.
    + split; [|split].
      * intros a. split; [discriminate|].
        intros (m' & Hm & Ha). inversion Hm; subst m'. congruence.
      * intros e. split; discriminate.
      * done.
  - split; [|split].
    + intros a. split; [discriminate|]. intros (m & Hm & _). discriminate.
    + intros e. split; intros H; inversion H; done.
    + intros m Hm. discriminate.
Qed.

Lemma decode_slice_cases {A : Type}
    (json : client.Response -> list (gmap string A) + client.error)
    (key : string) (r : client.Response) :
  (forall l, client.decode_slice json key r = Ok (inl l)
             <-> exists ms, json r = inl ms
                            /\ Forall2 (fun m a => m !! key = Some a) ms l)
  /\ (forall e, client.decode_slice json key r = Ok (inr e) <-> json r = inr e).
Proof.
  unfold client.decode_slice. destruct (json r) as [ms|err]; simpl.
  - split.
    + intros l. split.
      * destruct (decode.unwrap_slice key ms) as [l'| |] eqn:Hu; simpl;
          try discriminate.
        intros H. inversion H; subst l'. exists ms. split; [done|].
        by apply unwrap_slice_Ok.
      * intros (ms' & Hm & Hf). inversion Hm; subst ms'.
        apply unwrap_slice_Ok in Hf. by rewrite Hf.
    + intros e. split; [|discriminate].
      destruct (decode.unwrap_slice key ms); simpl; discriminate.
  - split.
    + intros l. split; [discriminate|]. intros (ms & Hm & _). discriminate.
    + intros e. split; intros H; inversion H; done.
Qed.

(** X7. Every error [do] returns is a [RequestError] made of the method and
    the path of the request and of the status code of the response; its
    cause is the transport's error if there is one, else for a status
    other than 200 the provider's error when the body decodes to an
    envelope that holds one and the decoder's error when it does not
    decode, else the error of decoding into [v]. *)
Theorem do_wraps_errors {T : Type}
    (http_Do : client.Request -> option client.Response * option client.error)
    (json_error : client.Response -> gmap string client.Error + client.error)
    (json_value : client.Response -> gmap string T + client.error)
    (json_slice : client.Response -> list (gmap string T) + client.error)
    (key : string) (req : client.Request) (v : client.pointer)
    (e : client.error) :
  client.do http_Do json_error json_value json_slice key req v = Ok (inr e) ->
  exists r cause,
    fst (http_Do req) = Some r
    /\ e = client.RequestError (client.Method req) (client.URL_Path req)
             (client.StatusCode r) cause
    /\ (snd (http_Do req) = Some cause
        \/ (snd (http_Do req) = None /\ client.StatusCode r <> client.StatusOK
            /\ ((exists m c, json_error r = inl m /\ m !! "error" = Some c
                             /\ cause = client.ApiError c)
                \/ json_error r = inr cause))
        \/ (snd (http_Do req) = None /\ client.StatusCode r = client.StatusOK
            /\ client.decodeResponse json_value json_slice key r v
               = Ok (inr cause)
            /\ ((v = client.PtrValue /\ json_value r = inr cause)
                \/ (v = client.PtrSlice /\ json_slice r = inr cause)))).
Proof.
  unfold client.do. destruct (http_Do req) as [[r|] err]; [|discriminate].
  simpl. destruct err as [te|].
  { intros H. inversion H. exists r, te. split; [done|]. split; [done|]. by left. }
  destruct (Z.eqb_spec (client.StatusCode r) client.StatusOK) as [E|E]; simpl.
  - destruct (client.decodeResponse json_value json_slice key r v)
      as [[s|de]| |] eqn:D; simpl; try discriminate.
    intros H. inversion H. exists r, de. split; [done|]. split; [done|].
    right. right. split; [done|]. split; [done|]. split; [done|].
    unfold client.decodeResponse in D. destruct v; [discriminate| |].
    + left. split; [done|].
      destruct (client.decode_value json_value key r) as [[t|de']| |] eqn:D';
        simpl in D; try discriminate.
      inversion D; subst de'. by apply (decode_value_cases json_value key r).
    + right. split; [done|].
      destruct (client.decode_slice json_slice key r) as [[t|de']| |] eqn:D';
        simpl in D; try discriminate.
      inversion D; subst de'. by apply (decode_slice_cases json_slice key r).
  - destruct (client.decode_value json_error "error" r) as [[c|de]| |] eqn:D;
      simpl; try discriminate.
    + intros H. inversion H.
      apply (decode_value_cases json_error "error" r) in D as (m & Hm & Hc).
      exists r, (client.ApiError c). split; [done|]. split; [done|].
      right. left. split; [done|]. split; [done|]. left. by exists m, c.
    + intros H. inversion H.
      apply (decode_value_cases json_error "error" r) in D.
      exists r, de. split; [done|]. split; [done|].
      right. left. split; [done|]. split; [done|]. by right.
Qed.

Lemma do_wraps_errors_witness :
  exists r cause,
    Some (client.mkResponse 404 "") = Some r
    /\ cause = client.ApiError (client.mkError 404 "SERVER_NOT_FOUND" "not found")
    /\ client.StatusCode r = 404.
Proof.
  assert (H : client.do (T := unit)
                (fun _ => (Some (client.mkResponse 404 ""), None))
                (fun _ => inl {[ "error" :=
                                   client.mkError 404 "SERVER_NOT_FOUND" "not found" ]})
                (fun _ => inl ∅) (fun _ => inl []) "server"
                (client.mkRequest "GET" "/server/1") client.PtrValue
              = Ok (inr (client.RequestError "GET" "/server/1" 404
                           (client.ApiError
                              (client.mkError 404 "SERVER_NOT_FOUND" "not found")))))
    by (vm_compute; reflexivity).
  destruct (do_wraps_errors _ _ _ _ _ _ _ _ H) as (r & cause & Hr & He & _).
  exists r, cause. split; [exact Hr|]. inversion He. split; [reflexivity|].
  simpl in Hr. inversion Hr. reflexivity.
Defined.

(** X8. [do] returns a nil error exactly when the transport returned a
    response and no error, the status is 200 and [decodeResponse]
    returns nil for [v]; the value stored is then the one the envelope
    holds under the key, or the slice of them in order.  With another
    status the body is never decoded into the caller's value: what [do]
    does is the same for every [v] and every decoder of [v]'s type, and
    it is no nil error.  It is not always an error either: when such a
    body decodes to an envelope without the key of [Error], [do]
    panics. *)
Theorem do_succeeds_iff {T : Type}
    (http_Do : client.Request -> option client.Response * option client.error)
    (json_error : client.Response -> gmap string client.Error + client.error)
    (json_value json_value' : client.Response -> gmap string T + client.error)
    (json_slice json_slice' : client.Response -> list (gmap string T) + client.error)
    (key key' : string) (req : client.Request) (v v' : client.pointer)
    (s : client.stored T) :
  (client.do http_Do json_error json_value json_slice key req v = Ok (inl s)
   <-> exists r, http_Do req = (Some r, None)
                 /\ client.StatusCode r = client.StatusOK
                 /\ client.decodeResponse json_value json_slice key r v
                    = Ok (inl s))
  /\ (forall r,
        client.decodeResponse json_value json_slice key r v = Ok (inl s)
        <-> (v = client.PtrValue
             /\ exists m t, json_value r = inl m /\ m !! key = Some t
                            /\ s = client.StoredValue t)
            \/ (v = client.PtrSlice
                /\ exists ms ts, json_slice r = inl ms
                                 /\ Forall2 (fun m t => m !! key = Some t) ms ts
                                 /\ s = client.StoredSlice ts))
  /\ (forall r err, http_Do req = (Some r, err) ->
        client.StatusCode r <> client.StatusOK ->
        client.do http_Do json_error json_value' json_slice' key' req v'
        = client.do http_Do json_error json_value json_slice key req v
        /\ client.do http_Do json_error json_value json_slice key req v
           <> Ok (inl s))
  /\ (forall r m, http_Do req = (Some r, None) ->
        client.StatusCode r <> client.StatusOK ->
        json_error r = inl m -> m !! "error" = None ->
        client.do http_Do json_error json_value json_slice key req v
        = Panic decode.zero_value_msg).
Proof.
  split; [|split; [|split]].
  - unfold client.do. destruct (http_Do req) as [[r|] err]; simpl.
    + destruct err as [te|].
      { split; [discriminate|]. intros (r' & H & _). inversion H. }
      destruct (Z.eqb_spec (client.StatusCode r) client.StatusOK) as [E|E]; simpl.
      * destruct (client.decodeResponse json_value json_slice key r v)
          as [[s'|de]| |] eqn:D; simpl.
        -- split.
           ++ intros H. inversion H; subst s'. by exists r.
           ++ intros (r' & H & _ & Hd). inversion H; subst r'.
              rewrite D in Hd. by inversion Hd.
        -- split; [discriminate|]. intros (r' & H & _ & Hd). inversion H; subst r'.
           congruence.
        -- split; [discriminate|]. intros (r' & H & _ & Hd). inversion H; subst r'.
           congruence.
        -- split; [discriminate|]. intros (r' & H & _ & Hd). inversion H; subst r'.
           congruence.
      * split.
        -- destruct (client.decode_value json_error "error" r) as [[c|de]| |];
             simpl; discriminate.
        -- intros (r' & H & Hs & _). inversion H; subst r'. done.
    + split; [discriminate|]. intros (r' & H & _). inversion H.
  - intros r. unfold client.decodeResponse. destruct v.
    + split; [discriminate|]. intros [[H _]|[H _]]; discriminate.
    + split.
      * destruct (client.decode_value json_value key r) as [[t|de]| |] eqn:D;
          simpl; try discriminate.
        intros H. inversion H. left. split; [done|].
        apply (decode_value_cases json_value key r) in D as (m & Hm & Ht).
        by exists m, t.
      * intros [[_ (m & t & Hm & Ht & ->)]|[H _]]; [|discriminate].
        assert (D : client.decode_value json_value key r = Ok (inl t)).
        { apply (decode_value_cases json_value key r). by exists m. }
        by rewrite D.
    + split.
      * destruct (client.decode_slice json_slice key r) as [[ts|de]| |] eqn:D;
          simpl; try discriminate.
        intros H. inversion H. right. split; [done|].
        apply (decode_slice_cases json_slice key r) in D as (ms & Hm & Hf).
        by exists ms, ts.
      * intros [[H _]|[_ (ms & ts & Hm & Hf & ->)]]; [discriminate|].
        assert (D : client.decode_slice json_slice key r = Ok (inl ts)).
        { apply (decode_slice_cases json_slice key r). by exists ms. }
        by rewrite D.
  - intros r err H Hs. unfold client.do. rewrite H. apply Z.eqb_neq in Hs.
    destruct err; [split; [done|discriminate]|]. rewrite Hs. simpl.
    split; [done|].
    destruct (client.decode_value json_error "error" r) as [[c|de]| |];
      simpl; discriminate.
  - intros r m H Hs Hm Hn. unfold client.do. rewrite H. apply Z.eqb_neq in Hs.
    rewrite Hs. simpl.
    destruct (decode_value_cases json_error "error" r) as (_ & _ & Hp).
    by rewrite (Hp m Hm Hn).
Qed.

Lemma do_succeeds_iff_witness :
  client.do (fun _ => (Some (client.mkResponse 200 "{}"), None))
    (fun _ => inr (client.DecodeError "EOF"))
    (fun _ => inl {[ "server" := 5%nat ]}) (fun _ => inl []) "server"
    (client.mkRequest "GET" "/server/1") client.PtrValue
  = Ok (inl (client.StoredValue 5%nat))
  /\ client.do (T := nat) (fun _ => (Some (client.mkResponse 404 "{}"), None))
       (fun _ => inl ∅) (fun _ => inl ∅) (fun _ => inl []) "server"
       (client.mkRequest "GET" "/server/1") client.PtrValue
     = Panic decode.zero_value_msg.
Proof.
  split.
  - apply (proj1 (do_succeeds_iff
                    (fun _ => (Some (client.mkResponse 200 "{}"), None))
                    (fun _ => inr (client.DecodeError "EOF"))
                    (fun _ => inl {[ "server" := 5%nat ]})
                    (fun _ => inl {[ "server" := 5%nat ]})
                    (fun _ => inl []) (fun _ => inl []) "server" "server"
                    (client.mkRequest "GET" "/server/1")
                    client.PtrValue client.PtrValue (client.StoredValue 5%nat))).
    eexists. split; [reflexivity|]. split; [reflexivity|].
    vm_compute. reflexivity.
  - destruct (do_succeeds_iff (T := nat)
                (fun _ => (Some (client.mkResponse 404 "{}"), None))
                (fun _ => inl ∅) (fun _ => inl ∅) (fun _ => inl ∅)
                (fun _ => inl []) (fun _ => inl []) "server" "server"
                (client.mkRequest "GET" "/server/1")
                client.PtrValue client.PtrValue (client.StoredValue 0%nat))
      as (_ & _ & _ & Hp).
    apply (Hp (client.mkResponse 404 "{}") ∅ eq_refl).
    + vm_compute. discriminate.
    + reflexivity.
    + reflexivity.
Defined.

(** ** [IP.Equal] and the table keys *)

Lemma bytes_eqb_eq a b : net.bytes_eqb a b = true -> a = b.
Proof.
  revert b. induction a as [|x a IH]; intros [|y b] H; simpl in H; try done.
  apply andb_true_iff in H as [Hx Hab]. apply Byte.byte_dec_bl in Hx.
  f_equal; auto.
Qed.

Lemma len_4 (ip : list byte) :
  net.len ip = net.IPv4len -> exists a b c d, ip = [a; b; c; d].
Proof.
  unfold net.len, net.IPv4len. intros H.
  destruct ip as [|a [|b [|c [|d [|? ?]]]]]; simpl in H; try lia. by exists a, b, c, d.
Qed.

Lemma IP_String_mapped a b c d :
  net.IP_String (net.IPv4 a b c d) = net.IP_String [a; b; c; d].
Proof. reflexivity. Qed.

Lemma Equal_mixed (ip x : list byte) :
  net.len ip = net.IPv4len -> net.len x = net.IPv6len ->
  net.bytes_eqb (firstn 12 x) net.v4InV6Prefix = true ->
  net.bytes_eqb ip (skipn 12 x) = true ->
  net.IP_String ip = net.IP_String x.
Proof.
  intros H4 H6 Hp Hs. apply bytes_eqb_eq in Hp, Hs.
  destruct (len_4 _ H4) as (a & b & c & d & ->).
  rewrite <- (firstn_skipn 12 x), Hp, <- Hs. symmetry. apply IP_String_mapped.
Qed.

(** Two addresses that [Equal] holds equal print the same. *)
Lemma Equal_IP_String a b : net.Equal a b = true -> net.IP_String a = net.IP_String b.
Proof.
  unfold net.Equal.
  destruct (Z.eqb_spec (net.len a) (net.len b)) as [E|E].
  { intros H. by apply bytes_eqb_eq in H as ->. }
  destruct (Z.eqb_spec (net.len a) net.IPv4len) as [Ha|Ha];
    destruct (Z.eqb_spec (net.len b) net.IPv6len) as [Hb|Hb]; simpl.
  - intros H. apply andb_true_iff in H as [H1 H2]. by apply Equal_mixed.
  - destruct (Z.eqb_spec (net.len a) net.IPv6len) as [Ha6|Ha6]; [|discriminate].
    unfold net.IPv4len, net.IPv6len in *. lia.
  - destruct (Z.eqb_spec (net.len a) net.IPv6len) as [Ha6|Ha6]; [|discriminate].
    destruct (Z.eqb_spec (net.len b) net.IPv4len) as [Hb4|Hb4]; [|discriminate].
    unfold net.IPv4len, net.IPv6len in *. lia.
  - destruct (Z.eqb_spec (net.len a) net.IPv6len) as [Ha6|Ha6]; [|discriminate].
    destruct (Z.eqb_spec (net.len b) net.IPv4len) as [Hb4|Hb4]; [|discriminate].
    simpl. intros H. apply andb_true_iff in H as [H1 H2]. symmetry.
    apply Equal_mixed; auto.
    assert (E2 : skipn 12 a = b) by (by apply bytes_eqb_eq).
    rewrite E2. clear. induction b as [|x b IH]; simpl; [done|].
    by rewrite Byte.byte_dec_lb.
Qed.

(** X9. In the IP pass the branch [n = host] is dead: when the record's
    address is no key of the table, the node under the owner's key has an
    address that [Equal] tells from the record's, because addresses that
    [Equal] holds equal print the same key. *)
Theorem ip_pass_never_reuses_host (raw : RawData) (pre : list api.Ip)
    (e : api.Ip) (st : state) (hp : nat) (host : Node) :
  reach_ip raw pre = Ok st ->
  nodes st !! net.IP_String (api.Ip_Ip e) = None ->
  nodes st !! net.IP_String (api.Ip_Server_ip e) = Some hp ->
  heap st !! hp = Some host ->
  net.Equal (Ip host) (api.Ip_Ip e) = false
  /\ ip_step st e
     = Ok (modify (length (heap st)) (ip_fields e)
             (insert_node_st st (management_node e host))).
Proof.
  intros Hr Hk Ho Hh. pose proof (wf_reach_ip _ _ _ Hr) as Hwf.
  assert (HE : net.Equal (Ip host) (api.Ip_Ip e) = false).
  { destruct (net.Equal (Ip host) (api.Ip_Ip e)) eqn:E; [|done].
    apply Equal_IP_String in E.
    destruct (wf_key _ Hwf _ _ Ho) as (h' & Hh' & Hkey).
    rewrite Hh in Hh'. inversion Hh'; subst h'.
    rewrite <- E, Hkey, Ho in Hk. discriminate. }
  split; [exact HE|]. exact (ip_step_new _ _ _ _ Hk Ho Hh HE).
Qed.

Lemma ip_pass_never_reuses_host_witness :
  exists st,
    reach_ip sample.host_and_ip [] = Ok st
    /\ net.Equal sample.ip_10_0_0_1 sample.ip_10_0_0_2 = false.
Proof.
  destruct (reach_ip sample.host_and_ip []) as [st| |] eqn:Hr;
    [|vm_compute in Hr; discriminate..].
  destruct (ip_pass_never_reuses_host sample.host_and_ip []
              (sample.single sample.ip_10_0_0_2 sample.ip_10_0_0_1) st 0%nat
              sample.host_n Hr) as [HE _].
  - concrete Hr. vm_compute. reflexivity.
  - concrete Hr. vm_compute. reflexivity.
  - concrete Hr. vm_compute. reflexivity.
  - exists st. split; [reflexivity|exact HE].
Defined.

(** ** How a step changes the state *)

Lemma wf_pointers_ok st : wf st -> pointers_ok st.
Proof. intros Hwf k p Hk. destruct (wf_key _ Hwf _ _ Hk) as (n & Hn & _). by exists n. Qed.

Lemma hosts_only_pointers_ok st : hosts_only st -> pointers_ok st.
Proof. intros H. by apply wf_pointers_ok, hosts_only_wf. Qed.

Lemma in_table_insert_any st n m :
  pointers_ok st -> in_table (insert_node_st st n) m -> m = n \/ in_table st m.
Proof.
  intros Hp (k & p & Hk & Hc). simpl in Hk, Hc.
  destruct (decide (k = net.IP_String (Ip n))) as [->|Hne].
  - rewrite lookup_insert_eq in Hk. inversion Hk; subst p.
    rewrite lookup_app_r, Nat.sub_diag in Hc by done. left. by inversion Hc.
  - rewrite lookup_insert_ne in Hk by done. right. exists k, p. split; [done|].
    destruct (Hp _ _ Hk) as [m0 Hm0].
    rewrite (lookup_app_l_Some _ _ _ _ Hm0) in Hc. by inversion Hc; subst.
Qed.

Lemma in_table_modify st p f n m' :
  heap st !! p = Some n -> in_table (modify p f st) m' ->
  exists m, in_table st m /\ (m' = m \/ (m = n /\ m' = f n)).
Proof.
  intros Hp (k & q & Hk & Hq). rewrite modify_nodes in Hk.
  destruct (modify_lookup_inv _ _ _ _ _ _ Hp Hq) as (m & Hm & Hc).
  exists m. split; [by exists k, q|].
  destruct Hc as [(_ & -> & ->)|(_ & ->)]; [by right|by left].
Qed.

Lemma table_forall_insert Q st n :
  pointers_ok st -> Q n -> table_forall Q st -> table_forall Q (insert_node_st st n).
Proof.
  intros Hp Hn HQ m Hm. destruct (in_table_insert_any _ _ _ Hp Hm) as [->|Hold]; auto.
Qed.

Lemma table_forall_modify Q st p f n :
  heap st !! p = Some n -> (Q n -> Q (f n)) ->
  table_forall Q st -> table_forall Q (modify p f st).
Proof.
  intros Hp Hf HQ m' Hm'. destruct (in_table_modify _ _ _ _ _ Hp Hm') as (m & Hm & Hc).
  destruct Hc as [->|[-> ->]]; auto.
Qed.

Lemma table_forall_push Q st p :
  table_forall Q st -> table_forall Q (push_subnet p st).
Proof. intros HQ m Hm. by apply HQ. Qed.

Lemma table_forall_impl (Q Q' : Node -> Prop) st :
  (forall n, Q n -> Q' n) -> table_forall Q st -> table_forall Q' st.
Proof. intros HQQ HQ n Hn. auto. Qed.

(** *** The steps, case by case *)

Lemma ip_step_shape st e st' :
  wf st -> ip_step st e = Ok st' ->
  (exists p n, nodes st !! ip_key e = Some p /\ heap st !! p = Some n
               /\ st' = modify p (ip_fields e) st)
  \/ (exists hp host,
        nodes st !! ip_key e = None
        /\ nodes st !! net.IP_String (api.Ip_Server_ip e) = Some hp
        /\ heap st !! hp = Some host
        /\ st' = modify (length (heap st)) (ip_fields e)
                   (insert_node_st st (management_node e host))).
Proof.
  intros Hwf H. unfold ip_key.
  destruct (nodes st !! net.IP_String (api.Ip_Ip e)) as [p|] eqn:Hk.
  - destruct (wf_key _ Hwf _ _ Hk) as (n & Hn & _).
    rewrite (ip_step_found _ _ _ _ Hk Hn) in H. inversion H. left. by exists p, n.
  - destruct (nodes st !! net.IP_String (api.Ip_Server_ip e)) as [hp|] eqn:Ho.
    2:{ rewrite (ip_step_no_host _ _ Hk Ho) in H. discriminate. }
    destruct (wf_key _ Hwf _ _ Ho) as (host & Hh & Hkey).
    assert (HE : net.Equal (Ip host) (api.Ip_Ip e) = false).
    { destruct (net.Equal (Ip host) (api.Ip_Ip e)) eqn:E; [|done].
      apply Equal_IP_String in E. rewrite <- E, Hkey, Ho in Hk. discriminate. }
    rewrite (ip_step_new _ _ _ _ Hk Ho Hh HE) in H. inversion H.
    right. by exists hp, host.
Qed.

Lemma subnet_step_shape st e st' :
  wf st -> subnet_step st e = Ok st' ->
  exists sp server,
    nodes st !! subnet_key e = None
    /\ nodes st !! net.IP_String (api.Subnet_Server_ip e) = Some sp
    /\ heap st !! sp = Some server
    /\ st' = push_subnet (length (heap st)) (insert_node_st st (subnet_node e server)).
Proof.
  intros Hwf H. unfold subnet_key.
  destruct (nodes st !! net.IP_String (api.Subnet_Ip e)) as [p|] eqn:Hk.
  { rewrite (subnet_step_conflict _ _ _ Hk) in H. discriminate. }
  destruct (nodes st !! net.IP_String (api.Subnet_Server_ip e)) as [sp|] eqn:Ho.
  2:{ rewrite (subnet_step_no_owner _ _ Hk Ho) in H. discriminate. }
  destruct (wf_key _ Hwf _ _ Ho) as (server & Hs & _).
  rewrite (subnet_step_new _ _ _ _ Hk Ho Hs) in H. inversion H. by exists sp, server.
Qed.

Lemma scan_subnets_host st ip ptr ss st' :
  wf st -> (forall sp, sp ∈ ss -> sp ∈ subnets st) ->
  scan_subnets st ip ptr ss = Ok st' ->
  exists host, in_table st host /\ Kind_of host = KindHost
               /\ st' = insert_node_st st (virtual_node ip ptr host).
Proof.
  intros Hwf. induction ss as [|sp ss IH]; intros Hin H; [discriminate|].
  destruct (wf_subnets _ Hwf sp) as (s & sn & Hs & Hsn & Hsk); [apply Hin; left|].
  destruct (net.Contains sn ip) eqn:Hc.
  - destruct (wf_host _ Hwf s) as (h & hp & Hhp & Hh & HK & Ha); [by eexists _, sp|].
    rewrite (scan_subnets_hit _ _ _ _ _ _ _ _ _ Hs Hsn Hc Hhp Hh) in H.
    inversion H. exists h. split; [by eexists _, hp|done].
  - apply IH; [intros q Hq; apply Hin; by right|].
    simpl in H. rewrite (deref_Some _ _ _ Hs) in H. simpl in H.
    rewrite Hsn in H. simpl in H. by rewrite Hc in H.
Qed.

Lemma rdns_step_shape st e st' :
  wf st -> rdns_step st e = Ok st' ->
  (exists p n, nodes st !! rdns_key e = Some p /\ heap st !! p = Some n
               /\ st' = modify p (set_Ptr (api.Rdns_Ptr e)) st)
  \/ (exists host,
        nodes st !! rdns_key e = None /\ in_table st host
        /\ Kind_of host = KindHost
        /\ st' = insert_node_st st
                   (virtual_node (api.Rdns_Ip e) (api.Rdns_Ptr e) host)).
Proof.
  intros Hwf H. unfold rdns_key.
  destruct (nodes st !! net.IP_String (api.Rdns_Ip e)) as [p|] eqn:Hk.
  - destruct (wf_key _ Hwf _ _ Hk) as (n & Hn & _).
    rewrite (rdns_step_found _ _ _ _ Hk Hn) in H. inversion H. left. by exists p, n.
  - rewrite (rdns_step_scan _ _ Hk) in H.
    destruct (scan_subnets_host _ _ _ _ _ Hwf (fun _ H => H) H) as (host & Hh & HK & ->).
    right. by exists host.
Qed.

Lemma failover_step_shape st e st' :
  failover_step st e = Ok st' ->
  exists p n, nodes st !! failover_key e = Some p /\ heap st !! p = Some n
              /\ Kind_of n = KindNetwork /\ Failover n = true
              /\ st' = modify p (failover_fields e) st.
Proof.
  unfold failover_step, failover_key, api.IP_String. intros H.
  destruct (nodes st !! net.IP_String (api.Failover_Ip e)) as [p|]; [|discriminate].
  unfold deref in H. destruct (heap st !! p) as [n|] eqn:Hp; simpl in H; [|discriminate].
  destruct (Kind_of n) eqn:HK; simpl in H; try discriminate.
  destruct (Failover n) eqn:HF; simpl in H; try discriminate.
  inversion H. by exists p, n.
Qed.

(** *** Keys and cells only accumulate *)

Lemma grows_refl st : grows st st.
Proof. by intros k p H. Qed.

Lemma grows_trans a b c : grows a b -> grows b c -> grows a c.
Proof. intros H1 H2 k p H. auto. Qed.

Lemma grows_modify st p f : grows st (modify p f st).
Proof. intros k q H. by rewrite modify_nodes. Qed.

Lemma grows_insert st n :
  nodes st !! net.IP_String (Ip n) = None -> grows st (insert_node_st st n).
Proof.
  intros Hfree k p H. rewrite insert_node_st_other; [done|]. congruence.
Qed.

Lemma cells_refl (R : Node -> Node -> Prop) st : (forall n, R n n) -> cells R st st.
Proof. intros HR p n H. by exists n. Qed.

Lemma cells_trans (R : Node -> Node -> Prop) a b c :
  (forall x y z, R x y -> R y z -> R x z) ->
  cells R a b -> cells R b c -> cells R a c.
Proof.
  intros HR H1 H2 p n Hp. destruct (H1 _ _ Hp) as (n1 & Hn1 & R1).
  destruct (H2 _ _ Hn1) as (n2 & Hn2 & R2). exists n2. split; [done|]. by eapply HR.
Qed.

Lemma cells_insert (R : Node -> Node -> Prop) st n :
  (forall n, R n n) -> cells R st (insert_node_st st n).
Proof. intros HR p m Hp. exists m. split; [by apply insert_node_st_old|done]. Qed.

Lemma cells_push (R : Node -> Node -> Prop) st p :
  (forall n, R n n) -> cells R st (push_subnet p st).
Proof. intros HR q m Hq. by exists m. Qed.

Lemma cells_modify (R : Node -> Node -> Prop) st p f :
  (forall n, R n n) -> (forall n, heap st !! p = Some n -> R n (f n)) ->
  cells R st (modify p f st).
Proof.
  intros HR Hf q m Hq. destruct (heap st !! p) as [n|] eqn:Hp.
  - destruct (modify_lookup _ _ f _ _ _ Hp Hq) as (m' & Hm' & Hc).
    exists m'. split; [done|].
    destruct Hc as [(-> & -> & ->)|(_ & ->)]; [by apply Hf|done].
  - exists m. unfold modify. rewrite Hp. by split.
Qed.

(** A relation that every iteration respects relates the two ends of the
    loop. *)
Lemma forM_rel {A} (R : state -> state -> Prop) (P : state -> Prop)
    (f : state -> A -> result state) :
  (forall s, R s s) -> (forall a b c, R a b -> R b c -> R a c) ->
  (forall s e s', P s -> f s e = Ok s' -> P s' /\ R s s') ->
  forall l s s', P s -> forM f l s = Ok s' -> R s s'.
Proof.
  intros Hrefl Htrans Hstep l. induction l as [|e l IH]; intros s s' HP H; simpl in H.
  - inversion H. apply Hrefl.
  - destruct (f s e) as [s1| |] eqn:E; simpl in H; try discriminate.
    destruct (Hstep _ _ _ HP E) as [HP1 H1].
    eapply Htrans; [exact H1|]. by eapply IH.
Qed.

Lemma late_refl n : late n n.
Proof. split; [reflexivity|by left]. Qed.

Lemma late_trans a b c : late a b -> late b c -> late a c.
Proof.
  intros [F1 K1] [F2 K2]. split; [unfold late_frame in *; congruence|].
  destruct K1 as [K1|[K1 K1']], K2 as [K2|[K2 K2']].
  - left. congruence.
  - right. split; congruence.
  - right. split; congruence.
  - congruence.
Qed.

Lemma late_set_Ptr v n : late n (set_Ptr v n).
Proof. split; [reflexivity|by left]. Qed.

Lemma late_failover_fields e n :
  Kind_of n = KindNetwork -> late n (failover_fields e n).
Proof. intros HK. split; [reflexivity|]. right. by split. Qed.

(** After the IP pass a step stores new keys and never moves an old one,
    and changes a cell at most in PTR, kind and active server address. *)
Lemma subnet_step_late st e st' :
  wf st -> subnet_step st e = Ok st' -> grows st st' /\ cells late st st'.
Proof.
  intros Hwf H. destruct (subnet_step_shape _ _ _ Hwf H) as (sp & server & Hk & _ & _ & ->).
  split.
  - intros k p Hkp. simpl. rewrite lookup_insert_ne; [done|].
    unfold subnet_key in Hk. congruence.
  - eapply (cells_trans late); [apply late_trans| |apply cells_push, late_refl].
    apply cells_insert, late_refl.
Qed.

Lemma rdns_step_late st e st' :
  wf st -> rdns_step st e = Ok st' -> grows st st' /\ cells late st st'.
Proof.
  intros Hwf H.
  destruct (rdns_step_shape _ _ _ Hwf H) as [(p & n & _ & _ & ->)|(host & Hk & _ & _ & ->)].
  - split; [apply grows_modify|].
    apply cells_modify; [apply late_refl|]. intros; apply late_set_Ptr.
  - split; [by apply grows_insert|apply cells_insert, late_refl].
Qed.

Lemma failover_step_late st e st' :
  failover_step st e = Ok st' -> grows st st' /\ cells late st st'.
Proof.
  intros H. destruct (failover_step_shape _ _ _ H) as (p & n & _ & Hp & HK & _ & ->).
  split; [apply grows_modify|].
  apply cells_modify; [apply late_refl|]. intros n' Hn'.
  rewrite Hp in Hn'. inversion Hn'; subst n'. by apply late_failover_fields.
Qed.

(** *** The passes after the IP pass *)

Lemma late_rel_refl st : late_rel st st.
Proof. split; [apply grows_refl|apply cells_refl, late_refl]. Qed.

Lemma late_rel_trans a b c : late_rel a b -> late_rel b c -> late_rel a c.
Proof.
  intros [G1 C1] [G2 C2]. split; [by eapply grows_trans|].
  eapply (cells_trans late); [apply late_trans|exact C1|exact C2].
Qed.

Lemma late_subnet_pass l st st' :
  wf st -> subnet_pass l st = Ok st' -> late_rel st st'.
Proof.
  apply (forM_rel late_rel wf subnet_step late_rel_refl late_rel_trans).
  intros s e s' Hs H. split; [exact (wf_subnet_step _ _ _ Hs H)|exact (subnet_step_late _ _ _ Hs H)].
Qed.

Lemma late_rdns_pass l st st' :
  wf st -> rdns_pass l st = Ok st' -> late_rel st st'.
Proof.
  apply (forM_rel late_rel wf rdns_step late_rel_refl late_rel_trans).
  intros s e s' Hs H. split; [exact (wf_rdns_step _ _ _ Hs H)|exact (rdns_step_late _ _ _ Hs H)].
Qed.

Lemma late_failover_pass l st st' :
  wf st -> failover_pass l st = Ok st' -> late_rel st st'.
Proof.
  apply (forM_rel late_rel wf failover_step late_rel_refl late_rel_trans).
  intros s e s' Hs H. split; [exact (wf_failover_step _ _ _ Hs H)|exact (failover_step_late _ _ _ H)].
Qed.

(** The states between the passes of a run that returns. *)
Lemma run_states raw sf :
  build_nodes raw = Ok sf ->
  exists s1 s2 s3 s4,
    host_pass (rservers raw) empty_state = Ok s1
    /\ ip_pass (rips raw) s1 = Ok s2
    /\ subnet_pass (rsubnets raw) s2 = Ok s3
    /\ rdns_pass (rrdns raw) s3 = Ok s4
    /\ failover_pass (rfailover raw) s4 = Ok sf
    /\ reach_ip raw [] = Ok s1
    /\ reach_subnet raw [] = Ok s2
    /\ reach_rdns raw [] = Ok s3
    /\ reach_failover raw [] = Ok s4
    /\ hosts_only s1 /\ wf s1 /\ wf s2 /\ wf s3 /\ wf s4 /\ wf sf
    /\ late_rel s2 s3 /\ late_rel s3 s4 /\ late_rel s4 sf.
Proof.
  intros Hb.
  destruct (build_nodes_Ok _ _ Hb) as (s1 & s2 & s3 & s4 & H1 & H2 & H3 & H4 & H5).
  assert (O1 : hosts_only s1).
  { eapply hosts_only_pass; [apply hosts_only_empty|exact H1]. }
  assert (W1 : wf s1) by (by apply hosts_only_wf).
  assert (W2 : wf s2) by (by eapply wf_ip_pass).
  assert (W3 : wf s3) by (by eapply wf_subnet_pass).
  assert (W4 : wf s4) by (by eapply wf_rdns_pass).
  assert (W5 : wf sf) by (by eapply wf_failover_pass).
  assert (R1 : reach_ip raw [] = Ok s1) by (unfold reach_ip; by rewrite H1).
  assert (R2 : reach_subnet raw [] = Ok s2).
  { unfold reach_subnet, reach_ip. by rewrite H1, bind_Ok_l, H2. }
  assert (R3 : reach_rdns raw [] = Ok s3).
  { unfold reach_rdns, reach_subnet, reach_ip. by rewrite H1, bind_Ok_l, H2, bind_Ok_l, H3. }
  assert (R4 : reach_failover raw [] = Ok s4).
  { unfold reach_failover, reach_rdns, reach_subnet, reach_ip.
    by rewrite H1, bind_Ok_l, H2, bind_Ok_l, H3, bind_Ok_l, H4. }
  exists s1, s2, s3, s4. repeat (split; [done|]).
  split; [by eapply late_subnet_pass|]. split; [by eapply late_rdns_pass|].
  by eapply late_failover_pass.
Qed.

(** ** The returned list as a whole *)

(** X10. Two lists the function may return for the same input hold the same
    nodes and show the same sequence of (server number, kind) pairs: the
    function is determined up to the order of nodes with equal pairs.  It
    returns a list exactly when the passes end without a panic. *)
Theorem output_unique_up_to_ties (raw : RawData) (l1 l2 : list Node) :
  (getHetznerData raw l1 -> getHetznerData raw l2 ->
     Permutation l1 l2 /\ sort_key <$> l1 = sort_key <$> l2
     /\ length l1 = length l2)
  /\ (is_Ok (build_nodes raw) = true <-> exists l, getHetznerData raw l).
Proof.
  split.
  - intros (st1 & Hb1 & Hp1 & Hs1) (st2 & Hb2 & Hp2 & Hs2).
    rewrite Hb1 in Hb2. inversion Hb2; subst st2.
    assert (Hp : Permutation l1 l2) by (by rewrite <- Hp1, <- Hp2).
    split; [exact Hp|]. split; [by apply sorted_keys_unique|].
    by apply Permutation_length.
  - split.
    + destruct (build_nodes raw) as [st| |] eqn:Hb; try discriminate. intros _.
      exists (insertion_sort (table_nodes st)), st. split; [done|].
      apply insertion_sort_sorts.
    + intros (l & st & Hb & _). by rewrite Hb.
Qed.

Lemma output_unique_up_to_ties_witness :
  Permutation [sample.host_n; sample.management_n]
              [sample.host_n; sample.management_n]
  /\ exists l, getHetznerData sample.host_and_ip l.
Proof.
  destruct (output_unique_up_to_ties sample.host_and_ip
              [sample.host_n; sample.management_n]
              [sample.host_n; sample.management_n]) as [Hu Hex].
  split.
  - apply Hu; apply getHetznerData_run_sound; vm_compute; reflexivity.
  - apply Hex. vm_compute. reflexivity.
Defined.

(** X11. Every node of the returned list names, as its server address, the
    address of a Host-kind node of the list, and shares the ancestry of
    that node. *)
Theorem server_ip_names_a_host (raw : RawData) (l : list Node) (n : Node) :
  getHetznerData raw l -> n ∈ l ->
  exists h, h ∈ l /\ Kind_of h = KindHost
            /\ node_key h = net.IP_String (Server_ip n)
            /\ ancestry h = ancestry n.
Proof.
  intros Hout Hn.
  destruct (getHetznerData_elem _ _ Hout) as (st & _ & Hwf & _ & _ & Hel).
  apply Hel in Hn. destruct (wf_host _ Hwf _ Hn) as (h & hp & Hhp & Hh & HK & Ha).
  destruct (wf_key _ Hwf _ _ Hhp) as (h' & Hh' & Hkey).
  rewrite Hh in Hh'. inversion Hh'; subst h'.
  exists h. split; [apply Hel; by eexists _, hp|done].
Qed.

Lemma server_ip_names_a_host_witness :
  exists h, Kind_of h = KindHost /\ node_key h = "10.0.0.1".
Proof.
  destruct (server_ip_names_a_host sample.host_and_ip
              [sample.host_n; sample.management_n] sample.management_n)
    as (h & _ & HK & Hk & _).
  - apply getHetznerData_run_sound. vm_compute. reflexivity.
  - right. left.
  - exists h. split; [exact HK|exact Hk].
Defined.

(** *** No record makes more than one node *)

Lemma size_insert_node st n :
  (size (nodes (insert_node_st st n)) <= S (size (nodes st)))%nat.
Proof.
  simpl. rewrite map_size_insert. destruct (nodes st !! _); simpl; lia.
Qed.

Lemma size_host_pass l st st' :
  host_pass l st = Ok st' -> (size (nodes st') <= size (nodes st) + length l)%nat.
Proof.
  unfold host_pass. revert st. induction l as [|e l IH]; intros st H; simpl in H.
  - inversion H. lia.
  - apply IH in H. pose proof (size_insert_node st (host_node e)). simpl. lia.
Qed.

Lemma size_pass {A} (f : state -> A -> result state) (P : state -> Prop) :
  (forall s e s', P s -> f s e = Ok s' ->
     P s' /\ (size (nodes s') <= S (size (nodes s)))%nat) ->
  forall l s s', P s -> forM f l s = Ok s' ->
    (size (nodes s') <= size (nodes s) + length l)%nat.
Proof.
  intros Hstep l. induction l as [|e l IH]; intros s s' HP H; simpl in H.
  - inversion H. lia.
  - destruct (f s e) as [s1| |] eqn:E; simpl in H; try discriminate.
    destruct (Hstep _ _ _ HP E) as [HP1 H1]. apply IH in H; [|done]. simpl. lia.
Qed.

Lemma size_ip_step st e st' :
  wf st -> ip_step st e = Ok st' -> (size (nodes st') <= S (size (nodes st)))%nat.
Proof.
  intros Hwf H.
  destruct (ip_step_shape _ _ _ Hwf H) as [(p & n & _ & _ & ->)|(hp & host & _ & _ & _ & ->)];
    rewrite modify_nodes; [lia|apply size_insert_node].
Qed.

Lemma size_subnet_step st e st' :
  wf st -> subnet_step st e = Ok st' -> (size (nodes st') <= S (size (nodes st)))%nat.
Proof.
  intros Hwf H. destruct (subnet_step_shape _ _ _ Hwf H) as (sp & server & _ & _ & _ & ->).
  apply (size_insert_node st (subnet_node e server)).
Qed.

Lemma size_rdns_step st e st' :
  wf st -> rdns_step st e = Ok st' -> (size (nodes st') <= S (size (nodes st)))%nat.
Proof.
  intros Hwf H.
  destruct (rdns_step_shape _ _ _ Hwf H) as [(p & n & _ & _ & ->)|(host & _ & _ & _ & ->)];
    [rewrite modify_nodes; lia|apply size_insert_node].
Qed.

Lemma size_failover_pass l st st' :
  failover_pass l st = Ok st' -> nodes st' = nodes st.
Proof.
  unfold failover_pass. revert st. induction l as [|e l IH]; intros st H; simpl in H.
  - by inversion H.
  - destruct (failover_step st e) as [s1| |] eqn:E; simpl in H; try discriminate.
    rewrite (IH _ H).
    destruct (failover_step_shape _ _ _ E) as (p & n & _ & _ & _ & _ & ->).
    apply modify_nodes.
Qed.

Lemma length_table_nodes st : wf st -> length (table_nodes st) = size (nodes st).
Proof.
  intros Hwf. rewrite <- (length_map node_key), (table_nodes_keys _ Hwf).
  rewrite length_fmap. apply length_map_to_list.
Qed.

(** X12. The returned list has at most one node for each server, IP, subnet
    and RDNS record; failover records add none. *)
Theorem output_size_bound (raw : RawData) (l : list Node) :
  getHetznerData raw l ->
  (length l <= length (rservers raw) + length (rips raw)
               + length (rsubnets raw) + length (rrdns raw))%nat.
Proof.
  intros (sf & Hb & Hp & _).
  destruct (run_states _ _ Hb)
    as (s1 & s2 & s3 & s4 & H1 & H2 & H3 & H4 & H5 & _ & _ & _ & _ & _
        & W1 & W2 & W3 & W4 & W5 & _).
  rewrite <- (Permutation_length Hp), (length_table_nodes _ W5).
  rewrite (size_failover_pass _ _ _ H5).
  pose proof (size_host_pass _ _ _ H1) as B1. simpl in B1.
  rewrite map_size_empty in B1.
  pose proof (size_pass ip_step wf
    (fun s e s' Hs H => conj (wf_ip_step _ _ _ Hs H) (size_ip_step _ _ _ Hs H))
    _ _ _ W1 H2) as B2.
  pose proof (size_pass subnet_step wf
    (fun s e s' Hs H => conj (wf_subnet_step _ _ _ Hs H) (size_subnet_step _ _ _ Hs H))
    _ _ _ W2 H3) as B3.
  pose proof (size_pass rdns_step wf
    (fun s e s' Hs H => conj (wf_rdns_step _ _ _ Hs H) (size_rdns_step _ _ _ Hs H))
    _ _ _ W3 H4) as B4.
  lia.
Qed.

Lemma output_size_bound_witness : (length full_nodes <= 5)%nat.
Proof.
  apply (output_size_bound sample.full full_nodes).
  apply getHetznerData_run_sound. vm_compute. reflexivity.
Defined.

(** ** The shape of the nodes, pass by pass *)

Lemma plain_before_rdns n : plain n -> before_rdns n.
Proof.
  intros (HK & HS & HF & HG & HA & HP). unfold before_rdns, shape.
  destruct HK as [HK|HK]; rewrite HK; by repeat split.
Qed.

Lemma before_rdns_before_failover n : before_rdns n -> before_failover n.
Proof. intros (Hs & _ & _ & HF). by split. Qed.

Lemma plain_host_node e : plain (host_node e).
Proof. unfold plain. simpl. repeat split; auto. Qed.

Lemma plain_ip_fields e n : plain n -> plain (ip_fields e n).
Proof. intros H. exact H. Qed.

Lemma plain_management_node e host : plain host -> plain (management_node e host).
Proof.
  intros (HK & HS & HF & HG & HA & HP). unfold plain. simpl.
  repeat split; auto.
Qed.

Lemma plain_host_pass l st st' :
  hosts_only st -> table_forall plain st -> host_pass l st = Ok st' ->
  table_forall plain st'.
Proof.
  intros Ho Hp H.
  cut (hosts_only st' /\ table_forall plain st'); [by intros [_ ?]|].
  revert H. unfold host_pass.
  apply (forM_invariant (fun s => hosts_only s /\ table_forall plain s)); [|done].
  intros s e s' [Hos Hps] Hstep. split; [by eapply hosts_only_step|].
  rewrite host_step_total in Hstep. inversion Hstep.
  apply table_forall_insert; [by apply hosts_only_pointers_ok|apply plain_host_node|done].
Qed.

Lemma plain_ip_step st e st' :
  wf st -> table_forall plain st -> ip_step st e = Ok st' -> table_forall plain st'.
Proof.
  intros Hwf Hp H.
  destruct (ip_step_shape _ _ _ Hwf H)
    as [(p & n & _ & Hn & ->)|(hp & host & _ & Ho & Hh & ->)].
  - eapply table_forall_modify; [exact Hn|apply plain_ip_fields|exact Hp].
  - eapply table_forall_modify;
      [apply insert_node_st_new|apply plain_ip_fields|].
    apply table_forall_insert; [by apply wf_pointers_ok| |done].
    apply plain_management_node, Hp. by eexists _, hp.
Qed.

Lemma plain_ip_pass l st st' :
  wf st -> table_forall plain st -> ip_pass l st = Ok st' -> table_forall plain st'.
Proof.
  intros Hwf Hp H.
  cut (wf st' /\ table_forall plain st'); [by intros [_ ?]|].
  revert H. unfold ip_pass.
  apply (forM_invariant (fun s => wf s /\ table_forall plain s)); [|done].
  intros s e s' [Hs Hps] Hstep.
  split; [by eapply wf_ip_step|by eapply plain_ip_step].
Qed.

Lemma before_rdns_subnet_node e server :
  before_rdns server -> before_rdns (subnet_node e server).
Proof.
  intros (Hs & HP & HV & HF). unfold before_rdns, shape, has_subnet. simpl.
  assert (HA : Active_server_ip server = []).
  { unfold shape in Hs. destruct (Kind_of server) eqn:K; try congruence; try tauto. }
  repeat split; eauto.
Qed.

Lemma before_rdns_subnet_step st e st' :
  wf st -> table_forall before_rdns st -> subnet_step st e = Ok st' ->
  table_forall before_rdns st'.
Proof.
  intros Hwf Hp H.
  destruct (subnet_step_shape _ _ _ Hwf H) as (sp & server & _ & Ho & Hs & ->).
  apply table_forall_push.
  apply table_forall_insert; [by apply wf_pointers_ok| |done].
  apply before_rdns_subnet_node, Hp. by eexists _, sp.
Qed.

Lemma before_rdns_subnet_pass l st st' :
  wf st -> table_forall before_rdns st -> subnet_pass l st = Ok st' ->
  table_forall before_rdns st'.
Proof.
  intros Hwf Hp H.
  cut (wf st' /\ table_forall before_rdns st'); [by intros [_ ?]|].
  revert H. unfold subnet_pass.
  apply (forM_invariant (fun s => wf s /\ table_forall before_rdns s)); [|done].
  intros s e s' [Hs Hps] Hstep.
  split; [by eapply wf_subnet_step|by eapply before_rdns_subnet_step].
Qed.

Lemma before_failover_set_Ptr v n : before_failover n -> before_failover (set_Ptr v n).
Proof. intros H. exact H. Qed.

Lemma before_failover_virtual_node ip ptr host :
  Kind_of host = KindHost -> before_failover host ->
  before_failover (virtual_node ip ptr host).
Proof.
  intros HK [Hs _]. unfold shape in Hs. rewrite HK in Hs.
  split; [exact Hs|discriminate].
Qed.

Lemma before_failover_rdns_step st e st' :
  wf st -> table_forall before_failover st -> rdns_step st e = Ok st' ->
  table_forall before_failover st'.
Proof.
  intros Hwf Hp H.
  destruct (rdns_step_shape _ _ _ Hwf H)
    as [(p & n & _ & Hn & ->)|(host & _ & Hh & HK & ->)].
  - eapply table_forall_modify; [exact Hn|apply before_failover_set_Ptr|exact Hp].
  - apply table_forall_insert; [by apply wf_pointers_ok| |done].
    apply before_failover_virtual_node; [done|by apply Hp].
Qed.

Lemma before_failover_rdns_pass l st st' :
  wf st -> table_forall before_failover st -> rdns_pass l st = Ok st' ->
  table_forall before_failover st'.
Proof.
  intros Hwf Hp H.
  cut (wf st' /\ table_forall before_failover st'); [by intros [_ ?]|].
  revert H. unfold rdns_pass.
  apply (forM_invariant (fun s => wf s /\ table_forall before_failover s)); [|done].
  intros s e s' [Hs Hps] Hstep.
  split; [by eapply wf_rdns_step|by eapply before_failover_rdns_step].
Qed.

Lemma shape_failover_fields e n :
  Kind_of n = KindNetwork -> Failover n = true -> shape n ->
  shape (failover_fields e n).
Proof.
  intros HK HF Hs. unfold shape in Hs. rewrite HK in Hs. destruct Hs as [Hs _].
  unfold shape. simpl. split; [exact Hs|exact HF].
Qed.

Lemma shape_failover_step st e st' :
  table_forall shape st -> failover_step st e = Ok st' -> table_forall shape st'.
Proof.
  intros Hp H.
  destruct (failover_step_shape _ _ _ H) as (p & n & _ & Hn & HK & HF & ->).
  eapply table_forall_modify; [exact Hn|by apply shape_failover_fields|exact Hp].
Qed.

Lemma shape_failover_pass l st st' :
  table_forall shape st -> failover_pass l st = Ok st' -> table_forall shape st'.
Proof. apply forM_invariant. intros. by eapply shape_failover_step. Qed.

Lemma table_forall_empty Q : table_forall Q empty_state.
Proof. intros n (k & p & Hk & _). simpl in Hk. by rewrite lookup_empty in Hk. Qed.

(** The tables between the passes of a run that returns. *)
Lemma run_shapes raw sf :
  build_nodes raw = Ok sf ->
  exists s2 s3 s4,
    reach_subnet raw [] = Ok s2 /\ reach_rdns raw [] = Ok s3
    /\ reach_failover raw [] = Ok s4
    /\ table_forall plain s2 /\ table_forall before_rdns s3
    /\ table_forall before_failover s4 /\ table_forall shape sf.
Proof.
  intros Hb.
  destruct (run_states _ _ Hb)
    as (s1 & s2 & s3 & s4 & H1 & H2 & H3 & H4 & H5 & _ & R2 & R3 & R4 & O1
        & W1 & W2 & W3 & W4 & W5 & _).
  assert (P1 : table_forall plain s1).
  { eapply plain_host_pass; [apply hosts_only_empty|apply table_forall_empty|exact H1]. }
  assert (P2 : table_forall plain s2) by exact (plain_ip_pass _ _ _ W1 P1 H2).
  assert (P3 : table_forall before_rdns s3).
  { eapply before_rdns_subnet_pass; [exact W2| |exact H3].
    eapply table_forall_impl; [apply plain_before_rdns|exact P2]. }
  assert (P4 : table_forall before_failover s4).
  { eapply before_failover_rdns_pass; [exact W3| |exact H4].
    eapply table_forall_impl; [apply before_rdns_before_failover|exact P3]. }
  exists s2, s3, s4. repeat (split; [done|]).
  eapply shape_failover_pass; [|exact H5].
  eapply table_forall_impl; [|exact P4]. by intros n [? _].
Qed.

(** X13. Every node of the returned list has a kind, and its kind fixes which
    of the subnet fields it carries: a Host, Management or Virtual node
    has no subnet, no gateway, no failover flag and no active server
    address; a Network node has the subnet of its own address and no
    active server address; a Failover node has the subnet of its own
    address and the failover flag. *)
Theorem output_nodes_shaped (raw : RawData) (l : list Node) (n : Node) :
  getHetznerData raw l -> n ∈ l ->
  shape n
  /\ Kind_of n <> KindNil
  /\ (is_Some (Subnet n)
      <-> Kind_of n = KindNetwork \/ Kind_of n = KindFailover).
Proof.
  intros Hout Hn.
  destruct (getHetznerData_elem _ _ Hout) as (st & Hb & _ & _ & _ & Hel).
  destruct (run_shapes _ _ Hb) as (_ & _ & _ & _ & _ & _ & _ & _ & _ & Hsh).
  apply Hel, Hsh in Hn. split; [exact Hn|].
  unfold shape, has_subnet in Hn.
  destruct (Kind_of n) eqn:HK; try contradiction.
  all: split; [discriminate|].
  all: destruct Hn as [Hn _].
  all: split; [intros HS|intros HH].
  all: try (left; reflexivity); try (right; reflexivity).
  all: try (rewrite Hn in HS; destruct HS as [x Hx]; discriminate Hx).
  all: try (destruct HH as [HH|HH]; discriminate HH).
  all: destruct Hn as [mask Hm]; rewrite Hm; eexists; reflexivity.
Qed.

Lemma output_nodes_shaped_witness :
  shape sample.management_n /\ Kind_of sample.management_n <> KindNil.
Proof.
  destruct (output_nodes_shaped sample.host_and_ip
              [sample.host_n; sample.management_n] sample.management_n)
    as (Hs & HK & _).
  - apply getHetznerData_run_sound. vm_compute. reflexivity.
  - right. left.
  - split; [exact Hs|exact HK].
Defined.

(** ** The entries of the table *)

Lemma entry_in_table st k n : entry st k n -> in_table st n.
Proof. intros (p & Hk & Hp). by exists k, p. Qed.

Lemma entry_key st k n : wf st -> entry st k n -> node_key n = k.
Proof.
  intros Hwf (p & Hk & Hp). destruct (wf_key _ Hwf _ _ Hk) as (n' & Hn' & Hkey).
  rewrite Hp in Hn'. by inversion Hn'; subst n'.
Qed.

Lemma in_table_entry st n : wf st -> in_table st n -> entry st (node_key n) n.
Proof.
  intros Hwf (k & p & Hk & Hp).
  assert (He : entry st k n) by (by exists p).
  by rewrite (entry_key _ _ _ Hwf He).
Qed.

Lemma entry_fun st k n n' : entry st k n -> entry st k n' -> n = n'.
Proof. intros (p & Hk & Hp) (p' & Hk' & Hp'). congruence. Qed.

Lemma entry_is_Some st k : wf st -> is_Some (nodes st !! k) -> exists n, entry st k n.
Proof.
  intros Hwf [p Hk]. destruct (wf_key _ Hwf _ _ Hk) as (n & Hn & _).
  exists n. by exists p.
Qed.

Lemma wf_ptr_inj st k k' p :
  wf st -> nodes st !! k = Some p -> nodes st !! k' = Some p -> k = k'.
Proof.
  intros Hwf Hk Hk'. destruct (wf_key _ Hwf _ _ Hk) as (n & Hn & <-).
  destruct (wf_key _ Hwf _ _ Hk') as (n' & Hn' & <-). congruence.
Qed.

Lemma lookup_modify_ne st p q f : p <> q -> heap (modify q f st) !! p = heap st !! p.
Proof.
  intros Hne. unfold modify. destruct (heap st !! q); [|done]. simpl.
  by rewrite list_lookup_insert_ne.
Qed.

Lemma entry_modify_self st k p n f :
  nodes st !! k = Some p -> heap st !! p = Some n -> entry (modify p f st) k (f n).
Proof.
  intros Hk Hp. exists p. rewrite modify_nodes. split; [done|].
  rewrite (modify_heap _ _ _ _ Hp). simpl.
  apply list_lookup_insert_eq. by eapply lookup_lt_Some.
Qed.

Lemma entry_modify_other st k k' q n f :
  wf st -> nodes st !! k' = Some q -> k <> k' ->
  entry st k n -> entry (modify q f st) k n.
Proof.
  intros Hwf Hq Hne (p & Hk & Hp). exists p. rewrite modify_nodes. split; [done|].
  rewrite lookup_modify_ne; [done|]. intros ->. apply Hne. by eapply wf_ptr_inj.
Qed.

Lemma entry_insert_other st k n m :
  k <> node_key m -> entry st k n -> entry (insert_node_st st m) k n.
Proof.
  intros Hne (p & Hk & Hp). exists p.
  split; [by rewrite insert_node_st_other|by apply insert_node_st_old].
Qed.

Lemma entry_insert_self st m : entry (insert_node_st st m) (node_key m) m.
Proof. exists (length (heap st)). apply insert_node_st_new. Qed.

Lemma entry_push st p k n : entry st k n -> entry (push_subnet p st) k n.
Proof. intros H. exact H. Qed.

Lemma entry_fresh_modify st k n m f :
  k <> node_key m -> entry st k n ->
  entry (modify (length (heap st)) f (insert_node_st st m)) k n.
Proof.
  intros Hne (p & Hk & Hp). exists p. rewrite modify_nodes.
  split; [by rewrite insert_node_st_other|].
  rewrite lookup_modify_ne; [by apply insert_node_st_old|].
  apply lookup_lt_Some in Hp. lia.
Qed.

Lemma grows_entry st st' k n (R : Node -> Node -> Prop) :
  grows st st' -> cells R st st' -> entry st k n ->
  exists n', entry st' k n' /\ R n n'.
Proof.
  intros Hg Hc (p & Hk & Hp). destruct (Hc _ _ Hp) as (n' & Hn' & HR).
  exists n'. split; [|done]. exists p. split; [by apply Hg|done].
Qed.

(** *** What a step does to the entry of its record and to the others *)

Lemma host_step_entry st e st' :
  host_step st e = Ok st' ->
  entry st' (server_key e) (host_node e)
  /\ forall k n, k <> server_key e -> entry st k n -> entry st' k n.
Proof.
  rewrite host_step_total. intros H. inversion H. split.
  - apply (entry_insert_self st (host_node e)).
  - intros k n Hne Hn. by apply entry_insert_other.
Qed.

Lemma ip_step_entry st e st' :
  wf st -> ip_step st e = Ok st' ->
  (exists n0, entry st' (ip_key e) (ip_fields e n0)
              /\ (entry st (ip_key e) n0
                  \/ (nodes st !! ip_key e = None
                      /\ exists host,
                           entry st (net.IP_String (api.Ip_Server_ip e)) host
                           /\ n0 = management_node e host)))
  /\ forall k n, k <> ip_key e -> entry st k n -> entry st' k n.
Proof.
  intros Hwf H.
  destruct (ip_step_shape _ _ _ Hwf H)
    as [(p & n & Hk & Hn & ->)|(hp & host & Hk & Ho & Hh & ->)].
  - split.
    + exists n. split; [by apply entry_modify_self|left; by exists p].
    + intros k m Hne Hm. eapply entry_modify_other; eauto.
  - split.
    + exists (management_node e host). split.
      * apply (entry_modify_self (insert_node_st st (management_node e host)));
          apply insert_node_st_new.
      * right. split; [done|]. exists host. split; [by exists hp|done].
    + intros k m Hne Hm. by apply entry_fresh_modify.
Qed.

Lemma subnet_step_entry st e st' :
  wf st -> subnet_step st e = Ok st' ->
  nodes st !! subnet_key e = None
  /\ (exists server,
        entry st (net.IP_String (api.Subnet_Server_ip e)) server
        /\ entry st' (subnet_key e) (subnet_node e server))
  /\ forall k n, entry st k n -> entry st' k n.
Proof.
  intros Hwf H.
  destruct (subnet_step_shape _ _ _ Hwf H) as (sp & server & Hk & Ho & Hs & ->).
  split; [done|]. split.
  - exists server. split; [by exists sp|].
    apply entry_push. apply (entry_insert_self st (subnet_node e server)).
  - intros k n Hn. apply entry_push, entry_insert_other; [|done].
    intros ->. destruct Hn as (p & Hp & _).
    change (node_key (subnet_node e server)) with (subnet_key e) in Hp. congruence.
Qed.

Lemma rdns_step_entry st e st' :
  wf st -> rdns_step st e = Ok st' ->
  (exists n, entry st' (rdns_key e) n /\ Ptr n = api.Rdns_Ptr e)
  /\ forall k n, k <> rdns_key e -> entry st k n -> entry st' k n.
Proof.
  intros Hwf H.
  destruct (rdns_step_shape _ _ _ Hwf H)
    as [(p & n & Hk & Hn & ->)|(host & Hk & Hh & HK & ->)].
  - split.
    + exists (set_Ptr (api.Rdns_Ptr e) n). split; [by apply entry_modify_self|done].
    + intros k m Hne Hm. eapply entry_modify_other; eauto.
  - split.
    + exists (virtual_node (api.Rdns_Ip e) (api.Rdns_Ptr e) host). split; [|done].
      apply (entry_insert_self st (virtual_node (api.Rdns_Ip e) (api.Rdns_Ptr e) host)).
    + intros k m Hne Hm. by apply entry_insert_other.
Qed.

Lemma failover_step_entry st e st' :
  wf st -> failover_step st e = Ok st' ->
  (exists n0, entry st (failover_key e) n0 /\ Kind_of n0 = KindNetwork
              /\ Failover n0 = true
              /\ entry st' (failover_key e) (failover_fields e n0))
  /\ forall k n, k <> failover_key e -> entry st k n -> entry st' k n.
Proof.
  intros Hwf H.
  destruct (failover_step_shape _ _ _ H) as (p & n & Hk & Hn & HK & HF & ->).
  split.
  - exists n. split; [by exists p|]. repeat (split; [done|]).
    by apply entry_modify_self.
  - intros k m Hne Hm. eapply entry_modify_other; eauto.
Qed.

(** *** Loops over records with keys *)

(** The last record with a key decides what its entry is when the loop
    ends. *)
Lemma forM_last {A} (f : state -> A -> result state) (key : A -> string)
    (P : state -> Prop) (Q : A -> Node -> Prop) :
  (forall s e s', P s -> f s e = Ok s' ->
     P s' /\ (exists n, entry s' (key e) n /\ Q e n)
     /\ forall k n, k <> key e -> entry s k n -> entry s' k n) ->
  forall pre e post s s',
    P s -> forM f (pre ++ e :: post)%list s = Ok s' ->
    Forall (fun e' => key e' <> key e) post ->
    exists n, entry s' (key e) n /\ Q e n.
Proof.
  intros Hstep pre e post s s' HP H Hpost.
  apply forM_split in H as (st & Hpre & H).
  assert (HPst : P st).
  { revert Hpre. apply forM_invariant; [|done]. intros a b c Ha Hf.
    by destruct (Hstep _ _ _ Ha Hf). }
  rewrite forM_cons in H. apply bind_Ok in H as (s1 & He & H).
  destruct (Hstep _ _ _ HPst He) as (HP1 & (n & Hn & HQ) & _).
  exists n. split; [|done]. clear Hpre He HPst HP.
  revert s1 HP1 Hn H. induction Hpost as [|e' post Hne _ IH]; intros s1 HP1 Hn H.
  - simpl in H. by inversion H; subst.
  - rewrite forM_cons in H. apply bind_Ok in H as (s2 & He' & H).
    destruct (Hstep _ _ _ HP1 He') as (HP2 & _ & Hoth).
    apply (IH s2); [done| |done]. apply Hoth; [|done]. by intros Heq; apply Hne.
Qed.

(** Every key that is there stays, and every record leaves its key. *)
Lemma forM_keys {A} (f : state -> A -> result state) (key : A -> string)
    (P : state -> Prop) :
  (forall s e s', P s -> f s e = Ok s' ->
     P s' /\ (exists n, entry s' (key e) n)
     /\ forall k n, k <> key e -> entry s k n -> entry s' k n) ->
  forall l s s', P s -> forM f l s = Ok s' ->
    (forall k, (exists n, entry s k n) -> exists n, entry s' k n)
    /\ forall e, e ∈ l -> exists n, entry s' (key e) n.
Proof.
  intros Hstep l. induction l as [|e l IH]; intros s s' HP H.
  - simpl in H. inversion H; subst. split; [done|]. intros e He. inversion He.
  - rewrite forM_cons in H. apply bind_Ok in H as (s1 & He & H).
    destruct (Hstep _ _ _ HP He) as (HP1 & Hself & Hoth).
    destruct (IH _ _ HP1 H) as [Hkeep Hall].
    assert (Hk1 : forall k, (exists n, entry s k n) -> exists n, entry s1 k n).
    { intros k [n Hn]. destruct (decide (k = key e)) as [->|Hne]; [done|].
      exists n. by apply Hoth. }
    split; [intros k Hk; by apply Hkeep, Hk1|].
    intros e' He'. apply elem_of_cons in He' as [->|He']; [by apply Hkeep|by apply Hall].
Qed.

(** A loop that ends has met no key twice when every record burns its
    key: [B k s] stops every later record with the key [k]. *)
Lemma forM_once {A} (f : state -> A -> result state) (key : A -> string)
    (P : state -> Prop) (B : string -> state -> Prop) :
  (forall s e s', P s -> f s e = Ok s' ->
     P s' /\ B (key e) s' /\ forall k, B k s -> key e <> k /\ B k s') ->
  forall l s s', P s -> forM f l s = Ok s' ->
    NoDup (key <$> l) /\ forall e, e ∈ l -> ~ B (key e) s.
Proof.
  intros Hstep l. induction l as [|e l IH]; intros s s' HP H.
  - split; [constructor|]. intros e He. inversion He.
  - rewrite forM_cons in H. apply bind_Ok in H as (s1 & He & H).
    destruct (Hstep _ _ _ HP He) as (HP1 & HB & Hburnt).
    destruct (IH _ _ HP1 H) as [Hnd Hfree]. split.
    + rewrite fmap_cons. constructor; [|done].
      intros Hin. apply list_elem_of_fmap in Hin as (e' & Heq & He').
      apply (Hfree _ He'). by rewrite <- Heq.
    + intros e0 He0 HB0. apply elem_of_cons in He0 as [->|He0].
      * by destruct (Hburnt _ HB0).
      * apply (Hfree _ He0). by destruct (Hburnt _ HB0).
Qed.

(** An invariant that may use that the record is one of the list. *)
Lemma forM_invariant_in {A} (P : state -> Prop) (f : state -> A -> result state)
    (l0 : list A) :
  (forall s e s', e ∈ l0 -> P s -> f s e = Ok s' -> P s') ->
  forall l s s', l ⊆ l0 -> P s -> forM f l s = Ok s' -> P s'.
Proof.
  intros Hstep l. induction l as [|e l IH]; intros s s' Hsub HP H.
  - simpl in H. by inversion H; subst.
  - rewrite forM_cons in H. apply bind_Ok in H as (s1 & He & H).
    apply (IH s1); [|by eapply Hstep; [apply Hsub; left|..]|done].
    intros x Hx. apply Hsub. by right.
Qed.

(** ** Every record leaves its key *)

Lemma host_pass_keys l st st' :
  host_pass l st = Ok st' ->
  (forall k, (exists n, entry st k n) -> exists n, entry st' k n)
  /\ forall e, e ∈ l -> exists n, entry st' (server_key e) n.
Proof.
  apply (forM_keys host_step server_key (fun _ => True)); [|done].
  intros s e s' _ H. destruct (host_step_entry _ _ _ H) as [Hs Ho].
  split; [done|]. split; [by eexists|done].
Qed.

Lemma ip_pass_keys l st st' :
  wf st -> ip_pass l st = Ok st' ->
  (forall k, (exists n, entry st k n) -> exists n, entry st' k n)
  /\ forall e, e ∈ l -> exists n, entry st' (ip_key e) n.
Proof.
  apply (forM_keys ip_step ip_key wf).
  intros s e s' Hwf H. destruct (ip_step_entry _ _ _ Hwf H) as [(n0 & Hs & _) Ho].
  split; [by eapply wf_ip_step|]. split; [by eexists|done].
Qed.

Lemma subnet_pass_keys l st st' :
  wf st -> subnet_pass l st = Ok st' ->
  (forall k, (exists n, entry st k n) -> exists n, entry st' k n)
  /\ forall e, e ∈ l -> exists n, entry st' (subnet_key e) n.
Proof.
  apply (forM_keys subnet_step subnet_key wf).
  intros s e s' Hwf H.
  destruct (subnet_step_entry _ _ _ Hwf H) as (_ & (server & _ & Hs) & Ho).
  split; [by eapply wf_subnet_step|]. split; [by eexists|].
  intros k n _. apply Ho.
Qed.

Lemma rdns_pass_keys l st st' :
  wf st -> rdns_pass l st = Ok st' ->
  (forall k, (exists n, entry st k n) -> exists n, entry st' k n)
  /\ forall e, e ∈ l -> exists n, entry st' (rdns_key e) n.
Proof.
  apply (forM_keys rdns_step rdns_key wf).
  intros s e s' Hwf H. destruct (rdns_step_entry _ _ _ Hwf H) as [(n & Hs & _) Ho].
  split; [by eapply wf_rdns_step|]. split; [by eexists|done].
Qed.

Lemma late_rel_keys st st' k :
  late_rel st st' -> (exists n, entry st k n) -> exists n, entry st' k n.
Proof.
  intros [Hg Hc] [n Hn]. destruct (grows_entry _ _ _ _ _ Hg Hc Hn) as (n' & Hn' & _).
  by exists n'.
Qed.

Lemma run_keys raw sf :
  build_nodes raw = Ok sf ->
  (forall e, e ∈ rservers raw -> exists n, entry sf (server_key e) n)
  /\ (forall e, e ∈ rips raw -> exists n, entry sf (ip_key e) n)
  /\ (forall e, e ∈ rsubnets raw -> exists n, entry sf (subnet_key e) n)
  /\ (forall e, e ∈ rrdns raw -> exists n, entry sf (rdns_key e) n).
Proof.
  intros Hb.
  destruct (run_states _ _ Hb)
    as (s1 & s2 & s3 & s4 & H1 & H2 & H3 & H4 & H5 & _ & _ & _ & _ & _
        & W1 & W2 & W3 & W4 & W5 & _ & _ & L5).
  destruct (host_pass_keys _ _ _ H1) as [_ A1].
  destruct (ip_pass_keys _ _ _ W1 H2) as [K2 A2].
  destruct (subnet_pass_keys _ _ _ W2 H3) as [K3 A3].
  destruct (rdns_pass_keys _ _ _ W3 H4) as [K4 A4].
  pose proof (fun k => late_rel_keys _ _ k L5) as K5.
  repeat split; intros e He.
  - apply K5, K4, K3, K2, A1, He.
  - apply K5, K4, K3, A2, He.
  - apply K5, K4, A3, He.
  - apply K5, A4, He.
Qed.

(** ** Where the nodes come from *)

Lemma origin_host_pass raw l st st' :
  l ⊆ rservers raw -> hosts_only st -> table_forall (origin raw) st ->
  host_pass l st = Ok st' -> table_forall (origin raw) st'.
Proof.
  intros Hsub Ho Hp H.
  cut (hosts_only st' /\ table_forall (origin raw) st'); [by intros [_ ?]|].
  revert H. unfold host_pass.
  apply (forM_invariant_in (fun s => hosts_only s /\ table_forall (origin raw) s)
           host_step (rservers raw)); [|done|done].
  intros s e s' He [Hos Hps] Hstep. split; [by eapply hosts_only_step|].
  rewrite host_step_total in Hstep. inversion Hstep.
  apply table_forall_insert; [by apply hosts_only_pointers_ok| |done].
  exists e. split; [exact He|]. split; reflexivity.
Qed.

Lemma origin_ip_pass raw l st st' :
  l ⊆ rips raw -> wf st -> table_forall (origin raw) st ->
  ip_pass l st = Ok st' -> table_forall (origin raw) st'.
Proof.
  intros Hsub Ho Hp H.
  cut (wf st' /\ table_forall (origin raw) st'); [by intros [_ ?]|].
  revert H. unfold ip_pass.
  apply (forM_invariant_in (fun s => wf s /\ table_forall (origin raw) s)
           ip_step (rips raw)); [|done|done].
  intros s e s' He [Hwf Hps] Hstep. split; [by eapply wf_ip_step|].
  destruct (ip_step_shape _ _ _ Hwf Hstep)
    as [(p & n & _ & Hn & ->)|(hp & host & _ & _ & _ & ->)].
  - eapply table_forall_modify; [exact Hn| |exact Hps]. intros Hor. exact Hor.
  - eapply table_forall_modify; [apply insert_node_st_new|intros Hor; exact Hor|].
    apply table_forall_insert; [by apply wf_pointers_ok| |done].
    exists e. split; [done|reflexivity].
Qed.

Lemma subnet_node_Kind e server : Kind_of (subnet_node e server) = KindNetwork.
Proof. reflexivity. Qed.

Lemma subnet_node_Failover e server :
  Failover (subnet_node e server) = api.Subnet_Failover e.
Proof. reflexivity. Qed.

Lemma subnet_node_Gateway e server :
  Gateway (subnet_node e server) = api.Subnet_Gateway e.
Proof. reflexivity. Qed.

Lemma origin_subnet_node raw e server :
  e ∈ rsubnets raw -> origin raw (subnet_node e server).
Proof.
  intros He. unfold origin. rewrite subnet_node_Kind.
  exists e. split; [exact He|]. unfold node_key, subnet_key.
  rewrite subnet_node_Ip, subnet_node_Failover, subnet_node_Gateway.
  split; [reflexivity|]. split; reflexivity.
Qed.

Lemma origin_subnet_pass raw l st st' :
  l ⊆ rsubnets raw -> wf st -> table_forall (origin raw) st ->
  subnet_pass l st = Ok st' -> table_forall (origin raw) st'.
Proof.
  intros Hsub Ho Hp H.
  cut (wf st' /\ table_forall (origin raw) st'); [by intros [_ ?]|].
  revert H. unfold subnet_pass.
  apply (forM_invariant_in (fun s => wf s /\ table_forall (origin raw) s)
           subnet_step (rsubnets raw)); [|done|done].
  intros s e s' He [Hwf Hps] Hstep. split; [by eapply wf_subnet_step|].
  destruct (subnet_step_shape _ _ _ Hwf Hstep) as (sp & server & _ & _ & _ & ->).
  apply table_forall_push.
  apply table_forall_insert; [by apply wf_pointers_ok| |done].
  apply origin_subnet_node, He.
Qed.

Lemma origin_rdns_pass raw l st st' :
  l ⊆ rrdns raw -> wf st -> table_forall (origin raw) st ->
  rdns_pass l st = Ok st' -> table_forall (origin raw) st'.
Proof.
  intros Hsub Ho Hp H.
  cut (wf st' /\ table_forall (origin raw) st'); [by intros [_ ?]|].
  revert H. unfold rdns_pass.
  apply (forM_invariant_in (fun s => wf s /\ table_forall (origin raw) s)
           rdns_step (rrdns raw)); [|done|done].
  intros s e s' He [Hwf Hps] Hstep. split; [by eapply wf_rdns_step|].
  destruct (rdns_step_shape _ _ _ Hwf Hstep)
    as [(p & n & _ & Hn & ->)|(host & _ & _ & _ & ->)].
  - eapply table_forall_modify; [exact Hn| |exact Hps]. intros Hor. exact Hor.
  - apply table_forall_insert; [by apply wf_pointers_ok| |done].
    exists e. split; [done|reflexivity].
Qed.

Lemma origin_failover_fields raw e n :
  e ∈ rfailover raw -> failover_key e = node_key n ->
  Kind_of n = KindNetwork -> Failover n = true ->
  origin raw n -> origin raw (failover_fields e n).
Proof.
  intros He Hkey HK HF Hor. unfold origin in Hor. rewrite HK in Hor.
  destruct Hor as (s & Hs & Hsk & HsF & HsG).
  unfold origin. change (Kind_of (failover_fields e n)) with KindFailover.
  cbv beta iota. split.
  - exists s. split; [done|]. split; [exact Hsk|]. split; [congruence|exact HsG].
  - exists e. split; [done|]. split; [exact Hkey|reflexivity].
Qed.

Lemma origin_failover_pass raw l st st' :
  l ⊆ rfailover raw -> wf st -> table_forall (origin raw) st ->
  failover_pass l st = Ok st' -> table_forall (origin raw) st'.
Proof.
  intros Hsub Ho Hp H.
  cut (wf st' /\ table_forall (origin raw) st'); [by intros [_ ?]|].
  revert H. unfold failover_pass.
  apply (forM_invariant_in (fun s => wf s /\ table_forall (origin raw) s)
           failover_step (rfailover raw)); [|done|done].
  intros s e s' He [Hwf Hps] Hstep. split; [by eapply wf_failover_step|].
  destruct (failover_step_shape _ _ _ Hstep) as (p & n & Hk & Hn & HK & HF & ->).
  eapply table_forall_modify; [exact Hn| |exact Hps].
  apply origin_failover_fields; try done.
  symmetry. apply (entry_key s); [done|by exists p].
Qed.

Lemma run_origin raw sf : build_nodes raw = Ok sf -> table_forall (origin raw) sf.
Proof.
  intros Hb.
  destruct (run_states _ _ Hb)
    as (s1 & s2 & s3 & s4 & H1 & H2 & H3 & H4 & H5 & _ & _ & _ & _ & _
        & W1 & W2 & W3 & W4 & W5 & _).
  eapply origin_failover_pass; [done|exact W4| |exact H5].
  eapply origin_rdns_pass; [done|exact W3| |exact H4].
  eapply origin_subnet_pass; [done|exact W2| |exact H3].
  eapply origin_ip_pass; [done|exact W1| |exact H2].
  eapply origin_host_pass; [done|apply hosts_only_empty|apply table_forall_empty|exact H1].
Qed.

(** X14. Every node of the returned list is accounted for by records of the
    input with its key: a Host node by a server record whose ancestry it
    has, a Management
    node by an IP record, a Virtual node by an RDNS record, a Network
    node by a subnet record whose failover flag and gateway it has, and a
    Failover node by a subnet record flagged as failover together with a
    failover record whose active server address it has. *)
Theorem node_origin (raw : RawData) (l : list Node) (n : Node) :
  getHetznerData raw l -> n ∈ l -> origin raw n.
Proof.
  intros Hout Hn.
  destruct (getHetznerData_elem _ _ Hout) as (st & Hb & _ & _ & _ & Hel).
  apply (run_origin _ _ Hb), Hel, Hn.
Qed.

Lemma node_origin_witness : origin sample.host_and_ip sample.management_n.
Proof.
  apply (node_origin sample.host_and_ip [sample.host_n; sample.management_n]).
  - apply getHetznerData_run_sound. vm_compute. reflexivity.
  - right. left.
Defined.

(** X15. The keys of the returned list are the addresses the server, IP,
    subnet and RDNS records name: a failover record adds no key, and no
    record goes without a node. *)
Theorem output_keys (raw : RawData) (l : list Node) (k : string) :
  getHetznerData raw l ->
  ((exists n, n ∈ l /\ node_key n = k)
   <-> (exists e, e ∈ rservers raw /\ server_key e = k)
       \/ (exists e, e ∈ rips raw /\ ip_key e = k)
       \/ (exists e, e ∈ rsubnets raw /\ subnet_key e = k)
       \/ (exists e, e ∈ rrdns raw /\ rdns_key e = k)).
Proof.
  intros Hout.
  destruct (getHetznerData_elem _ _ Hout) as (st & Hb & Hwf & _ & _ & Hel).
  split.
  - intros (n & Hn & <-). apply Hel in Hn.
    pose proof (run_origin _ _ Hb n Hn) as Hor. unfold origin in Hor.
    destruct (Kind_of n); try contradiction.
    + left. destruct Hor as (e & He & Hk & _). by exists e.
    + right. left. destruct Hor as (e & He & Hk). by exists e.
    + right. right. left. destruct Hor as (e & He & Hk & _). by exists e.
    + right. right. right. destruct Hor as (e & He & Hk). by exists e.
    + right. right. left. destruct Hor as [(e & He & Hk & _) _]. by exists e.
  - destruct (run_keys _ _ Hb) as (A1 & A2 & A3 & A4).
    assert (Hfin : (exists n, entry st k n) -> exists n, n ∈ l /\ node_key n = k).
    { intros [n Hn]. exists n. split; [by eapply Hel, entry_in_table|].
      by apply (entry_key st). }
    intros [(e & He & <-)|[(e & He & <-)|[(e & He & <-)|(e & He & <-)]]];
      apply Hfin; auto.
Qed.

Lemma output_keys_witness :
  exists n, n ∈ [sample.host_n; sample.management_n] /\ node_key n = "10.0.0.2".
Proof.
  apply (output_keys sample.host_and_ip [sample.host_n; sample.management_n]).
  - apply getHetznerData_run_sound. vm_compute. reflexivity.
  - right. left. exists (sample.single sample.ip_10_0_0_2 sample.ip_10_0_0_1).
    split; [left|vm_compute; reflexivity].
Defined.

(** ** What becomes of each record *)

Lemma management_node_Ip e host : Ip (management_node e host) = api.Ip_Ip e.
Proof. reflexivity. Qed.

Lemma grows_ip_step st e st' : wf st -> ip_step st e = Ok st' -> grows st st'.
Proof.
  intros Hwf H k p Hk.
  destruct (ip_step_shape _ _ _ Hwf H)
    as [(q & n & _ & _ & ->)|(hp & host & Hfree & _ & _ & ->)];
    rewrite modify_nodes; [done|].
  rewrite insert_node_st_other; [done|]. intros ->.
  unfold ip_key in Hfree. rewrite management_node_Ip in Hk. congruence.
Qed.

Lemma grows_ip_pass l st st' : wf st -> ip_pass l st = Ok st' -> grows st st'.
Proof.
  apply (forM_rel grows wf ip_step grows_refl grows_trans).
  intros s e s' Hs H. split; [exact (wf_ip_step _ _ _ Hs H)|exact (grows_ip_step _ _ _ Hs H)].
Qed.

Lemma late_frame_fields n n' :
  late_frame n n' ->
  Ip n' = Ip n /\ Server_ip n' = Server_ip n /\ ancestry n' = ancestry n
  /\ Subnet n' = Subnet n /\ Gateway n' = Gateway n /\ Failover n' = Failover n
  /\ address_fields n' = address_fields n.
Proof.
  intros H. unfold late_frame in H.
  repeat split.
  - exact (f_equal Ip H).
  - exact (f_equal Server_ip H).
  - exact (f_equal ancestry H).
  - exact (f_equal Subnet H).
  - exact (f_equal Gateway H).
  - exact (f_equal Failover H).
  - exact (f_equal address_fields H).
Qed.

(** The list a run returns holds what the final table holds. *)
Lemma output_entry raw l st k n :
  getHetznerData raw l -> build_nodes raw = Ok st -> entry st k n ->
  n ∈ l /\ node_key n = k.
Proof.
  intros Hout Hb Hn.
  destruct (getHetznerData_elem _ _ Hout) as (st' & Hb' & Hwf & _ & _ & Hel).
  rewrite Hb in Hb'. inversion Hb'; subst st'.
  split; [by eapply Hel, entry_in_table|by apply (entry_key st)].
Qed.

Lemma output_shape raw l n : getHetznerData raw l -> n ∈ l -> shape n.
Proof.
  intros Hout Hn.
  destruct (getHetznerData_elem _ _ Hout) as (st & Hb & _ & _ & _ & Hel).
  destruct (run_shapes _ _ Hb) as (_ & _ & _ & _ & _ & _ & _ & _ & _ & Hsh).
  by apply Hsh, Hel.
Qed.

Lemma host_pass_last pre e post st st' :
  host_pass (pre ++ e :: post)%list st = Ok st' ->
  Forall (fun e' => server_key e' <> server_key e) post ->
  entry st' (server_key e) (host_node e).
Proof.
  intros H Hpost.
  assert (Hstep : forall s a s', True -> host_step s a = Ok s' ->
            True /\ (exists n, entry s' (server_key a) n /\ n = host_node a)
            /\ forall k n, k <> server_key a -> entry s k n -> entry s' k n).
  { intros s a s' _ Hs. destruct (host_step_entry _ _ _ Hs) as [Hself Hoth].
    split; [done|]. split; [by eexists|done]. }
  destruct (forM_last host_step server_key (fun _ => True)
              (fun e n => n = host_node e) Hstep pre e post st st' I H Hpost)
    as (n & Hn & ->).
  exact Hn.
Qed.

(** X16. The server record that is the last one with its main address has a
    Host node in the returned list: the node has the record's address as
    its own and as its server address, the ancestry the record gives,
    and none of the subnet fields. *)
Theorem server_record_has_host (raw : RawData) (l : list Node)
    (pre post : list api.Server) (e : api.Server) :
  getHetznerData raw l ->
  rservers raw = (pre ++ e :: post)%list ->
  Forall (fun e' => server_key e' <> server_key e) post ->
  exists n, n ∈ l /\ node_key n = server_key e /\ Kind_of n = KindHost
            /\ Ip n = api.Server_ip e /\ Server_ip n = api.Server_ip e
            /\ ancestry n = ancestry (host_node e)
            /\ Subnet n = None /\ Gateway n = [] /\ Failover n = false
            /\ Active_server_ip n = [].
Proof.
  intros Hout Hsplit Hpost.
  destruct (getHetznerData_elem _ _ Hout) as (sf & Hb & Hwf & _ & _ & Hel).
  destruct (run_states _ _ Hb)
    as (s1 & s2 & s3 & s4 & H1 & H2 & H3 & H4 & H5 & R1 & _ & _ & _ & _
        & W1 & W2 & W3 & W4 & W5 & L3 & L4 & L5).
  rewrite Hsplit in H1.
  destruct (host_pass_last _ _ _ _ _ H1 Hpost) as (p & Hk & Hp).
  assert (Hg : grows s1 sf).
  { eapply grows_trans; [by eapply grows_ip_pass|].
    eapply grows_trans; [apply L3|]. eapply grows_trans; [apply L4|apply L5]. }
  assert (Hpr : preserved s1 sf).
  { apply (reached_preserved raw); [|done]. right. left.
    exists [], (rips raw). by split. }
  destruct (Hpr _ _ Hp) as (n & Hn & HIp & HSip & Hanc & HSub & HKh & _).
  assert (He : entry sf (server_key e) n) by (exists p; split; [by apply Hg|done]).
  destruct (output_entry _ _ _ _ _ Hout Hb He) as [Hin Hkey].
  pose proof (output_shape _ _ _ Hout Hin) as Hsh.
  assert (HK : Kind_of n = KindHost) by (by apply HKh).
  unfold shape in Hsh. rewrite HK in Hsh. destruct Hsh as (S1 & S2 & S3 & S4).
  exists n. repeat (split; [done|]). done.
Qed.

Lemma server_record_has_host_witness :
  exists n, n ∈ [sample.host_n; sample.management_n]
            /\ node_key n = server_key sample.server /\ Kind_of n = KindHost.
Proof.
  destruct (server_record_has_host sample.host_and_ip
              [sample.host_n; sample.management_n] [] [] sample.server)
    as (n & Hin & Hk & HK & _).
  - apply getHetznerData_run_sound. vm_compute. reflexivity.
  - reflexivity.
  - constructor.
  - exists n. split; [exact Hin|]. split; [exact Hk|exact HK].
Defined.

Lemma late_rel_entry st st' k n :
  late_rel st st' -> entry st k n -> exists n', entry st' k n' /\ late n n'.
Proof. intros [Hg Hc]. by apply grows_entry. Qed.

Lemma ip_pass_last pre e post st st' :
  wf st -> ip_pass (pre ++ e :: post)%list st = Ok st' ->
  Forall (fun e' => ip_key e' <> ip_key e) post ->
  exists n, entry st' (ip_key e) n /\ address_fields n = ip_record_fields e.
Proof.
  intros Hwf H Hpost.
  apply (forM_last ip_step ip_key wf
           (fun e n => address_fields n = ip_record_fields e)) with pre post st;
    try done.
  intros s a s' Hs Ha. destruct (ip_step_entry _ _ _ Hs Ha) as [(n0 & Hself & _) Hoth].
  split; [by eapply wf_ip_step|]. split; [|done].
  exists (ip_fields a n0). split; [done|reflexivity].
Qed.

(** X17. The IP record that is the last one with its address has a node in
    the returned list, of kind Host or Management, with the locking,
    MAC and traffic fields of the record. *)
Theorem ip_record_has_node (raw : RawData) (l : list Node)
    (pre post : list api.Ip) (e : api.Ip) :
  getHetznerData raw l ->
  rips raw = (pre ++ e :: post)%list ->
  Forall (fun e' => ip_key e' <> ip_key e) post ->
  exists n, n ∈ l /\ node_key n = ip_key e
            /\ (Kind_of n = KindHost \/ Kind_of n = KindManagement)
            /\ address_fields n = ip_record_fields e.
Proof.
  intros Hout Hsplit Hpost.
  destruct (getHetznerData_elem _ _ Hout) as (sf & Hb & Hwf & _ & _ & Hel).
  destruct (run_states _ _ Hb)
    as (s1 & s2 & s3 & s4 & H1 & H2 & H3 & H4 & H5 & _ & R2 & _ & _ & _
        & W1 & W2 & W3 & W4 & W5 & L3 & L4 & L5).
  destruct (run_shapes _ _ Hb) as (s2' & _ & _ & R2' & _ & _ & P2 & _).
  rewrite R2 in R2'. inversion R2'; subst s2'. clear R2'.
  rewrite Hsplit in H2.
  destruct (ip_pass_last _ _ _ _ _ W1 H2 Hpost) as (n2 & Hn2 & Ha2).
  pose proof (late_rel_trans _ _ _ L3 (late_rel_trans _ _ _ L4 L5)) as L.
  destruct (late_rel_entry _ _ _ _ L Hn2) as (n & Hn & Hfr & HK).
  destruct (output_entry _ _ _ _ _ Hout Hb Hn) as [Hin Hkey].
  destruct (P2 n2 (entry_in_table _ _ _ Hn2)) as (HK2 & _).
  destruct (late_frame_fields _ _ Hfr) as (_ & _ & _ & _ & _ & _ & Haf).
  exists n. split; [done|]. split; [done|]. split; [|congruence].
  destruct HK as [HK|[HK _]]; [rewrite HK; exact HK2|].
  rewrite HK in HK2. destruct HK2; discriminate.
Qed.

Lemma ip_record_has_node_witness :
  exists n, n ∈ [sample.host_n; sample.management_n]
            /\ node_key n = "10.0.0.2"
            /\ address_fields n
               = ip_record_fields (sample.single sample.ip_10_0_0_2 sample.ip_10_0_0_1).
Proof.
  destruct (ip_record_has_node sample.host_and_ip
              [sample.host_n; sample.management_n] [] []
              (sample.single sample.ip_10_0_0_2 sample.ip_10_0_0_1))
    as (n & Hin & Hk & _ & Ha).
  - apply getHetznerData_run_sound. vm_compute. reflexivity.
  - reflexivity.
  - constructor.
  - exists n. split; [exact Hin|]. split; [exact Hk|exact Ha].
Defined.

Lemma subnet_node_Subnet e server :
  Subnet (subnet_node e server)
  = Some (net.mkIPNet (api.Subnet_Ip e)
            (net.CIDRMask (api.Subnet_Mask e)
               (if net.len (net.To4 (api.Subnet_Ip e)) =? 0
                then 8 * net.IPv6len else 8 * net.IPv4len))).
Proof. reflexivity. Qed.

Lemma subnet_node_address e server :
  address_fields (subnet_node e server)
  = mkAddressFields (api.Subnet_Locked e) (Separate_mac server)
      (api.Subnet_Traffic_warnings e) (api.Subnet_Traffic_hourly e)
      (api.Subnet_Traffic_daily e) (api.Subnet_Traffic_monthly e).
Proof. reflexivity. Qed.

Lemma subnet_record_entry raw sf e :
  build_nodes raw = Ok sf -> e ∈ rsubnets raw ->
  exists n server, entry sf (subnet_key e) n /\ late (subnet_node e server) n.
Proof.
  intros Hb He.
  destruct (run_states _ _ Hb)
    as (s1 & s2 & s3 & s4 & H1 & H2 & H3 & H4 & H5 & _ & _ & _ & _ & _
        & W1 & W2 & W3 & W4 & W5 & _ & L4 & L5).
  apply list_elem_of_split in He as (pre & post & Hsplit).
  rewrite Hsplit in H3. unfold subnet_pass in H3.
  apply forM_split in H3 as (st & Hpre & H3).
  assert (Wst : wf st) by exact (wf_subnet_pass _ _ _ W2 Hpre).
  rewrite forM_cons in H3. apply bind_Ok in H3 as (st1 & Hstep & H3).
  assert (W1' : wf st1) by exact (wf_subnet_step _ _ _ Wst Hstep).
  destruct (subnet_step_entry _ _ _ Wst Hstep) as (_ & (server & _ & Hn1) & _).
  pose proof (late_subnet_pass _ _ _ W1' H3) as L3.
  pose proof (late_rel_trans _ _ _ L3 (late_rel_trans _ _ _ L4 L5)) as L.
  destruct (late_rel_entry _ _ _ _ L Hn1) as (n & Hn & Hl).
  by exists n, server.
Qed.

(** X18. Every subnet record has a node in the returned list, of kind Network
    or Failover, with the network, gateway, failover flag, locking and
    traffic fields of the record. *)
Theorem subnet_record_has_node (raw : RawData) (l : list Node) (e : api.Subnet) :
  getHetznerData raw l -> e ∈ rsubnets raw ->
  exists n, n ∈ l /\ node_key n = subnet_key e
            /\ (Kind_of n = KindNetwork \/ Kind_of n = KindFailover)
            /\ Subnet n
               = Some (net.mkIPNet (api.Subnet_Ip e)
                         (net.CIDRMask (api.Subnet_Mask e)
                            (if net.len (net.To4 (api.Subnet_Ip e)) =? 0
                             then 8 * net.IPv6len else 8 * net.IPv4len)))
            /\ Gateway n = api.Subnet_Gateway e
            /\ Failover n = api.Subnet_Failover e
            /\ Locked n = api.Subnet_Locked e
            /\ Traffic_warnings n = api.Subnet_Traffic_warnings e
            /\ Traffic_hourly n = api.Subnet_Traffic_hourly e
            /\ Traffic_daily n = api.Subnet_Traffic_daily e
            /\ Traffic_monthly n = api.Subnet_Traffic_monthly e.
Proof.
  intros Hout He.
  destruct (getHetznerData_elem _ _ Hout) as (sf & Hb & Hwf & _ & _ & Hel).
  destruct (subnet_record_entry _ _ _ Hb He) as (n & server & Hn & Hfr & HK).
  destruct (output_entry _ _ _ _ _ Hout Hb Hn) as [Hin Hkey].
  destruct (late_frame_fields _ _ Hfr) as (_ & _ & _ & HS & HG & HF & Haf).
  rewrite subnet_node_Subnet in HS. rewrite subnet_node_Gateway in HG.
  rewrite subnet_node_Failover in HF. rewrite subnet_node_address in Haf.
  rewrite subnet_node_Kind in HK.
  exists n. split; [done|]. split; [done|].
  split; [destruct HK as [HK|[_ HK]]; auto|].
  split; [done|]. split; [done|]. split; [done|].
  unfold address_fields in Haf. by inversion Haf.
Qed.

Lemma subnet_record_has_node_witness :
  exists n, n ∈ full_nodes /\ node_key n = "10.1.0.0"
            /\ Gateway n = [] /\ Failover n = false.
Proof.
  destruct (subnet_record_has_node sample.full full_nodes
              (sample.routed sample.net_10_1_0_0 24 sample.ip_10_0_0_1 false))
    as (n & Hin & Hk & _ & _ & HG & HF & _).
  - apply getHetznerData_run_sound. vm_compute. reflexivity.
  - left.
  - exists n. split; [exact Hin|]. split; [exact Hk|]. split; [exact HG|exact HF].
Defined.

Lemma ptr_failover_pass l st st' :
  failover_pass l st = Ok st' ->
  grows st st' /\ cells (fun a b => Ptr b = Ptr a) st st'.
Proof.
  intros H.
  apply (forM_rel (fun s s' => grows s s' /\ cells (fun a b => Ptr b = Ptr a) s s')
           (fun _ => True) failover_step) with l; try done.
  - intros s. split; [apply grows_refl|by apply cells_refl].
  - intros a b c [G1 C1] [G2 C2]. split; [by eapply grows_trans|].
    eapply (cells_trans (fun a b => Ptr b = Ptr a)); [|exact C1|exact C2].
    intros x y z Hxy Hyz. congruence.
  - intros s e s' _ Hs. split; [done|].
    destruct (failover_step_shape _ _ _ Hs) as (p & n & _ & _ & _ & _ & ->).
    split; [apply grows_modify|]. apply cells_modify; [done|]. by intros.
Qed.

Lemma rdns_pass_last pre e post st st' :
  wf st -> rdns_pass (pre ++ e :: post)%list st = Ok st' ->
  Forall (fun e' => rdns_key e' <> rdns_key e) post ->
  exists n, entry st' (rdns_key e) n /\ Ptr n = api.Rdns_Ptr e.
Proof.
  intros Hwf H Hpost.
  apply (forM_last rdns_step rdns_key wf
           (fun e n => Ptr n = api.Rdns_Ptr e)) with pre post st; try done.
  intros s a s' Hs Ha. destruct (rdns_step_entry _ _ _ Hs Ha) as [Hself Hoth].
  split; [by eapply wf_rdns_step|]. by split.
Qed.

(** X19. The RDNS record that is the last one with its address has a node in
    the returned list that carries the record's PTR. *)
Theorem rdns_record_sets_ptr (raw : RawData) (l : list Node)
    (pre post : list api.Rdns) (e : api.Rdns) :
  getHetznerData raw l ->
  rrdns raw = (pre ++ e :: post)%list ->
  Forall (fun e' => rdns_key e' <> rdns_key e) post ->
  exists n, n ∈ l /\ node_key n = rdns_key e /\ Ptr n = api.Rdns_Ptr e.
Proof.
  intros Hout Hsplit Hpost.
  destruct (getHetznerData_elem _ _ Hout) as (sf & Hb & Hwf & _ & _ & Hel).
  destruct (run_states _ _ Hb)
    as (s1 & s2 & s3 & s4 & H1 & H2 & H3 & H4 & H5 & _ & _ & _ & _ & _
        & W1 & W2 & W3 & W4 & W5 & _).
  rewrite Hsplit in H4.
  destruct (rdns_pass_last _ _ _ _ _ W3 H4 Hpost) as (n4 & Hn4 & HP4).
  destruct (ptr_failover_pass _ _ _ H5) as [Hg Hc].
  destruct (grows_entry _ _ _ _ _ Hg Hc Hn4) as (n & Hn & HP).
  destruct (output_entry _ _ _ _ _ Hout Hb Hn) as [Hin Hkey].
  exists n. split; [done|]. split; [done|congruence].
Qed.

Lemma rdns_record_sets_ptr_witness :
  exists n, n ∈ full_nodes /\ node_key n = "10.1.0.5" /\ Ptr n = "x.example.com".
Proof.
  destruct (rdns_record_sets_ptr sample.full full_nodes [] []
              (api.mkRdns sample.ip_10_1_0_5 "x.example.com"))
    as (n & Hin & Hk & HP).
  - apply getHetznerData_run_sound. vm_compute. reflexivity.
  - reflexivity.
  - constructor.
  - exists n. split; [exact Hin|]. split; [exact Hk|exact HP].
Defined.

(** ** Records the run does not accept twice *)

Lemma failover_pass_once l st st' :
  wf st -> failover_pass l st = Ok st' ->
  NoDup (failover_key <$> l).
Proof.
  intros Hwf H.
  apply (forM_once failover_step failover_key wf
           (fun k s => exists n, entry s k n /\ Kind_of n = KindFailover))
    with st st'; try done.
  intros s e s' Hs He.
  destruct (failover_step_entry _ _ _ Hs He) as [(n0 & Hn0 & HK & HF & Hself) Hoth].
  split; [by eapply wf_failover_step|]. split.
  - exists (failover_fields e n0). by split.
  - intros k (n & Hn & HKn).
    assert (Hne : failover_key e <> k).
    { intros <-. rewrite (entry_fun _ _ _ _ Hn Hn0) in HKn. congruence. }
    split; [done|]. exists n. split; [|done]. apply Hoth; [|done]. congruence.
Qed.

Lemma failover_pass_last pre e post st st' :
  wf st -> failover_pass (pre ++ e :: post)%list st = Ok st' ->
  Forall (fun e' => failover_key e' <> failover_key e) post ->
  exists n, entry st' (failover_key e) n
            /\ (Kind_of n = KindFailover /\ Failover n = true
                /\ Active_server_ip n = api.Failover_Active_server_ip e).
Proof.
  intros Hwf H Hpost.
  apply (forM_last failover_step failover_key wf
           (fun e n => Kind_of n = KindFailover /\ Failover n = true
                       /\ Active_server_ip n = api.Failover_Active_server_ip e))
    with pre post st; try done.
  intros s a s' Hs Ha.
  destruct (failover_step_entry _ _ _ Hs Ha) as [(n0 & Hn0 & HK & HF & Hself) Hoth].
  split; [by eapply wf_failover_step|]. split; [|done].
  exists (failover_fields a n0). split; [done|]. by repeat split.
Qed.

Lemma NoDup_fmap_split {A} (key : A -> string) pre e post :
  NoDup (key <$> (pre ++ e :: post)%list) ->
  Forall (fun e' => key e' <> key e) post.
Proof.
  rewrite fmap_app, fmap_cons. intros H.
  apply NoDup_app in H as (_ & _ & H). apply NoDup_cons in H as [Hnin _].
  apply Forall_forall. intros e' He' Heq. apply Hnin. rewrite <- Heq.
  apply list_elem_of_fmap. by exists e'.
Qed.

Lemma failover_record_entry raw sf e :
  build_nodes raw = Ok sf -> e ∈ rfailover raw ->
  exists n, entry sf (failover_key e) n
            /\ Kind_of n = KindFailover /\ Failover n = true
            /\ Active_server_ip n = api.Failover_Active_server_ip e.
Proof.
  intros Hb He.
  destruct (run_states _ _ Hb)
    as (s1 & s2 & s3 & s4 & H1 & H2 & H3 & H4 & H5 & _ & _ & _ & _ & _
        & W1 & W2 & W3 & W4 & W5 & _).
  pose proof (failover_pass_once _ _ _ W4 H5) as Hnd.
  apply list_elem_of_split in He as (pre & post & Hsplit).
  rewrite Hsplit in H5, Hnd.
  apply (failover_pass_last _ _ _ _ _ W4 H5).
  by apply (NoDup_fmap_split failover_key pre).
Qed.

(** X20. Every failover record has a node in the returned list: a Failover
    node with the subnet of its own address, the failover flag and the
    active server address of the record. *)
Theorem failover_record_promotes (raw : RawData) (l : list Node) (e : api.Failover) :
  getHetznerData raw l -> e ∈ rfailover raw ->
  exists n, n ∈ l /\ node_key n = failover_key e
            /\ Kind_of n = KindFailover /\ Failover n = true
            /\ Active_server_ip n = api.Failover_Active_server_ip e
            /\ has_subnet n.
Proof.
  intros Hout He.
  destruct (getHetznerData_elem _ _ Hout) as (sf & Hb & Hwf & _ & _ & Hel).
  destruct (failover_record_entry _ _ _ Hb He) as (n & Hn & HK & HF & HA).
  destruct (output_entry _ _ _ _ _ Hout Hb Hn) as [Hin Hkey].
  pose proof (output_shape _ _ _ Hout Hin) as Hsh.
  unfold shape in Hsh. rewrite HK in Hsh. destruct Hsh as [Hsub _].
  exists n. repeat (split; [done|]). done.
Qed.

Lemma failover_record_promotes_witness :
  exists n, n ∈ full_nodes /\ node_key n = "10.2.0.0"
            /\ Kind_of n = KindFailover
            /\ Active_server_ip n = sample.ip_10_0_0_1.
Proof.
  destruct (failover_record_promotes sample.full full_nodes
              (api.mkFailover sample.net_10_2_0_0 "255.255.255.255"
                 sample.ip_10_0_0_1 100 sample.ip_10_0_0_1))
    as (n & Hin & Hk & HK & _ & HA & _).
  - apply getHetznerData_run_sound. vm_compute. reflexivity.
  - left.
  - exists n. split; [exact Hin|]. split; [exact Hk|]. split; [exact HK|exact HA].
Defined.

(** X21. A run that returns has met no failover address twice, and every
    failover record names the address of a subnet record that is
    flagged as failover. *)
Theorem failover_records_need_subnets (raw : RawData) (l : list Node) :
  getHetznerData raw l ->
  NoDup (failover_key <$> rfailover raw)
  /\ forall f, f ∈ rfailover raw ->
       exists s, s ∈ rsubnets raw /\ subnet_key s = failover_key f
                 /\ api.Subnet_Failover s = true.
Proof.
  intros Hout.
  destruct (getHetznerData_elem _ _ Hout) as (sf & Hb & Hwf & _ & _ & Hel).
  split.
  - destruct (run_states _ _ Hb)
      as (s1 & s2 & s3 & s4 & _ & _ & _ & _ & H5 & _ & _ & _ & _ & _
          & _ & _ & _ & W4 & _).
    exact (failover_pass_once _ _ _ W4 H5).
  - intros f Hf.
    destruct (failover_record_entry _ _ _ Hb Hf) as (n & Hn & HK & _).
    pose proof (run_origin _ _ Hb n (entry_in_table _ _ _ Hn)) as Hor.
    unfold origin in Hor. rewrite HK in Hor.
    destruct Hor as [(s & Hs & Hsk & HsF & _) _].
    exists s. split; [done|]. split; [|done].
    rewrite Hsk. by apply (entry_key sf).
Qed.

Lemma failover_records_need_subnets_witness :
  exists s, s ∈ rsubnets sample.full /\ api.Subnet_Failover s = true.
Proof.
  destruct (failover_records_need_subnets sample.full full_nodes) as [_ Hs].
  - apply getHetznerData_run_sound. vm_compute. reflexivity.
  - destruct (Hs (api.mkFailover sample.net_10_2_0_0 "255.255.255.255"
                    sample.ip_10_0_0_1 100 sample.ip_10_0_0_1))
      as (s & Hin & _ & HF); [left|].
    exists s. split; [exact Hin|exact HF].
Defined.

Lemma subnet_pass_once l st st' :
  wf st -> subnet_pass l st = Ok st' ->
  NoDup (subnet_key <$> l)
  /\ forall e, e ∈ l -> ~ exists n, entry st (subnet_key e) n.
Proof.
  intros Hwf H.
  apply (forM_once subnet_step subnet_key wf (fun k s => exists n, entry s k n))
    with st'; try done.
  intros s e s' Hs He.
  destruct (subnet_step_entry _ _ _ Hs He) as (Hfree & (server & _ & Hself) & Hoth).
  split; [by eapply wf_subnet_step|]. split; [by eexists|].
  intros k (n & (p & Hp & Hn)). split.
  - intros <-. congruence.
  - exists n. apply Hoth. by exists p.
Qed.

(** X22. A run that returns has met no subnet address twice, and no subnet
    record has the main address of a server record or the address of an
    IP record. *)
Theorem subnet_addresses_are_new (raw : RawData) (l : list Node) :
  getHetznerData raw l ->
  NoDup (subnet_key <$> rsubnets raw)
  /\ forall e, e ∈ rsubnets raw ->
       (forall s, s ∈ rservers raw -> server_key s <> subnet_key e)
       /\ (forall i, i ∈ rips raw -> ip_key i <> subnet_key e).
Proof.
  intros Hout.
  destruct (getHetznerData_elem _ _ Hout) as (sf & Hb & Hwf & _ & _ & Hel).
  destruct (run_states _ _ Hb)
    as (s1 & s2 & s3 & s4 & H1 & H2 & H3 & _ & _ & _ & _ & _ & _ & _
        & W1 & W2 & _).
  destruct (subnet_pass_once _ _ _ W2 H3) as [Hnd Hfree].
  split; [done|]. intros e He.
  destruct (host_pass_keys _ _ _ H1) as [_ A1].
  destruct (ip_pass_keys _ _ _ W1 H2) as [K2 A2].
  split.
  - intros s Hs Heq. apply (Hfree _ He). rewrite <- Heq. exact (K2 _ (A1 _ Hs)).
  - intros i Hi Heq. apply (Hfree _ He). rewrite <- Heq. exact (A2 _ Hi).
Qed.

Lemma subnet_addresses_are_new_witness :
  NoDup (subnet_key <$> rsubnets sample.full).
Proof.
  destruct (subnet_addresses_are_new sample.full full_nodes) as [Hnd _].
  - apply getHetznerData_run_sound. vm_compute. reflexivity.
  - exact Hnd.
Defined.

(** X23. An IP record whose address is a key of the table is applied to the
    node under that key: the step cannot fail, it does not look at the
    owner the record names, it adds no key and no cell, leaves every
    other cell as it is, and changes the node in the locking, MAC and
    traffic fields only. *)
Theorem ip_record_updates_in_place (raw : RawData) (pre : list api.Ip)
    (e : api.Ip) (st : state) (p : nat) :
  reach_ip raw pre = Ok st ->
  nodes st !! ip_key e = Some p ->
  exists n st',
    heap st !! p = Some n
    /\ ip_step st e = Ok st'
    /\ nodes st' = nodes st
    /\ length (heap st') = length (heap st)
    /\ heap st' !! p = Some (ip_fields e n)
    /\ (forall q, q <> p -> heap st' !! q = heap st !! q)
    /\ address_fields (ip_fields e n) = ip_record_fields e
    /\ (forall e', ip_fields e' (ip_fields e n) = ip_fields e' n).
Proof.
  intros Hr Hk. pose proof (wf_reach_ip _ _ _ Hr) as Hwf.
  destruct (wf_key _ Hwf _ _ Hk) as (n & Hn & _).
  exists n, (modify p (ip_fields e) st).
  split; [done|]. split; [exact (ip_step_found _ _ _ _ Hk Hn)|].
  split; [apply modify_nodes|]. split; [apply modify_length|].
  split.
  - destruct (entry_modify_self st _ _ _ (ip_fields e) Hk Hn) as (p' & Hp' & Hc).
    rewrite modify_nodes, Hk in Hp'. by inversion Hp'; subst p'.
  - split; [intros q Hq; by apply lookup_modify_ne|]. by split.
Qed.

Lemma ip_record_updates_in_place_witness :
  exists n st',
    ip_step (insert_node_st empty_state sample.host_n)
      (sample.single sample.ip_10_0_0_1 sample.ip_10_0_0_3) = Ok st'
    /\ heap st' !! 0%nat = Some n /\ Kind_of n = KindHost.
Proof.
  destruct (ip_record_updates_in_place sample.host_and_ip []
              (sample.single sample.ip_10_0_0_1 sample.ip_10_0_0_3)
              (insert_node_st empty_state sample.host_n) 0%nat)
    as (n & st' & Hn & Hs & _ & _ & Hp & _).
  - reflexivity.
  - vm_compute. reflexivity.
  - exists (ip_fields (sample.single sample.ip_10_0_0_1 sample.ip_10_0_0_3) n), st'.
    split; [exact Hs|]. split; [exact Hp|].
    vm_compute in Hn. inversion Hn. reflexivity.
Defined.

(** ** [main]: fields and kinds *)

Section MainProperties.

Variable normalise : string -> string.

Lemma field_formats_Done names l :
  cli.field_formats normalise names = cli.Done l ->
  length l = length names
  /\ Forall (fun name => is_Some (cli.knownFields (normalise name))) names.
Proof.
  revert l. induction names as [|name names IH]; intros l H; simpl in H.
  - inversion H. by split.
  - destruct (cli.knownFields (normalise name)) as [f|] eqn:Hf; [|discriminate].
    destruct (cli.field_formats normalise names) as [l'|] eqn:Hl; [|discriminate].
    inversion H. destruct (IH _ eq_refl) as [Hlen Hall]. split; [simpl; lia|].
    constructor; [by rewrite Hf|done].
Qed.

Lemma field_formats_known names :
  Forall (fun name => is_Some (cli.knownFields (normalise name))) names ->
  exists l, cli.field_formats normalise names = cli.Done l.
Proof.
  induction 1 as [|name names [f Hf] _ [l IH]]; [by eexists|].
  simpl. rewrite Hf, IH. by eexists.
Qed.

Lemma field_formats_Fatal pre name post :
  Forall (fun name => is_Some (cli.knownFields (normalise name))) pre ->
  cli.knownFields (normalise name) = None ->
  cli.field_formats normalise (pre ++ name :: post)
  = cli.Fatal ("unknown field " ++ name).
Proof.
  intros Hpre Hn. induction Hpre as [|x pre [f Hf] _ IH]; simpl.
  - by rewrite Hn.
  - by rewrite Hf, IH.
Qed.

Lemma args_known names n :
  Forall (fun name => is_Some (cli.knownFields (normalise name))) names ->
  exists a, cli.args normalise names n = Ok a /\ length a = length names.
Proof.
  induction 1 as [|name names [f Hf] _ (a & Ha & Hlen)]; [by exists []|].
  simpl. rewrite Hf, Ha. simpl. eexists. split; [reflexivity|]. simpl. lia.
Qed.

(** X24. [main] gets a format for the names of [-fields] exactly when
    [knownFields] has every name; otherwise it exits with the first
    unknown name as it was written.  With a format, [args] finds a
    factory for every name and returns one value per name.  Outside
    batch mode the delimiter flag plays no part. *)
Theorem format_needs_known_fields (batchMode : bool) (delimiter delimiter' : string)
    (names : list string) (n : Node) :
  ((exists f, cli.compile_format normalise batchMode delimiter names = cli.Done f)
   <-> Forall (fun name => is_Some (cli.knownFields (normalise name))) names)
  /\ (forall pre name post,
        names = (pre ++ name :: post)%list ->
        Forall (fun name => is_Some (cli.knownFields (normalise name))) pre ->
        cli.knownFields (normalise name) = None ->
        cli.compile_format normalise batchMode delimiter names
        = cli.Fatal ("unknown field " ++ name))
  /\ (forall f, cli.compile_format normalise batchMode delimiter names = cli.Done f ->
        exists a, cli.args normalise names n = Ok a /\ length a = length names)
  /\ cli.compile_format normalise false delimiter names
     = cli.compile_format normalise false delimiter' names.
Proof.
  unfold cli.compile_format. repeat split.
  - intros [f Hf].
    destruct (cli.field_formats normalise names) as [l|] eqn:Hl; [|discriminate].
    by destruct (field_formats_Done _ _ Hl).
  - intros Hall. destruct (field_formats_known _ Hall) as [l ->]. by eexists.
  - intros pre name post -> Hpre Hn. by rewrite (field_formats_Fatal _ _ _ Hpre Hn).
  - intros f Hf.
    destruct (cli.field_formats normalise names) as [l|] eqn:Hl; [|discriminate].
    apply args_known. by destruct (field_formats_Done _ _ Hl).
Qed.

Lemma Kind_eqb_eq a b : Kind_eqb a b = true <-> a = b.
Proof. split; [by destruct a, b|intros ->; by destruct b]. Qed.

Lemma kinds_spec okinds k :
  cli.kinds normalise okinds k = true
  <-> exists name, name ∈ okinds /\ kind_of_name (normalise name) = Some k.
Proof.
  induction okinds as [|name okinds IH]; simpl.
  - split; [discriminate|]. intros (name & Hin & _). inversion Hin.
  - destruct (kind_of_name (normalise name)) as [k'|] eqn:Hk.
    + rewrite orb_true_iff, IH. split.
      * intros [He|(x & Hx & Hxk)].
        -- exists name. split; [left|]. rewrite Hk. f_equal. symmetry.
           by apply Kind_eqb_eq.
        -- exists x. split; [by right|done].
      * intros (x & Hx & Hxk). apply elem_of_cons in Hx as [->|Hx].
        -- left. rewrite Hk in Hxk. inversion Hxk. by apply Kind_eqb_eq.
        -- right. by exists x.
    + rewrite IH. split.
      * intros (x & Hx & Hxk). exists x. split; [by right|done].
      * intros (x & Hx & Hxk). apply elem_of_cons in Hx as [->|Hx]; [congruence|].
        by exists x.
Qed.

Lemma kind_of_name_not_nil s : kind_of_name s <> Some KindNil.
Proof.
  unfold kind_of_name.
  repeat match goal with |- context [String.eqb ?a ?b] => destruct (String.eqb a b) end;
    discriminate.
Qed.

(** X25. A row is printed for a node of the list exactly when a name of
    [-kinds] selects the kind of the node, and the rows keep the order
    of the list.  No name selects the nil kind; since no node that
    [getHetznerData] returns has it, names for the five kinds print
    every node of the returned list. *)
Theorem kinds_select_rows (okinds : list string) (raw : RawData) (l : list Node) :
  (forall nodes n,
     n ∈ cli.printed normalise okinds nodes
     <-> n ∈ nodes
         /\ exists name, name ∈ okinds
                         /\ kind_of_name (normalise name) = Some (Kind_of n))
  /\ (forall nodes, sublist (cli.printed normalise okinds nodes) nodes)
  /\ cli.kinds normalise okinds KindNil = false
  /\ (getHetznerData raw l ->
      (forall k, k <> KindNil ->
         exists name, name ∈ okinds /\ kind_of_name (normalise name) = Some k) ->
      cli.printed normalise okinds l = l).
Proof.
  split; [|split; [|split]].
  - intros nodes n. unfold cli.printed.
    rewrite list_elem_of_In, filter_In, <- list_elem_of_In, kinds_spec. done.
  - intros nodes. unfold cli.printed. induction nodes as [|n nodes IH]; simpl.
    + constructor.
    + destruct (cli.kinds normalise okinds (Kind_of n));
        [by apply sublist_skip|by apply sublist_cons].
  - destruct (cli.kinds normalise okinds KindNil) eqn:E; [|done].
    apply kinds_spec in E as (name & _ & Hk). by apply kind_of_name_not_nil in Hk.
  - intros Hout Hall. unfold cli.printed.
    assert (Hk : forall n, n ∈ l -> cli.kinds normalise okinds (Kind_of n) = true).
    { intros n Hn. apply kinds_spec, Hall. intros HK.
      pose proof (output_shape _ _ _ Hout Hn) as Hsh. unfold shape in Hsh.
      by rewrite HK in Hsh. }
    clear Hout. induction l as [|n l IH]; simpl; [done|].
    rewrite (Hk n) by left. f_equal. apply IH. intros m Hm. apply Hk. by right.
Qed.

End MainProperties.

Lemma format_needs_known_fields_witness :
  exists a, cli.args (fun s => s) ["kind"; "ip"] sample.host_n = Ok a
            /\ length a = 2%nat.
Proof.
  destruct (format_needs_known_fields (fun s => s) true "," "," ["kind"; "ip"]
              sample.host_n) as (_ & _ & Hargs & _).
  apply (Hargs (String.concat "," ["%s"; "%s"] ++ cli.newline)).
  reflexivity.
Defined.

Lemma kinds_select_rows_witness :
  cli.printed ToLower ["Host"; "Management"; "network"; "virtual"; "failover"]
    full_nodes = full_nodes.
Proof.
  destruct (kinds_select_rows ToLower
              ["Host"; "Management"; "network"; "virtual"; "failover"]
              sample.full full_nodes) as (_ & _ & _ & Hall).
  apply Hall.
  - apply getHetznerData_run_sound. vm_compute. reflexivity.
  - intros k Hk. destruct k; try (exfalso; apply Hk; reflexivity).
    + exists "Host". split; [left|reflexivity].
    + exists "Management". split; [right; left|reflexivity].
    + exists "network". split; [do 2 right; left|reflexivity].
    + exists "virtual". split; [do 3 right; left|reflexivity].
    + exists "failover". split; [do 4 right; left|reflexivity].
Defined.

(** ** The older [Client.Get] *)



(** ** The paid-until date, parsed and printed *)

Lemma digit_char c :
  time.isDigit c = true ->
  0 <= time.digit_val c <= 9
  /\ net.digit_of (Z.to_N (time.digit_val c)) = c.
Proof.
  destruct c as [[] [] [] [] [] [] [] []]; intros H; try discriminate H;
    (split; [vm_compute; split; discriminate|reflexivity]).
Qed.

Lemma digits_cases v : 0 <= v <= 9 -> In v [0; 1; 2; 3; 4; 5; 6; 7; 8; 9].
Proof.
  intros H. assert (Hc : v = 0 \/ v = 1 \/ v = 2 \/ v = 3 \/ v = 4 \/ v = 5
                         \/ v = 6 \/ v = 7 \/ v = 8 \/ v = 9) by lia.
  simpl. intuition auto.
Qed.

Lemma appendInt_4_check :
  forallb (fun a => forallb (fun b => forallb (fun c => forallb (fun d =>
    String.eqb (timefmt.appendInt (1000 * a + 100 * b + 10 * c + d) 4)
      (String (net.digit_of (Z.to_N a)) (String (net.digit_of (Z.to_N b))
         (String (net.digit_of (Z.to_N c)) (String (net.digit_of (Z.to_N d)) "")))))
    [0; 1; 2; 3; 4; 5; 6; 7; 8; 9]) [0; 1; 2; 3; 4; 5; 6; 7; 8; 9])
    [0; 1; 2; 3; 4; 5; 6; 7; 8; 9]) [0; 1; 2; 3; 4; 5; 6; 7; 8; 9] = true.
Proof. vm_compute. reflexivity. Qed.

Lemma appendInt_4 a b c d :
  0 <= a <= 9 -> 0 <= b <= 9 -> 0 <= c <= 9 -> 0 <= d <= 9 ->
  timefmt.appendInt (1000 * a + 100 * b + 10 * c + d) 4
  = String (net.digit_of (Z.to_N a)) (String (net.digit_of (Z.to_N b))
      (String (net.digit_of (Z.to_N c)) (String (net.digit_of (Z.to_N d)) ""))).
Proof.
  intros Ha Hb Hc Hd. pose proof appendInt_4_check as H.
  rewrite forallb_forall in H. specialize (H a (digits_cases a Ha)).
  rewrite forallb_forall in H. specialize (H b (digits_cases b Hb)).
  rewrite forallb_forall in H. specialize (H c (digits_cases c Hc)).
  rewrite forallb_forall in H. specialize (H d (digits_cases d Hd)).
  by apply String.eqb_eq in H.
Qed.

Lemma appendInt_2_check :
  forallb (fun a => forallb (fun b =>
    String.eqb (timefmt.appendInt (10 * a + b) 2)
      (String (net.digit_of (Z.to_N a)) (String (net.digit_of (Z.to_N b)) "")))
    [0; 1; 2; 3; 4; 5; 6; 7; 8; 9]) [0; 1; 2; 3; 4; 5; 6; 7; 8; 9] = true.
Proof. vm_compute. reflexivity. Qed.

Lemma appendInt_2 a b :
  0 <= a <= 9 -> 0 <= b <= 9 ->
  timefmt.appendInt (10 * a + b) 2
  = String (net.digit_of (Z.to_N a)) (String (net.digit_of (Z.to_N b)) "").
Proof.
  intros Ha Hb. pose proof appendInt_2_check as H.
  rewrite forallb_forall in H. specialize (H a (digits_cases a Ha)).
  rewrite forallb_forall in H. specialize (H b (digits_cases b Hb)).
  by apply String.eqb_eq in H.
Qed.

Lemma Parse_date_ok s :
  parses s = true ->
  exists y1 y2 y3 y4 m1 m2 a1 a2,
    s = String y1 (String y2 (String y3 (String y4 (String "-"
          (String m1 (String m2 (String "-" (String a1 (String a2 "")))))))))
    /\ time.isDigit y1 = true /\ time.isDigit y2 = true
    /\ time.isDigit y3 = true /\ time.isDigit y4 = true
    /\ time.isDigit m1 = true /\ time.isDigit m2 = true
    /\ time.isDigit a1 = true /\ time.isDigit a2 = true
    /\ fst (time.Parse_date s)
       = time.mkTime
           (1000 * time.digit_val y1 + 100 * time.digit_val y2
            + 10 * time.digit_val y3 + time.digit_val y4)
           (10 * time.digit_val m1 + time.digit_val m2)
           (10 * time.digit_val a1 + time.digit_val a2).
Proof.
  unfold parses, time.Parse_date.
  assert (Hs : s = string_of_list_ascii (list_ascii_of_string s))
    by (symmetry; apply string_of_list_ascii_of_string).
  revert Hs. generalize (list_ascii_of_string s) as cs. intros cs Hs H.
  destruct cs
    as [|y1 [|y2 [|y3 [|y4 [|d1 [|m1 [|m2 [|d2 [|a1 [|a2 [|x rest]]]]]]]]]]];
    try discriminate H.
  destruct (time.isDigit y1) eqn:E1; [|discriminate H].
  destruct (time.isDigit y2) eqn:E2; [|discriminate H].
  destruct (time.isDigit y3) eqn:E3; [|discriminate H].
  destruct (time.isDigit y4) eqn:E4; [|discriminate H].
  destruct (Ascii.eqb d1 "-") eqn:D1; [|discriminate H].
  destruct (time.isDigit m1) eqn:E5; [|discriminate H].
  destruct (time.isDigit m2) eqn:E6; [|discriminate H].
  destruct (Ascii.eqb d2 "-") eqn:D2; [|discriminate H].
  destruct (time.isDigit a1) eqn:E7; [|discriminate H].
  destruct (time.isDigit a2) eqn:E8; [|discriminate H].
  apply Ascii.eqb_eq in D1, D2. subst d1 d2.
  cbn [andb] in H |- *.
  match type of H with
  | context [if ?c then _ else _] => destruct c; [|discriminate H]
  end.
  exists y1, y2, y3, y4, m1, m2, a1, a2. split; [exact Hs|].
  repeat (split; [assumption|]). reflexivity.
Qed.

Lemma Format_Parse_date s :
  timefmt.Format_date (fst (time.Parse_date s))
  = if parses s then s else "0001-01-01".
Proof.
  destruct (parses s) eqn:Hp.
  - destruct (Parse_date_ok _ Hp)
      as (y1 & y2 & y3 & y4 & m1 & m2 & a1 & a2 & Hs & E1 & E2 & E3 & E4
          & E5 & E6 & E7 & E8 & Ht).
    rewrite Ht. unfold timefmt.Format_date. cbn [time.Year time.Month time.Day].
    destruct (digit_char _ E1) as [B1 C1]. destruct (digit_char _ E2) as [B2 C2].
    destruct (digit_char _ E3) as [B3 C3]. destruct (digit_char _ E4) as [B4 C4].
    destruct (digit_char _ E5) as [B5 C5]. destruct (digit_char _ E6) as [B6 C6].
    destruct (digit_char _ E7) as [B7 C7]. destruct (digit_char _ E8) as [B8 C8].
    rewrite (appendInt_4 _ _ _ _ B1 B2 B3 B4), (appendInt_2 _ _ B5 B6),
      (appendInt_2 _ _ B7 B8).
    rewrite C1, C2, C3, C4, C5, C6, C7, C8. rewrite Hs. reflexivity.
  - rewrite (Parse_date_error _ Hp). reflexivity.
Qed.

Lemma output_server_record raw l n :
  getHetznerData raw l -> n ∈ l ->
  exists e, e ∈ rservers raw
            /\ server_key e = net.IP_String (Server_ip n)
            /\ ancestry n = ancestry (host_node e).
Proof.
  intros Hout Hn.
  destruct (getHetznerData_elem _ _ Hout) as (st & Hb & Hwf & _ & _ & Hel).
  apply Hel in Hn. destruct (wf_host _ Hwf _ Hn) as (h & hp & Hhp & Hh & HK & Ha).
  assert (Hhe : entry st (net.IP_String (Server_ip n)) h) by (by exists hp).
  pose proof (run_origin _ _ Hb h (entry_in_table _ _ _ Hhe)) as Hor.
  unfold origin in Hor. rewrite HK in Hor. destruct Hor as (e & He & Hk & Hanc).
  exists e. split; [done|]. split; [|congruence].
  rewrite Hk. by apply (entry_key st).
Qed.

(** X27. Every node of the returned list has the ancestry that one server
    record gives, a record whose main address is the node's server
    address: product, datacentre, server name and number, status, the
    three flags, paid-until date and traffic quota all come from it. *)
Theorem ancestry_from_server_record (raw : RawData) (l : list Node) (n : Node) :
  getHetznerData raw l -> n ∈ l ->
  exists e, e ∈ rservers raw
            /\ server_key e = net.IP_String (Server_ip n)
            /\ ancestry n = ancestry (host_node e)
            /\ Server_number n = api.Server_number e
            /\ Server_name n = api.Server_name e.
Proof.
  intros Hout Hn. destruct (output_server_record _ _ _ Hout Hn) as (e & He & Hk & Ha).
  exists e. repeat (split; [done|]).
  split; [exact (f_equal a_server_number Ha)|exact (f_equal a_server_name Ha)].
Qed.

Lemma ancestry_from_server_record_witness :
  exists e, e ∈ rservers sample.host_and_ip
            /\ Server_number sample.management_n = api.Server_number e.
Proof.
  destruct (ancestry_from_server_record sample.host_and_ip
              [sample.host_n; sample.management_n] sample.management_n)
    as (e & He & _ & _ & Hnum & _).
  - apply getHetznerData_run_sound. vm_compute. reflexivity.
  - right. left.
  - exists e. split; [exact He|exact Hnum].
Defined.

(** X28. Parsing a paid-until string and printing the date with the same
    layout gives the string back when it is a date, and the zero date
    otherwise.  So the paid_until column of every node of the returned
    list shows the string of a server record with the node's server
    address, or 0001-01-01 when that string is no date. *)
Theorem paid_until_prints_back (s : string) (raw : RawData) (l : list Node)
    (n : Node) :
  timefmt.Format_date (fst (time.Parse_date s))
  = (if parses s then s else "0001-01-01")
  /\ (getHetznerData raw l -> n ∈ l ->
      exists e f,
        e ∈ rservers raw /\ server_key e = net.IP_String (Server_ip n)
        /\ cli.knownFields "paid_until" = Some f
        /\ cli.factory f n
           = cli.VString (if parses (api.Paid_until e) then api.Paid_until e
                          else "0001-01-01")).
Proof.
  split; [apply Format_Parse_date|]. intros Hout Hn.
  destruct (output_server_record _ _ _ Hout Hn) as (e & He & Hk & Ha).
  exists e. eexists. split; [done|]. split; [done|]. split; [reflexivity|].
  cbn [cli.factory]. f_equal.
  pose proof (f_equal a_paid_until Ha) as HP. cbn [a_paid_until ancestry] in HP.
  rewrite HP. apply Format_Parse_date.
Qed.

Lemma paid_until_prints_back_witness :
  exists e f,
    e ∈ rservers sample.host_and_ip
    /\ cli.knownFields "paid_until" = Some f
    /\ cli.factory f sample.management_n
       = cli.VString (if parses (api.Paid_until e) then api.Paid_until e
                      else "0001-01-01").
Proof.
  destruct (paid_until_prints_back "2014-03-01" sample.host_and_ip
              [sample.host_n; sample.management_n] sample.management_n)
    as [_ Hcol].
  destruct Hcol as (e & f & He & _ & Hf & Hv).
  - apply getHetznerData_run_sound. vm_compute. reflexivity.
  - right. left.
  - exists e, f. split; [exact He|]. split; [exact Hf|exact Hv].
Defined.
